(** * coregx/signals: reactive cells, derived cells and effects

    A sequential shallow embedding of the Go package [signals]
    (signal.go, computed.go, effect.go, internal.go, readonly.go) and the
    properties its specification states about it.

    Conventions of the embedding.
    - The heap of cells is a [World]: three finite maps from addresses to
      the structs [signal], [computed] and [effect], plus a [trace] of
      observable events (calls of user functions, panic reports, log lines).
    - A value of a type parameter [T] is a [val]; the type parameter itself
      is kept as a [gotype], because the dependency tracker dispatches on it.
    - A user closure is a function of the values it can read (a [view] of
      the Reactive Cells) returning what it appended to the caller's log and
      whether it returned or panicked.  User closures do not call back into
      the mutating API of the library, and a call of [Get] on a Derived
      Cell from inside a closure is not represented.
    - The locks ([sync.RWMutex], [sync.Mutex]) and the atomics are not
      represented: one operation runs at a time, except in the teardown
      of a subscription, whose goroutines are interleaved step by step
      ([teardown_step]).  The write-only metric
      counters [reads] and [writes] of [signal] are never read by any code
      and are left out.
    - Go leaves the iteration order of a map unspecified; every definition
      that ranges over a subscriber map is parameterised by [rank], an
      arbitrary priority on subscriber ids that fixes the order. *)

From Stdlib Require Import ZArith.
From stdpp Require Import gmap strings list fin_maps.

Local Open Scope N_scope.

(** ** Values and types *)

(** The type arguments the package distinguishes (internal.go, the type
    switch of [trackDependencyHelper]) and everything else. *)
Inductive gotype :=
| TInt | TString | TBool | TFloat64 | TInt64 | TAny
| TNamed (n : nat).

(** Dynamic values: the payload of cells and of [recover()]. *)
Inductive val :=
| VInt (n : Z)
| VString (s : string)
| VBool (b : bool)
| VFloat64 (bits : N)
| VNil
| VOpaque (t : nat) (n : N).

(** The zero value of a type ([var x T]). *)
Definition zero_value (T : gotype) : val :=
  match T with
  | TInt | TInt64 => VInt 0
  | TString => VString ""
  | TBool => VBool false
  | TFloat64 => VFloat64 0
  | TAny => VNil
  | TNamed n => VOpaque n 0
  end.

#[global] Instance gotype_eq_dec : EqDecision gotype.
Proof. solve_decision. Defined.
#[global] Instance val_eq_dec : EqDecision val.
Proof. solve_decision. Defined.

(** Result of running a user function under [defer recover()]. *)
Inductive outcome (A : Type) :=
| Returned (a : A)
| Panicked (p : val).
Arguments Returned {A} a.
Arguments Panicked {A} p.

(** ** User closures *)

(** What a closure reads: the current value of every Reactive Cell. *)
Abbreviation view := (gmap nat val).

(** A line a user closure appends to a log it shares with its caller. *)
Definition uitem : Type := string * val.

(** [func(T)]: a subscriber callback. *)
Definition subscriber_fn : Type := view → val → list uitem * outcome unit.
(** [func() T]: the compute function of a Derived Cell. *)
Definition compute_fn : Type := view → outcome val.
(** [func()]: a cleanup returned by an effect body. *)
Definition cleanup_fn : Type := view → list uitem * outcome unit.
(** [func() func()]: an effect body. *)
Definition effect_fn : Type := view → list uitem * outcome (option cleanup_fn).
(** [EqualFunc[T]]. *)
Definition EqualFunc : Type := val → val → bool.

(** ** Cells *)

Inductive cellref :=
| RSignal (s : nat)
| RComputed (c : nat).

#[global] Instance cellref_eq_dec : EqDecision cellref.
Proof. solve_decision. Defined.

(** The [onChange func()] handed to the dependency tracker: the method
    values [c.markDirty] and [e.run]. *)
Inductive onChange :=
| MarkDirty (c : nat)
| Run (e : nat).

(** What a subscriber map holds: a user callback, or the wrapper
    [func(_ T) { onChange() }] built by the tracker. *)
Inductive callback :=
| CbUser (f : subscriber_fn)
| CbOnChange (k : onChange).

(** [context.Context], as far as [Subscribe] uses it: whether [Done()] can
    ever fire, and which cancellation fires it. *)
Inductive context :=
| Background
| Cancellable (n : nat).

#[global] Instance context_eq_dec : EqDecision context.
Proof. solve_decision. Defined.

(** The fields [subscribers] and [nextID], which [signal] and [computed]
    both declare, together with the subscriptions whose [done] channel is
    still open, that is, whose watcher goroutine is still blocked in its
    [select]; the context it waits on is kept with it. *)
Record registry := {
  subscribers : gmap N callback;
  nextID : N;
  watchers : gmap N context
}.

Definition uint64_modulus : N := 2 ^ 64.

Definition empty_registry : registry :=
  {| subscribers := ∅; nextID := 0; watchers := ∅ |}.

(** [Options[T]]. [OnPanic] is a handler name: calling it is an event. *)
Record Options := {
  Equal : option EqualFunc;
  OnPanic : option nat
}.

Record signal := {
  s_elem : gotype;
  s_value : val;
  s_equal : option EqualFunc;
  s_reg : registry;
  s_onPanic : option nat
}.

(** [type Unsubscribe func()]: the closures the package hands out. *)
Inductive Unsubscribe :=
| UnsubNoop                          (* func() {} *)
| UnsubCell (r : cellref) (id : N)   (* the closure returned by Subscribe *)
| UnsubForeign (k : nat).            (* returned by a type of another package *)

Record computed := {
  c_elem : gotype;
  c_compute : compute_fn;
  c_cached : val;
  c_dirty : bool;
  c_unsubscribes : list Unsubscribe;
  c_reg : registry;
  c_onPanic : option nat
}.

Record effect := {
  e_fn : effect_fn;
  e_cleanup : option cleanup_fn;
  e_unsubscribes : list Unsubscribe;
  e_stopped : bool;
  e_onPanic : option nat
}.

(** [EffectOptions]. *)
Record EffectOptions := { EffectOnPanic : option nat }.

(** ** Observable events *)

Inductive event :=
| EvNotify (r : cellref) (id : N) (v : val)  (* notifySubscribers calls fn(value) *)
| EvUser (tag : string) (v : val)            (* a line logged by a user closure *)
| EvOnPanic (h : nat) (p : val)              (* onPanic(r, debug.Stack()) *)
| EvLog (msg : string) (p : val)             (* log.Printf(msg, r, debug.Stack()) *)
| EvCompute (c : nat)                        (* c.compute() is called *)
| EvBody (e : nat)                           (* e.fn() is called *)
| EvCleanup (e : nat)                        (* the stored cleanup is called *)
| EvUnsubscribe (u : Unsubscribe)            (* an Unsubscribe closure is called *)
| EvForeignSubscribe (k : nat).              (* SubscribeForever of another package *)

Record World := {
  signals : gmap nat signal;
  computeds : gmap nat computed;
  effects : gmap nat effect;
  trace : list event
}.

Definition empty_world : World :=
  {| signals := ∅; computeds := ∅; effects := ∅; trace := [] |}.

(** *** Field updates *)

Definition set_signals (f : gmap nat signal → gmap nat signal) (w : World) : World :=
  {| signals := f (signals w); computeds := computeds w;
     effects := effects w; trace := trace w |}.

Definition set_computeds (f : gmap nat computed → gmap nat computed) (w : World) : World :=
  {| signals := signals w; computeds := f (computeds w);
     effects := effects w; trace := trace w |}.

Definition set_effects (f : gmap nat effect → gmap nat effect) (w : World) : World :=
  {| signals := signals w; computeds := computeds w;
     effects := f (effects w); trace := trace w |}.

(** Appends to the trace, oldest event first. *)
Definition emit (evs : list event) (w : World) : World :=
  {| signals := signals w; computeds := computeds w;
     effects := effects w; trace := trace w ++ evs |}.

Definition s_with_value (v : val) (sg : signal) : signal :=
  {| s_elem := s_elem sg; s_value := v; s_equal := s_equal sg;
     s_reg := s_reg sg; s_onPanic := s_onPanic sg |}.

Definition s_with_reg (rg : registry) (sg : signal) : signal :=
  {| s_elem := s_elem sg; s_value := s_value sg; s_equal := s_equal sg;
     s_reg := rg; s_onPanic := s_onPanic sg |}.

Definition c_with_cached (v : val) (cp : computed) : computed :=
  {| c_elem := c_elem cp; c_compute := c_compute cp; c_cached := v;
     c_dirty := c_dirty cp; c_unsubscribes := c_unsubscribes cp;
     c_reg := c_reg cp; c_onPanic := c_onPanic cp |}.

Definition c_with_dirty (b : bool) (cp : computed) : computed :=
  {| c_elem := c_elem cp; c_compute := c_compute cp; c_cached := c_cached cp;
     c_dirty := b; c_unsubscribes := c_unsubscribes cp;
     c_reg := c_reg cp; c_onPanic := c_onPanic cp |}.

Definition c_with_unsubscribes (us : list Unsubscribe) (cp : computed) : computed :=
  {| c_elem := c_elem cp; c_compute := c_compute cp; c_cached := c_cached cp;
     c_dirty := c_dirty cp; c_unsubscribes := us;
     c_reg := c_reg cp; c_onPanic := c_onPanic cp |}.

Definition c_with_reg (rg : registry) (cp : computed) : computed :=
  {| c_elem := c_elem cp; c_compute := c_compute cp; c_cached := c_cached cp;
     c_dirty := c_dirty cp; c_unsubscribes := c_unsubscribes cp;
     c_reg := rg; c_onPanic := c_onPanic cp |}.

Definition e_with_cleanup (k : option cleanup_fn) (ef : effect) : effect :=
  {| e_fn := e_fn ef; e_cleanup := k; e_unsubscribes := e_unsubscribes ef;
     e_stopped := e_stopped ef; e_onPanic := e_onPanic ef |}.

Definition e_with_unsubscribes (us : list Unsubscribe) (ef : effect) : effect :=
  {| e_fn := e_fn ef; e_cleanup := e_cleanup ef; e_unsubscribes := us;
     e_stopped := e_stopped ef; e_onPanic := e_onPanic ef |}.

Definition e_with_stopped (b : bool) (ef : effect) : effect :=
  {| e_fn := e_fn ef; e_cleanup := e_cleanup ef;
     e_unsubscribes := e_unsubscribes ef;
     e_stopped := b; e_onPanic := e_onPanic ef |}.

(** The values a closure can read with [Get] on Reactive Cells. *)
Definition view_of (w : World) : view := s_value <$> signals w.

(** ** Fault boundary

    Every call site of a user function has the same deferred handler:
    the configured [onPanic] if there is one, a log line otherwise. *)
Definition report (onPanic : option nat) (msg : string) (p : val) : event :=
  match onPanic with
  | Some h => EvOnPanic h p
  | None => EvLog msg p
  end.

Definition user_events (items : list uitem) : list event :=
  map (λ it, EvUser it.1 it.2) items.

Definition recovered {A} (onPanic : option nat) (msg : string) (o : outcome A)
  : list event :=
  match o with
  | Returned _ => []
  | Panicked p => [report onPanic msg p]
  end.

(** ** Subscriber registry (signal.go and computed.go, Subscribe) *)

(** [id := nextID; nextID++; subscribers[id] = fn], then the watcher
    goroutine starts and blocks on [ctx.Done()] and [done]. *)
Definition registry_Subscribe (ctx : context) (fn : callback) (rg : registry)
  : N * registry :=
  let id := nextID rg in
  (id, {| subscribers := <[id := fn]> (subscribers rg);
          nextID := (nextID rg + 1) mod uint64_modulus;
          watchers := <[id := ctx]> (watchers rg) |}).

(** [close(done)]: closing a channel that is closed already panics. *)
Definition close_done (id : N) (open : gmap N context) : outcome (gmap N context) :=
  match open !! id with
  | Some _ => Returned (delete id open)
  | None => Panicked (VString "close of closed channel")
  end.

(** The closure [Subscribe] returns, statement by statement. *)
Definition unsubscribe_closure (id : N) (rg : registry) : outcome registry :=
  (* delete(s.subscribers, id) *)
  let subs := delete id (subscribers rg) in
  (* select { case <-done: default: close(done) } *)
  match watchers rg !! id with
  | None =>
      Returned {| subscribers := subs; nextID := nextID rg; watchers := watchers rg |}
  | Some _ =>
      match close_done id (watchers rg) with
      | Returned open =>
          Returned {| subscribers := subs; nextID := nextID rg; watchers := open |}
      | Panicked p => Panicked p
      end
  end.

(** The registry that closure leaves; it always returns
    ([unsubscribe_closure_returns]). *)
Definition registry_unsubscribe (id : N) (rg : registry) : registry :=
  {| subscribers := delete id (subscribers rg);
     nextID := nextID rg;
     watchers := match watchers rg !! id with
                 | Some _ => delete id (watchers rg)   (* default: close(done) *)
                 | None => watchers rg                 (* case <-done *)
                 end |}.

(** The watcher goroutine of subscription [id], when its context is done,
    in the schedules in which it runs from its [select] to its return
    with no step of the closure in between, and takes [case <-done] when
    [done] is closed: if [done] is open and the context cancellable it
    deletes the subscriber and closes [done]; if [done] was closed before,
    it leaves through the other case; [context.Background()] is never
    done.  The other schedules, in which [close(done)] can run twice, are
    those of [teardown_step] below. *)
Definition registry_ctxDone (id : N) (rg : registry) : registry :=
  match watchers rg !! id with
  | Some (Cancellable _) =>
      {| subscribers := delete id (subscribers rg);
         nextID := nextID rg;
         watchers := delete id (watchers rg) |}
  | _ => rg
  end.

Definition registry_of (r : cellref) (w : World) : option registry :=
  match r with
  | RSignal s => s_reg <$> signals w !! s
  | RComputed c => c_reg <$> computeds w !! c
  end.

Definition update_registry (r : cellref) (f : registry → registry) (w : World) : World :=
  match r with
  | RSignal s => set_signals (alter (λ sg, s_with_reg (f (s_reg sg)) sg) s) w
  | RComputed c => set_computeds (alter (λ cp, c_with_reg (f (c_reg cp)) cp) c) w
  end.

(** [Unsubscribe] closures, called. *)
Definition call_unsubscribe (u : Unsubscribe) (w : World) : World :=
  match u with
  | UnsubNoop => emit [EvUnsubscribe u] w
  | UnsubCell r id => emit [EvUnsubscribe u] (update_registry r (registry_unsubscribe id) w)
  | UnsubForeign _ => emit [EvUnsubscribe u] w
  end.

(** ** Reactive Cell (signal.go) *)

Definition NewWithOptions (T : gotype) (initial : val) (opts : Options) (w : World)
  : nat * World :=
  let s := fresh (dom (signals w)) in
  (s, set_signals (insert s {| s_elem := T; s_value := initial;
                               s_equal := Equal opts;
                               s_reg := empty_registry;
                               s_onPanic := OnPanic opts |}) w).

Definition New (T : gotype) (initial : val) (w : World) : nat * World :=
  NewWithOptions T initial {| Equal := None; OnPanic := None |} w.

Definition signal_Get (s : nat) (w : World) : option val :=
  s_value <$> signals w !! s.

Definition signal_Subscribe (s : nat) (ctx : context) (fn : callback) (w : World)
  : option (Unsubscribe * World) :=
  match signals w !! s with
  | None => None
  | Some sg =>
      let '(id, rg) := registry_Subscribe ctx fn (s_reg sg) in
      Some (UnsubCell (RSignal s) id,
            set_signals (insert s (s_with_reg rg sg)) w)
  end.

Definition signal_SubscribeForever (s : nat) (fn : callback) (w : World)
  : option (Unsubscribe * World) :=
  signal_Subscribe s Background fn w.

(** ** Effect cycle (effect.go, run) *)

Definition effect_run (e : nat) (w : World) : World :=
  match effects w !! e with
  | None => w
  | Some ef =>
      if e_stopped ef then w
      else
        (* Step 1: run old cleanup (if exists) *)
        let evs1 :=
          match e_cleanup ef with
          | Some oldCleanup =>
              let '(items, o) := oldCleanup (view_of w) in
              EvCleanup e :: user_events items
                ++ recovered (e_onPanic ef) "signals: panic in effect cleanup" o
          | None => []
          end in
        (* Step 2: execute effect function and capture new cleanup *)
        let '(items, o) := e_fn ef (view_of w) in
        let newCleanup := match o with Returned k => k | Panicked _ => None end in
        let evs2 := EvBody e :: user_events items
                      ++ recovered (e_onPanic ef) "signals: panic in effect function" o in
        (* Step 3: store new cleanup *)
        set_effects (insert e (e_with_cleanup newCleanup ef)) (emit (evs1 ++ evs2) w)
  end.

(** ** Derived Cell (computed.go) *)

(** [Get] on the struct: the value returned, the struct afterwards and
    what happened.  The fast path and the double check under the lock are
    one test here. *)
Definition computed_Get_cell (c : nat) (vw : view) (cp : computed)
  : val * computed * list event :=
  if negb (c_dirty cp) then (c_cached cp, cp, [])
  else
    let '(cp1, evs) :=
      match c_compute cp vw with
      | Returned v => (c_with_cached v cp, [EvCompute c])
      | Panicked p =>
          (* Don't update cached value on panic - keep old value *)
          (cp, [EvCompute c;
                report (c_onPanic cp) "signals: panic in computed function" p])
      end in
    let cp2 := c_with_dirty false cp1 in
    (c_cached cp2, cp2, evs).

Definition computed_Get (c : nat) (w : World) : option (val * World) :=
  match computeds w !! c with
  | None => None
  | Some cp =>
      let '(v, cp', evs) := computed_Get_cell c (view_of w) cp in
      Some (v, emit evs (set_computeds (insert c cp') w))
  end.

Definition computed_Subscribe (c : nat) (ctx : context) (fn : callback) (w : World)
  : option (Unsubscribe * World) :=
  match computeds w !! c with
  | None => None
  | Some cp =>
      let '(id, rg) := registry_Subscribe ctx fn (c_reg cp) in
      Some (UnsubCell (RComputed c) id,
            set_computeds (insert c (c_with_reg rg cp)) w)
  end.

Definition computed_SubscribeForever (c : nat) (fn : callback) (w : World)
  : option (Unsubscribe * World) :=
  computed_Subscribe c Background fn w.

(** [Cleanup]: every stored unsubscribe is called, then the list is dropped. *)
Definition computed_Cleanup (c : nat) (w : World) : World :=
  match computeds w !! c with
  | None => w
  | Some cp =>
      let w1 := foldl (λ w u, call_unsubscribe u w) w (c_unsubscribes cp) in
      set_computeds (alter (c_with_unsubscribes []) c) w1
  end.

(** ** Effect (effect.go): Stop *)

Definition effect_Stop (e : nat) (w : World) : World :=
  match effects w !! e with
  | None => w
  | Some ef =>
      if e_stopped ef then w      (* stopped.Swap(true) returned true *)
      else
        (* Run final cleanup *)
        let evs :=
          match e_cleanup ef with
          | Some cleanup =>
              let '(items, o) := cleanup (view_of w) in
              EvCleanup e :: user_events items
                ++ recovered (e_onPanic ef) "signals: panic in final effect cleanup" o
          | None => []
          end in
        let w1 := emit evs
                    (set_effects (insert e (e_with_cleanup None (e_with_stopped true ef))) w) in
        (* Unsubscribe from all dependencies *)
        let w2 := foldl (λ w u, call_unsubscribe u w) w1 (e_unsubscribes ef) in
        set_effects (alter (e_with_unsubscribes []) e) w2
  end.

(** ** Dependency Tracker (internal.go) *)

(** The shape of a method's parameter and result, as [reflect] sees it. *)
Inductive paramtype :=
| PFunc (args results : list gotype)
| PValue (T : gotype).

Inductive resulttype :=
| RUnsubscribe
| RValue (T : gotype).

Record method_sig := { m_in : list paramtype; m_out : list resulttype }.

#[global] Instance paramtype_eq_dec : EqDecision paramtype.
Proof. solve_decision. Defined.
#[global] Instance resulttype_eq_dec : EqDecision resulttype.
Proof. solve_decision. Defined.
#[global] Instance method_sig_eq_dec : EqDecision method_sig.
Proof. solve_decision. Defined.

(** A value of a type that is not of this package: the signature of its
    method [SubscribeForever] if it has one, and whether it also has
    [Get() T] and [Subscribe(context.Context, func(T)) Unsubscribe]. *)
Record foreign := {
  f_name : nat;
  f_SubscribeForever : option method_sig;
  f_Get_Subscribe : bool
}.

(** A [dep any] argument. *)
Inductive dep :=
| DepNil                   (* the nil interface *)
| DepSignal (s : nat)      (* a Signal[T] *)
| DepReadonly (s : nat)    (* s.AsReadonly() *)
| DepComputed (c : nat)    (* a Computed(...) *)
| DepForeign (f : foreign).

(** [AsReadonly] wraps the cell; the wrapper delegates every method. *)
Definition signal_AsReadonly (s : nat) : dep := DepReadonly s.

(** [SubscribeForever(fn func(T)) Unsubscribe]. *)
Definition subscribeForever_sig (T : gotype) : method_sig :=
  {| m_in := [PFunc [T] []]; m_out := [RUnsubscribe] |}.

(** [MethodByName("SubscribeForever")] on the dynamic value. *)
Definition method_SubscribeForever (d : dep) (w : World) : option method_sig :=
  match d with
  | DepNil => None
  | DepSignal s | DepReadonly s => (λ sg, subscribeForever_sig (s_elem sg)) <$> signals w !! s
  | DepComputed c => (λ cp, subscribeForever_sig (c_elem cp)) <$> computeds w !! c
  | DepForeign f => f_SubscribeForever f
  end.

(** The [X] for which the dynamic type implements [ReadonlySignal[X]]. *)
Definition implements_ReadonlySignal (d : dep) (w : World) : option gotype :=
  match d with
  | DepNil => None
  | DepSignal s | DepReadonly s => s_elem <$> signals w !! s
  | DepComputed c => c_elem <$> computeds w !! c
  | DepForeign f =>
      match f_SubscribeForever f with
      | Some {| m_in := [PFunc [T] []]; m_out := [RUnsubscribe] |} =>
          if f_Get_Subscribe f then Some T else None
      | _ => None
      end
  end.

(** Calling the dependency's [SubscribeForever] with the wrapper of
    [onChange]. A method of another package subscribes in its own way. *)
Definition dep_SubscribeForever (d : dep) (k : onChange) (w : World)
  : option (Unsubscribe * World) :=
  match d with
  | DepNil => None
  | DepSignal s | DepReadonly s => signal_SubscribeForever s (CbOnChange k) w
  | DepComputed c => computed_SubscribeForever c (CbOnChange k) w
  | DepForeign f =>
      Some (UnsubForeign (f_name f), emit [EvForeignSubscribe (f_name f)] w)
  end.

Definition nil_dereference : val :=
  VString "invalid memory address or nil pointer dereference".

Definition called (r : option (Unsubscribe * World)) : outcome (Unsubscribe * World) :=
  match r with
  | Some uw => Returned uw
  | None => Panicked nil_dereference
  end.

(** [subscribeAnyType]: the reflective fallback. *)
Definition subscribeAnyType (d : dep) (onChange : onChange) (w : World)
  : outcome (Unsubscribe * World) :=
  match d with
  | DepNil => Returned (UnsubNoop, w)                      (* !val.IsValid() *)
  | _ =>
      match method_SubscribeForever d w with
      | None => Returned (UnsubNoop, w)                    (* !method.IsValid() *)
      | Some fnType =>
          if negb ((length (m_in fnType) =? 1)%nat && (length (m_out fnType) =? 1)%nat)
          then Returned (UnsubNoop, w)                     (* NumIn() != 1 || NumOut() != 1 *)
          else
            match m_in fnType with
            | [PFunc _ _] =>                               (* reflect.MakeFunc(callbackType, ...) *)
                match called (dep_SubscribeForever d onChange w) with
                | Returned (unsub, w') =>
                    match m_out fnType with
                    | [RUnsubscribe] => Returned (unsub, w')
                    | _ => Returned (UnsubNoop, w')
                    end
                | Panicked p => Panicked p
                end
            | _ => Panicked (VString "reflect: call of MakeFunc with non-Func type")
            end
      end
  end.

(** [trackDependencyHelper]. *)
Definition trackDependencyHelper (d : dep) (onChange : onChange) (w : World)
  : outcome (Unsubscribe * World) :=
  (* First, try direct interface assertion *)
  if decide (method_SubscribeForever d w = Some (subscribeForever_sig TAny))
  then called (dep_SubscribeForever d onChange w)
  else
    match implements_ReadonlySignal d w with
    | Some TInt | Some TString | Some TBool | Some TFloat64 | Some TInt64 =>
        called (dep_SubscribeForever d onChange w)
    | _ => subscribeAnyType d onChange w
    end.

(** A loop [for _, dep := range deps { x.trackDependency(dep) }]; a panic
    ends it. *)
Fixpoint track_all (track : dep → World → outcome World) (deps : list dep) (w : World)
  : outcome World :=
  match deps with
  | [] => Returned w
  | d :: deps' =>
      match track d w with
      | Returned w' => track_all track deps' w'
      | Panicked p => Panicked p
      end
  end.

Definition computed_trackDependency (c : nat) (d : dep) (w : World) : outcome World :=
  match trackDependencyHelper d (MarkDirty c) w with
  | Returned (unsub, w') =>
      Returned (set_computeds
                  (alter (λ cp, c_with_unsubscribes (c_unsubscribes cp ++ [unsub]) cp) c) w')
  | Panicked p => Panicked p
  end.

Definition effect_trackDependency (e : nat) (d : dep) (w : World) : outcome World :=
  match trackDependencyHelper d (Run e) w with
  | Returned (unsub, w') =>
      Returned (set_effects
                  (alter (λ ef, e_with_unsubscribes (e_unsubscribes ef ++ [unsub]) ef) e) w')
  | Panicked p => Panicked p
  end.

(** ** Constructors *)

Definition ComputedWithOptions (T : gotype) (compute : compute_fn) (opts : Options)
    (deps : list dep) (w : World) : outcome (nat * World) :=
  let c := fresh (dom (computeds w)) in
  let w0 := set_computeds
              (insert c {| c_elem := T; c_compute := compute;
                           c_cached := zero_value T;
                           c_dirty := true;       (* c.dirty.Store(true) *)
                           c_unsubscribes := [];
                           c_reg := empty_registry;
                           c_onPanic := OnPanic opts |}) w in
  match track_all (computed_trackDependency c) deps w0 with
  | Returned w1 => Returned (c, w1)
  | Panicked p => Panicked p
  end.

Definition Computed (T : gotype) (compute : compute_fn) (deps : list dep) (w : World)
  : outcome (nat * World) :=
  ComputedWithOptions T compute {| Equal := None; OnPanic := None |} deps w.

Definition EffectWithOptions (fn : effect_fn) (opts : EffectOptions)
    (deps : list dep) (w : World) : outcome (nat * World) :=
  let e := fresh (dom (effects w)) in
  let w0 := set_effects
              (insert e {| e_fn := fn; e_cleanup := None; e_unsubscribes := [];
                           e_stopped := false;
                           e_onPanic := EffectOnPanic opts |}) w in
  match track_all (effect_trackDependency e) deps w0 with
  | Returned w1 =>
      (* CRITICAL: Run effect IMMEDIATELY *)
      Returned (e, effect_run e w1)
  | Panicked p => Panicked p
  end.

Definition EffectWithCleanup (fn : effect_fn) (deps : list dep) (w : World)
  : outcome (nat * World) :=
  EffectWithOptions fn {| EffectOnPanic := None |} deps w.

(** [Effect]: the body is wrapped to return a nil cleanup. *)
Definition wrappedFn (fn : view → list uitem * outcome unit) : effect_fn := λ vw,
  let '(items, o) := fn vw in
  (items, match o with Returned _ => Returned None | Panicked p => Panicked p end).

Definition Effect (fn : view → list uitem * outcome unit) (deps : list dep) (w : World)
  : outcome (nat * World) :=
  EffectWithCleanup (wrappedFn fn) deps w.

(** ** Notification *)

Section Propagation.

(** The order in which [for _, fn := range subscribers] visits the map. *)
Variable rank : N → N.

(** How many Derived Cell to Derived Cell hops a notification is followed
    through, beyond the first; every other hop is always followed. *)
Variable chain_depth : nat.

Fixpoint insert_by_rank {A} (x : N * A) (l : list (N * A)) : list (N * A) :=
  match l with
  | [] => [x]
  | y :: l' =>
      if (rank x.1 <=? rank y.1) then x :: y :: l'
      else y :: insert_by_rank x l'
  end.

(** [callbacks := make(...); for _, fn := range subscribers { append }],
    each callback kept with its id. *)
Definition range_subscribers {A} (m : gmap N A) : list (N * A) :=
  foldr insert_by_rank [] (map_to_list m).

(** One iteration of the notification loop:
    [func() { defer recover...; fn(value) }()]. *)
Definition call_callback (nested : onChange → World → World) (r : cellref)
    (onPanic : option nat) (msg : string) (value : val)
    (w : World) (entry : N * callback) : World :=
  match entry.2 with
  | CbUser f =>
      let '(items, o) := f (view_of w) value in
      emit (EvNotify r entry.1 value :: user_events items ++ recovered onPanic msg o) w
  | CbOnChange k => nested k (emit [EvNotify r entry.1 value] w)
  end.

Definition notify_round (nested : onChange → World → World) (r : cellref)
    (onPanic : option nat) (msg : string)
    (callbacks : list (N * callback)) (value : val) (w : World) : World :=
  foldl (call_callback nested r onPanic msg value) w callbacks.

(** computed.go, [notifySubscribers]: snapshot, then notify. *)
Definition computed_notifySubscribers (nested : onChange → World → World)
    (c : nat) (value : val) (w : World) : World :=
  match computeds w !! c with
  | None => w
  | Some cp =>
      let callbacks := range_subscribers (subscribers (c_reg cp)) in
      notify_round nested (RComputed c) (c_onPanic cp)
        "signals: panic in computed subscriber" callbacks value w
  end.

(** computed.go, [markDirty]. *)
Definition computed_markDirty (nested : onChange → World → World)
    (c : nat) (w : World) : World :=
  (* Mark as dirty *)
  let w1 := set_computeds (alter (c_with_dirty true) c) w in
  (* Always recompute and notify *)
  match computed_Get c w1 with
  | None => w1
  | Some (newValue, w2) => computed_notifySubscribers nested c newValue w2
  end.

(** Calling an [onChange]: [e.run] or [c.markDirty]. *)
Fixpoint onChange_call (depth : nat) (k : onChange) (w : World) : World :=
  match k with
  | Run e => effect_run e w
  | MarkDirty c =>
      match depth with
      | O => w
      | S d => computed_markDirty (onChange_call d) c w
      end
  end.

(** signal.go, [notifySubscribers]. *)
Definition signal_notifySubscribers (s : nat) (callbacks : list (N * callback))
    (value : val) (w : World) : World :=
  match signals w !! s with
  | None => w
  | Some sg =>
      notify_round (onChange_call (S chain_depth)) (RSignal s) (s_onPanic sg)
        "signals: panic in subscriber" callbacks value w
  end.

(** [s.equal != nil && s.equal(old, new)]. *)
Definition unchanged (sg : signal) (newValue : val) : bool :=
  match s_equal sg with
  | Some equal => equal (s_value sg) newValue
  | None => false
  end.

(** signal.go, [Set]. *)
Definition signal_Set (s : nat) (newValue : val) (w : World) : World :=
  match signals w !! s with
  | None => w
  | Some sg =>
      if unchanged sg newValue then w   (* Value hasn't changed, don't notify *)
      else
        let w1 := set_signals (insert s (s_with_value newValue sg)) w in
        let callbacks := range_subscribers (subscribers (s_reg sg)) in
        signal_notifySubscribers s callbacks newValue w1
  end.

(** signal.go, [Update]. *)
Definition signal_Update (s : nat) (fn : val → val) (w : World) : World :=
  match signals w !! s with
  | None => w
  | Some sg =>
      let oldValue := s_value sg in
      let newValue := fn oldValue in
      if unchanged sg newValue then w
      else
        let w1 := set_signals (insert s (s_with_value newValue sg)) w in
        let callbacks := range_subscribers (subscribers (s_reg sg)) in
        signal_notifySubscribers s callbacks newValue w1
  end.

End Propagation.

(** ** Operations of a client, one at a time *)

Definition cell_Subscribe (r : cellref) (ctx : context) (fn : callback) (w : World)
  : option (Unsubscribe * World) :=
  match r with
  | RSignal s => signal_Subscribe s ctx fn w
  | RComputed c => computed_Subscribe c ctx fn w
  end.

(** A mutation of a Reactive Cell. *)
Inductive mutation :=
| MSet (s : nat) (v : val)
| MUpdate (s : nat) (fn : val → val).

(** What a client can do to cells it holds. *)
Inductive op :=
| OpMutate (m : mutation)
| OpGet (c : nat)
| OpSubscribe (r : cellref) (ctx : context) (fn : callback)
| OpUnsubscribe (u : Unsubscribe)
| OpCtxDone (r : cellref) (id : N).

Section Clients.

Variable rank : N → N.
Variable chain_depth : nat.

Definition mutate (m : mutation) (w : World) : World :=
  match m with
  | MSet s v => signal_Set rank chain_depth s v w
  | MUpdate s fn => signal_Update rank chain_depth s fn w
  end.

Definition mutate_all (ms : list mutation) (w : World) : World :=
  foldl (λ w m, mutate m w) w ms.

Definition apply_op (o : op) (w : World) : World :=
  match o with
  | OpMutate m => mutate m w
  | OpGet c => match computed_Get c w with Some (_, w') => w' | None => w end
  | OpSubscribe r ctx fn =>
      match cell_Subscribe r ctx fn w with Some (_, w') => w' | None => w end
  | OpUnsubscribe u => call_unsubscribe u w
  | OpCtxDone r id => update_registry r (registry_ctxDone id) w
  end.

Definition apply_ops (os : list op) (w : World) : World :=
  foldl (λ w o, apply_op o w) w os.

End Clients.

(** ** Reading a trace *)

#[global] Instance Unsubscribe_eq_dec : EqDecision Unsubscribe.
Proof. solve_decision. Defined.
#[global] Instance event_eq_dec : EqDecision event.
Proof. solve_decision. Defined.

(** The calls [fn(value)] that the notification loops of cell [r] made:
    which subscription, with which value, oldest first. *)
Definition notified (r : cellref) (evs : list event) : list (N * val) :=
  omap (λ ev, match ev with
              | EvNotify r' id v => if decide (r' = r) then Some (id, v) else None
              | _ => None
              end) evs.

(** The lines user closures logged. *)
Definition user_log (evs : list event) : list uitem :=
  omap (λ ev, match ev with EvUser tag v => Some (tag, v) | _ => None end) evs.

(** The events after a given earlier trace. *)
Definition since (w0 w : World) : list event := drop (length (trace w0)) (trace w).

(** ** Programs used as examples *)

(** The order of ids, and no Derived-to-Derived hop beyond the first. *)
Definition by_id : N → N := λ id, id.

(** computed_test.go, TestComputed_PanicRecovery: the compute function
    panics while [count] holds 5 and doubles it otherwise. *)
Definition double_unless_five (count : nat) : compute_fn := λ vw,
  match vw !! count with
  | Some (VInt 5) => Panicked (VString "compute panic")
  | Some (VInt n) => Returned (VInt (n * 2))
  | _ => Returned (VInt 0)
  end.

(** [count := New(0); comp := ComputedWithOptions(f, Options[int]{},
    count.AsReadonly()); comp.Get(); count.Set(5)]: the cells and the world
    after these calls. *)
Definition panic_recovery_world : nat * World :=
  let '(count, w0) := New TInt (VInt 0) empty_world in
  match ComputedWithOptions TInt (double_unless_five count)
          {| Equal := None; OnPanic := None |} [signal_AsReadonly count] w0 with
  | Returned (comp, w1) =>
      let w2 := match computed_Get comp w1 with Some (_, w) => w | None => w1 end in
      (comp, signal_Set by_id 0 count (VInt 5) w2)
  | Panicked _ => (O, w0)
  end.

(** [count := New(5); comp := Computed(f, count.AsReadonly())]: the first
    [comp.Get()] finds the cell dirty and its compute function panics. *)
Definition first_get_faults : nat * World :=
  let '(count, w0) := New TInt (VInt 5) empty_world in
  match Computed TInt (double_unless_five count) [signal_AsReadonly count] w0 with
  | Returned cw => cw
  | Panicked _ => (O, w0)
  end.

(** ** Steps of a notification

    Whatever a notification does to the world is a sequence of four kinds
    of steps; properties of whole rounds are proved step by step. *)

(** Events a user callback can leave behind. *)
Definition benign (ev : event) : Prop :=
  match ev with
  | EvUser _ _ | EvOnPanic _ _ | EvLog _ _ => True
  | _ => False
  end.

Definition is_computed (r : cellref) : Prop :=
  match r with RComputed _ => True | RSignal _ => False end.

Definition any_cell (r : cellref) : Prop := True.

Inductive prim (allowed : cellref → Prop) : World → World → Prop :=
| prim_emit r id v evs w :
    allowed r → Forall benign evs →
    prim allowed w (emit (EvNotify r id v :: evs) w)
| prim_run e w :
    prim allowed w (effect_run e w)
| prim_dirty c w :
    prim allowed w (set_computeds (alter (c_with_dirty true) c) w)
| prim_get c w v w' :
    computed_Get c w = Some (v, w') →
    prim allowed w w'.

(** [w'] has the trace of [w] followed by events that all satisfy [Q]. *)
Definition extends (Q : event → Prop) (w w' : World) : Prop :=
  ∃ evs, trace w' = trace w ++ evs ∧ Forall Q evs.

Definition no_signal_notify (ev : event) : Prop :=
  match ev with
  | EvNotify (RSignal _) _ _ => False
  | _ => True
  end.

(** What one iteration of a Reactive Cell's notification loop appends. *)
Definition entry_events (vw : view) (r : cellref) (onPanic : option nat)
    (msg : string) (value : val) (entry : N * callback) (evs : list event) : Prop :=
  ∃ rest, evs = EvNotify r entry.1 value :: rest
    ∧ Forall no_signal_notify rest
    ∧ ∀ f, entry.2 = CbUser f →
        rest = user_events (f vw value).1 ++ recovered onPanic msg (f vw value).2.

(** ** Statements shared by several properties *)

(** The outcome of a mutation that takes effect: [v] is stored, nothing
    else of the cell changes, and the notification loop called every
    subscriber of the cell exactly once, with [v]. *)
Definition stored_and_notified (s : nat) (sg : signal) (v : val) (w w' : World) : Prop :=
  signal_Get s w' = Some v
  ∧ signals w' !! s = Some (s_with_value v sg)
  ∧ notified (RSignal s) (since w w')
      ≡ₚ (λ kv, (kv.1, v)) <$> map_to_list (subscribers (s_reg sg)).

(** A subscriber that logs the value it is called with. *)
Definition log_value : subscriber_fn := λ _ v, ([("log"%string, v)], Returned ()).

(** A subscriber that panics with the value it is called with. *)
Definition always_panics : subscriber_fn := λ _ v, ([], Panicked v).

(** [A := New(0); A.SubscribeForever(log)]. *)
Definition logged_cell : World :=
  let '(a, w0) := New TInt (VInt 0) empty_world in
  match signal_SubscribeForever a (CbUser log_value) w0 with
  | Some (_, w1) => w1
  | None => w0
  end.

(** signal_test.go, TestSignal_PanicRecovery: a panicking subscriber and a
    good one on the same cell. *)
Definition panicking_and_good : World :=
  let '(a, w0) := New TInt (VInt 0) empty_world in
  match signal_SubscribeForever a (CbUser always_panics) w0 with
  | Some (_, w1) =>
      match signal_SubscribeForever a (CbUser log_value) w1 with
      | Some (_, w2) => w2
      | None => w1
      end
  | None => w0
  end.

(** The cell a mutation writes and the value it computes from the cell. *)
Definition mutation_target (m : mutation) : nat :=
  match m with MSet s _ | MUpdate s _ => s end.

Definition mutation_value (sg : signal) (m : mutation) : val :=
  match m with
  | MSet _ v => v
  | MUpdate _ fn => fn (s_value sg)
  end.

(** The subscriber map of a cell; empty for an address that holds none. *)
Definition subs_of (r : cellref) (w : World) : gmap N callback :=
  default ∅ (subscribers <$> registry_of r w).

(** [nextID] is a [uint64], and none of the next [k] ids it yields is [id]. *)
Definition fresh_for (k id : N) (rg : registry) : Prop :=
  nextID rg < uint64_modulus
  ∧ ∀ j, j < k → (nextID rg + j) mod uint64_modulus ≠ id.

(** Subscription [id] has been removed, its [done] channel is closed, and
    the id is not about to be issued again. *)
Definition retired (k id : N) (rg : registry) : Prop :=
  subscribers rg !! id = None ∧ watchers rg !! id = None ∧ fresh_for k id rg.

(** What one client operation can do to the registry of a cell. *)
Definition registry_step (rg rg' : registry) : Prop :=
  rg' = rg
  ∨ (∃ ctx fn, rg' = (registry_Subscribe ctx fn rg).2)
  ∨ (∃ id, rg' = registry_unsubscribe id rg)
  ∨ (∃ id, rg' = registry_ctxDone id rg).

(** No call of subscription [id] of the Reactive Cell [s]. *)
Definition not_called (s : nat) (id : N) (ev : event) : Prop :=
  ∀ v, ev ≠ EvNotify (RSignal s) id v.

(** [A := New(0); unsub := A.Subscribe(ctx, log)], then a client that
    mutates, subscribes and unsubscribes. *)
Definition busy_client : list op :=
  [OpMutate (MSet 0%nat (VInt 1));
   OpSubscribe (RSignal 0%nat) Background (CbUser log_value);
   OpMutate (MUpdate 0%nat (λ v, match v with VInt n => VInt (n + 1) | _ => v end));
   OpUnsubscribe (UnsubCell (RSignal 0%nat) 1);
   OpCtxDone (RSignal 0%nat) 0].

(** [A := New(0); unsub := A.Subscribe(ctx, log)]. *)
Definition subscribed_with_context : World :=
  let '(a, w0) := New TInt (VInt 0) empty_world in
  match signal_Subscribe a (Cancellable 0) (CbUser log_value) w0 with
  | Some (_, w1) => w1
  | None => w0
  end.




(** The Unsubscribe closures that were called, oldest first. *)
Definition cancelled (evs : list event) : list Unsubscribe :=
  omap (λ ev, match ev with EvUnsubscribe u => Some u | _ => None end) evs.

(** How often the stored cleanup of effect [e] was called. *)
Definition cleanups (e : nat) (evs : list event) : nat :=
  length (filter (λ ev, ev = EvCleanup e) evs).

(** How often the body of effect [e] was called. *)
Definition bodies (e : nat) (evs : list event) : nat :=
  length (filter (λ ev, ev = EvBody e) evs).

(** Effect [e] has been stopped. *)
Definition stopped (e : nat) (w : World) : Prop :=
  ∃ ef, effects w !! e = Some ef ∧ e_stopped ef = true.

(** Neither the body nor a cleanup of effect [e] is called. *)
Definition idle (e : nat) (ev : event) : Prop :=
  ev ≠ EvBody e ∧ ev ≠ EvCleanup e.

(** part_000 (effect tests), TestEffect_Cleanup: the body logs the value of
    [a] and returns a cleanup that logs the value the body saw. *)
Definition effect_with_cleanup (a : nat) : effect_fn := λ vw,
  match vw !! a with
  | Some v =>
      ([("effect"%string, v)],
       Returned (Some (λ _, ([("cleanup"%string, v)], Returned ()))))
  | None => ([], Returned None)
  end.

(** [A := New(0); eff := EffectWithCleanup(body, A.AsReadonly())]. *)
Definition cleanup_scenario : outcome (nat * World) :=
  let '(a, w0) := New TInt (VInt 0) empty_world in
  EffectWithCleanup (effect_with_cleanup a) [signal_AsReadonly a] w0.

(** The world of [cleanup_scenario]. *)
Definition cleanup_scenario_world : World :=
  match cleanup_scenario with
  | Returned (_, w) => w
  | Panicked _ => empty_world
  end.

(** What one execution cycle appends for the cleanup it finds stored. *)
Definition prior_cleanup_events (e : nat) (ef : effect) (vw : view) : list event :=
  match e_cleanup ef with
  | Some oldCleanup =>
      EvCleanup e :: user_events (oldCleanup vw).1
        ++ recovered (e_onPanic ef) "signals: panic in effect cleanup" (oldCleanup vw).2
  | None => []
  end.

(** A dependency on which the reflective fallback panics: a value of
    another package whose [SubscribeForever] takes one parameter that is
    not a function and returns one result. *)
Definition reflect_panics (d : dep) : Prop :=
  ∃ f T R, d = DepForeign f
    ∧ f_SubscribeForever f = Some {| m_in := [PValue T]; m_out := [R] |}.

(** The only event tracking a dependency can leave: the call of a
    [SubscribeForever] of another package. *)
Definition subscribing (ev : event) : Prop :=
  ∃ k, ev = EvForeignSubscribe k.

(** part_000 (effect tests), TestEffect_ImmediateExecution:
    [count := New(0); eff := Effect(func() { executed.Store(true) },
    count.AsReadonly())]. *)
Definition immediate_execution : outcome (nat * World) :=
  let '(count, w0) := New TInt (VInt 0) empty_world in
  Effect (λ _, ([("executed"%string, VBool true)], Returned ()))
    [signal_AsReadonly count] w0.

(** ** Derived Cell and the cells it reads *)

(** [f] reads no other cell than those of [ds]. *)
Definition reads_only (ds : list nat) (f : view → val) : Prop :=
  ∀ vw vw' : view, (∀ s, s ∈ ds → vw !! s = vw' !! s) → f vw = f vw'.

(** The Derived Cell [c] exists and its compute function is [f], which
    never panics. *)
Definition computes (c : nat) (f : view → val) (w : World) : Prop :=
  ∃ cp, computeds w !! c = Some cp ∧ c_compute cp = (λ vw, Returned (f vw)).

(** Moreover, unless [c] is dirty, its cache is [f] of the current values. *)
Definition up_to_date (c : nat) (f : view → val) (w : World) : Prop :=
  ∃ cp, computeds w !! c = Some cp
    ∧ c_compute cp = (λ vw, Returned (f vw))
    ∧ (c_dirty cp = false → c_cached cp = f (view_of w)).

(** The compute function of the scenario [B = Computed(() => A.Get() * 2, A)]. *)
Definition twice (a : nat) : view → val := λ vw,
  match vw !! a with
  | Some (VInt n) => VInt (n * 2)
  | _ => VInt 0
  end.

(** What holds when an Effect constructor called in [w] with body [fn]
    and dependencies [deps] has produced [r]. *)
Definition constructed_once (w : World) (fn : effect_fn) (onPanic : option nat)
    (deps : list dep) (r : outcome (nat * World)) : Prop :=
  match r with
  | Returned (e, w') =>
      effects w !! e = None
      ∧ bodies e (since w w') = 1%nat
      ∧ cleanups e (since w w') = 0%nat
      ∧ view_of w' = view_of w
      ∧ (∃ evs, Forall subscribing evs
           ∧ since w w'
             = evs ++ EvBody e :: user_events (fn (view_of w)).1
                 ++ recovered onPanic "signals: panic in effect function"
                      (fn (view_of w)).2)
      ∧ ∃ ef, effects w' !! e = Some ef
          ∧ e_stopped ef = false
          ∧ e_cleanup ef
            = match (fn (view_of w)).2 with Returned k => k | Panicked _ => None end
  | Panicked _ => Exists reflect_panics deps
  end.

(** ** Lifetime of a subscription *)

(** An operation other than the two that end subscription [id] of cell
    [r]: the call of its Unsubscribe closure and the wake-up of its watcher. *)
Definition spares (r : cellref) (id : N) (o : op) : Prop :=
  o ≠ OpUnsubscribe (UnsubCell r id) ∧ o ≠ OpCtxDone r id.

(** Subscription [id] is registered with callback [fn], its watcher waits
    on [ctx], and none of the next [k] ids issued is [id]. *)
Definition live (fn : callback) (ctx : context) (k id : N) (rg : registry) : Prop :=
  subscribers rg !! id = Some fn ∧ watchers rg !! id = Some ctx ∧ fresh_for k id rg.

(** A registry step that is not the end of subscription [id]. *)
Definition sparing_step (id : N) (rg rg' : registry) : Prop :=
  rg' = rg
  ∨ (∃ ctx fn, rg' = (registry_Subscribe ctx fn rg).2)
  ∨ (∃ id', id' ≠ id ∧ rg' = registry_unsubscribe id' rg)
  ∨ (∃ id', id' ≠ id ∧ rg' = registry_ctxDone id' rg).

(** A client that mutates, subscribes, and ends subscriptions other than
    the first one of cell 0. *)
Definition other_clients : list op :=
  [OpMutate (MSet 0%nat (VInt 1));
   OpSubscribe (RSignal 0%nat) (Cancellable 3) (CbUser always_panics);
   OpCtxDone (RSignal 0%nat) 1;
   OpUnsubscribe (UnsubCell (RSignal 0%nat) 1);
   OpUnsubscribe (UnsubCell (RSignal 0%nat) 9);
   OpGet 0%nat].

(** The cell of this package behind a dependency argument, if it is one. *)
Definition dep_cell (w : World) (d : dep) : option cellref :=
  match d with
  | DepSignal s | DepReadonly s =>
      match signals w !! s with Some _ => Some (RSignal s) | None => None end
  | DepComputed c =>
      match computeds w !! c with Some _ => Some (RComputed c) | None => None end
  | DepNil | DepForeign _ => None
  end.

(** [A := New("x")] of element type [string], [B := New(p)] of a struct
    type, [C := New(nil)] of type [any]: one cell for each path of the
    tracker. *)
Definition three_paths : World :=
  let '(_, w1) := New TString (VString "x") empty_world in
  let '(_, w2) := New (TNamed 0) (VOpaque 0 1) w1 in
  let '(_, w3) := New TAny VNil w2 in
  w3.

(** ** Reading a trace, continued *)

(** How often the compute function of Derived Cell [c] was called. *)
Definition recomputes (c : nat) (evs : list event) : nat :=
  length (filter (λ ev, ev = EvCompute c) evs).

(** [n] calls of [c.Get()] in a row. *)
Definition gets (n : nat) (c : nat) (w : World) : World :=
  Nat.iter n (λ w, match computed_Get c w with Some (_, w') => w' | None => w end) w.

(** A callback that does not reach another Derived Cell: a user callback
    or the wrapper of an Effect's [run]. *)
Definition leaf (fn : callback) : Prop :=
  match fn with
  | CbOnChange (MarkDirty _) => False
  | _ => True
  end.

(** Events of user callbacks and of execution cycles of Effects. *)
Definition cycle_event (ev : event) : Prop :=
  match ev with
  | EvUser _ _ | EvOnPanic _ _ | EvLog _ _ | EvBody _ | EvCleanup _ => True
  | _ => False
  end.

(** What one iteration of a notification loop appends when the callback
    is a [leaf]. *)
Definition leaf_entry_events (r : cellref) (value : val)
    (entry : N * callback) (evs : list event) : Prop :=
  ∃ rest, evs = EvNotify r entry.1 value :: rest ∧ Forall cycle_event rest.

(** The program of [first_get_faults] with a subscriber on the Derived
    Cell: [comp.SubscribeForever(log)]. *)
Definition faulting_with_subscriber : World :=
  match computed_SubscribeForever first_get_faults.1 (CbUser log_value)
          first_get_faults.2 with
  | Some (_, w) => w
  | None => first_get_faults.2
  end.

(** Every id in the subscriber map was issued before [nextID], and
    [nextID] can be incremented [k] more times without wrapping. *)
Definition below_next (k : N) (rg : registry) : Prop :=
  nextID rg + k < uint64_modulus
  ∧ ∀ id, is_Some (subscribers rg !! id) → id < nextID rg.

(** [A := New(0)], an Effect with cleanup over [A], and a subscriber on
    [A] that logs. *)
Definition effect_and_subscriber : World :=
  match signal_SubscribeForever 0%nat (CbUser log_value) cleanup_scenario_world with
  | Some (_, w) => w
  | None => cleanup_scenario_world
  end.

(** [A := New(5); B := Computed(() => A.Get() * 2, A); B.Get()]: the
    cells, and the Derived Cell with its cache filled. *)
Definition doubled : nat * World :=
  let '(a, w0) := New TInt (VInt 5) empty_world in
  match Computed TInt (λ vw, Returned (twice a vw)) [signal_AsReadonly a] w0 with
  | Returned (b, w1) => (b, gets 1 b w1)
  | Panicked _ => (O, w0)
  end.

(** The body [fn] of an Effect never hands back a cleanup. *)
Definition returns_no_cleanup (fn : effect_fn) : Prop :=
  ∀ vw, match (fn vw).2 with
        | Returned k => k = None
        | Panicked _ => True
        end.

(** The Effect [e] stores no cleanup and its body will not yield one. *)
Definition cleanup_free (e : nat) (w : World) : Prop :=
  ∃ ef, effects w !! e = Some ef ∧ e_cleanup ef = None ∧ returns_no_cleanup (e_fn ef).

Definition not_cleanup (e : nat) (ev : event) : Prop := ev ≠ EvCleanup e.

(** The callback is the wrapper of [e.run]. *)
Definition runs (e : nat) (fn : callback) : bool :=
  match fn with
  | CbOnChange (Run e') => bool_decide (e' = e)
  | _ => false
  end.

(** [A := New(0); Effect(body, A, A)]: the same cell listed twice. *)
Definition listed_twice : outcome (nat * World) :=
  let '(a, w0) := New TInt (VInt 0) empty_world in
  Effect (λ _, ([("executed"%string, VBool true)], Returned ()))
    [DepSignal a; DepSignal a] w0.

Definition listed_twice_world : World :=
  match listed_twice with
  | Returned (_, w) => w
  | Panicked _ => empty_world
  end.

(** The callback is the wrapper of [c.markDirty]. *)
Definition marks (c : nat) (fn : callback) : bool :=
  match fn with
  | CbOnChange (MarkDirty c') => bool_decide (c' = c)
  | _ => false
  end.

(** No subscriber map holds the wrapper of [c.markDirty]. *)
Definition unwatched (c : nat) (w : World) : Prop :=
  ∀ r id fn, subs_of r w !! id = Some fn → marks c fn = false.

(** Every subscription that holds the wrapper of [c.markDirty] has its
    Unsubscribe closure in [c.unsubscribes]. *)
Definition tracked (c : nat) (w : World) : Prop :=
  ∃ cp, computeds w !! c = Some cp
    ∧ ∀ r id fn, subs_of r w !! id = Some fn → marks c fn = true →
        UnsubCell r id ∈ c_unsubscribes cp.

Definition not_compute (c : nat) (ev : event) : Prop := ev ≠ EvCompute c.

(** From [w] to [w'] the struct of the Derived Cell [c] is not written and
    its compute function is not called. *)
Definition leaves_alone (c : nat) (w w' : World) : Prop :=
  computeds w' !! c = computeds w !! c ∧ extends (not_compute c) w w'.

(** [A := New(5); B := Computed(() => A.Get() * 2); B.Get()]: the compute
    function reads [A], which is not among the dependencies. *)
Definition undeclared : nat * World :=
  let '(a, w0) := New TInt (VInt 5) empty_world in
  match Computed TInt (λ vw, Returned (twice a vw)) [] w0 with
  | Returned (b, w1) => (b, gets 1 b w1)
  | Panicked _ => (O, w0)
  end.

(** Every subscription that holds the wrapper of [k] has its Unsubscribe
    closure in [us]. *)
Definition recorded (k : onChange) (us : list Unsubscribe) (w : World) : Prop :=
  ∀ r id, subs_of r w !! id = Some (CbOnChange k) → UnsubCell r id ∈ us.

(** computed_test.go, TestComputed_CustomPanicHandler with the compute
    function of TestComputed_PanicRecovery: [count := New(5); comp :=
    ComputedWithOptions(f, Options[int]{OnPanic: h}, count.AsReadonly())],
    where [h] is handler 3. *)
Definition custom_handler_faults : nat * World :=
  let '(count, w0) := New TInt (VInt 5) empty_world in
  match ComputedWithOptions TInt (double_unless_five count)
          {| Equal := None; OnPanic := Some 3%nat |} [signal_AsReadonly count] w0 with
  | Returned cw => cw
  | Panicked _ => (O, w0)
  end.

(** While the Reactive Cells hold the values on which the compute function
    of [c] returns [r], a clean [c] has [r] in its cache. *)
Definition settled (c : nat) (f : compute_fn) (r : val) (w : World) : Prop :=
  f (view_of w) = Returned r
  ∧ ∃ cp, computeds w !! c = Some cp ∧ c_compute cp = f
      ∧ (c_dirty cp = false → c_cached cp = r).

(** A subscriber that panics with "custom panic". *)
Definition panics_custom : subscriber_fn := λ _ _, ([], Panicked (VString "custom panic")).

(** signal_test.go, TestSignal_CustomPanicHandler: [sig := NewWithOptions(0,
    Options[int]{OnPanic: h}); sig.SubscribeForever(func(int) {
    panic("custom panic") })], where [h] is handler 3. *)
Definition custom_handler_cell : World :=
  let '(a, w0) := NewWithOptions TInt (VInt 0)
                    {| Equal := None; OnPanic := Some 3%nat |} empty_world in
  match signal_SubscribeForever a (CbUser panics_custom) w0 with
  | Some (_, w1) => w1
  | None => w0
  end.




(** A notification of cell [r] gets to [c.markDirty] through the wrappers
    of at most [n] Derived Cells, that of [c] included. *)
Fixpoint feeds (n : nat) (w : World) (r : cellref) (c : nat) : Prop :=
  match n with
  | O => False
  | S n' => ∃ id d, subs_of r w !! id = Some (CbOnChange (MarkDirty d))
              ∧ (d = c ∨ feeds n' w (RComputed d) c)
  end.

(** Subscribing to the dependency [d] is enough to hear of every change of
    the Reactive Cell [s]: [d] is [s] itself, or its read-only facade, or a
    Derived Cell that [s] feeds. *)
Definition dep_feeds (n : nat) (w : World) (d : dep) (s : nat) : Prop :=
  ((d = DepSignal s ∨ d = DepReadonly s) ∧ is_Some (signals w !! s))
  ∨ ∃ c', d = DepComputed c' ∧ feeds n w (RSignal s) c'.

(** A client operation that writes a Reactive Cell or reads a Derived Cell. *)
Definition reads_or_writes (o : op) : Prop :=
  match o with
  | OpMutate _ | OpGet _ => True
  | _ => False
  end.

(** [w'] is [w] with the wrapper of [c.markDirty] subscribed to cell [r0]. *)
Definition adds_edge (r0 : cellref) (c : nat) (w w' : World) : Prop :=
  (∃ id0, subs_of r0 w' = <[id0 := CbOnChange (MarkDirty c)]> (subs_of r0 w))
  ∧ ∀ r, r ≠ r0 → subs_of r w' = subs_of r w.

(** The compute function [func() int { return count.Get() * 4 }]. *)
Definition four_times (a : nat) : view → val := λ vw,
  match vw !! a with
  | Some (VInt n) => VInt (n * 4)
  | _ => VInt 0
  end.

(** A variant of computed_test.go, TestComputed_ChainedComputed, in which
    the second compute function reads [count] itself:
    [count := New(5); doubled := Computed(() => count.Get() * 2,
    count.AsReadonly())]; the cell [quadrupled := Computed(() =>
    count.Get() * 4, doubled)] is built on this world. *)
Definition chained_base : World :=
  let '(count, w0) := New TInt (VInt 5) empty_world in
  match Computed TInt (λ vw, Returned (twice count vw)) [signal_AsReadonly count] w0 with
  | Returned (_, w1) => w1
  | Panicked _ => w0
  end.

(** ** Teardown of a subscription, goroutine by goroutine
    (signal.go and computed.go, Subscribe)

    The watcher goroutine and the calls of the closure that [Subscribe]
    returns run concurrently and share the subscriber map, the channel
    [done] and the context.  Each takes the steps below one at a time, in
    any interleaving; the statements under the lock are one step. *)

(** Where the watcher goroutine is. *)
Inductive watcher_pc :=
| WSelect      (* at its [select], which it may not have reached yet *)
| WDelete      (* took [case <-ctx.Done()]; before [delete(subscribers, id)] *)
| WClose       (* after the delete; before [close(done)] *)
| WReturned.   (* the goroutine has returned *)

(** Where a call of the closure is. *)
Inductive caller_pc :=
| CDelete      (* before [delete(subscribers, id)] *)
| CSelect      (* after the delete; at [select { case <-done: default: ... }] *)
| CClose       (* took [default]; before [close(done)] *)
| CReturned.   (* the call has returned *)

Record teardown := {
  t_subscribers : gmap N callback;   (* the subscriber map of the cell *)
  t_ctx : context;
  t_ctx_done : bool;                 (* [ctx.Done()] is closed *)
  t_done : bool;                     (* [done] is closed *)
  t_watcher : watcher_pc;
  t_callers : list caller_pc         (* the calls of the closure made so far *)
}.

(** What can happen next.  A [select] with several cases ready takes any
    one of them: at its [select] the watcher is told which. *)
Inductive action :=
| ACancel                        (* the context is cancelled *)
| ACall                          (* some goroutine calls the closure *)
| AWatcher (ctx_case : bool)     (* the watcher takes its next step *)
| ACaller (i : nat).             (* call number [i] takes its next step *)

(** The state in which [Subscribe] returns: the subscriber is in the map,
    [done] is open and the watcher has been started. *)
Definition teardown_start (rg : registry) (ctx : context) : teardown :=
  {| t_subscribers := subscribers rg; t_ctx := ctx; t_ctx_done := false;
     t_done := false; t_watcher := WSelect; t_callers := [] |}.

Definition double_close : val := VString "close of closed channel".

Definition t_set_watcher (pc : watcher_pc) (t : teardown) : teardown :=
  {| t_subscribers := t_subscribers t; t_ctx := t_ctx t; t_ctx_done := t_ctx_done t;
     t_done := t_done t; t_watcher := pc; t_callers := t_callers t |}.

Definition t_set_callers (cs : list caller_pc) (t : teardown) : teardown :=
  {| t_subscribers := t_subscribers t; t_ctx := t_ctx t; t_ctx_done := t_ctx_done t;
     t_done := t_done t; t_watcher := t_watcher t; t_callers := cs |}.

(** [delete(subscribers, id)], under the lock. *)
Definition t_delete (id : N) (t : teardown) : teardown :=
  {| t_subscribers := delete id (t_subscribers t); t_ctx := t_ctx t;
     t_ctx_done := t_ctx_done t; t_done := t_done t; t_watcher := t_watcher t;
     t_callers := t_callers t |}.

(** [close(done)]: closing a closed channel panics. *)
Definition t_close (t : teardown) : outcome teardown :=
  if t_done t then Panicked double_close
  else Returned {| t_subscribers := t_subscribers t; t_ctx := t_ctx t;
                   t_ctx_done := t_ctx_done t; t_done := true;
                   t_watcher := t_watcher t; t_callers := t_callers t |}.

(** One step of the watcher goroutine; [None] when it cannot take the step
    (the case it is told to take is not ready, or it has returned). *)
Definition watcher_step (id : N) (ctx_case : bool) (t : teardown)
  : option (outcome teardown) :=
  match t_watcher t with
  | WSelect =>
      if ctx_case
      then if t_ctx_done t then Some (Returned (t_set_watcher WDelete t)) else None
      else if t_done t then Some (Returned (t_set_watcher WReturned t)) else None
  | WDelete => Some (Returned (t_set_watcher WClose (t_delete id t)))
  | WClose =>
      match t_close t with
      | Returned t' => Some (Returned (t_set_watcher WReturned t'))
      | Panicked p => Some (Panicked p)
      end
  | WReturned => None
  end.

(** One step of call number [i] of the closure. *)
Definition caller_step (id : N) (i : nat) (t : teardown) : option (outcome teardown) :=
  match t_callers t !! i with
  | None => None
  | Some CDelete =>
      Some (Returned (t_set_callers (<[i := CSelect]> (t_callers t)) (t_delete id t)))
  | Some CSelect =>
      (* case <-done is taken when [done] is closed, default otherwise *)
      Some (Returned (t_set_callers
                        (<[i := if t_done t then CReturned else CClose]> (t_callers t)) t))
  | Some CClose =>
      match t_close t with
      | Returned t' => Some (Returned (t_set_callers (<[i := CReturned]> (t_callers t)) t'))
      | Panicked p => Some (Panicked p)
      end
  | Some CReturned => None
  end.

Definition teardown_step (id : N) (a : action) (t : teardown) : option (outcome teardown) :=
  match a with
  | ACancel =>
      match t_ctx t with
      | Background => None                    (* never cancelled *)
      | Cancellable _ =>
          Some (Returned {| t_subscribers := t_subscribers t; t_ctx := t_ctx t;
                            t_ctx_done := true; t_done := t_done t;
                            t_watcher := t_watcher t; t_callers := t_callers t |})
      end
  | ACall => Some (Returned (t_set_callers (t_callers t ++ [CDelete]) t))
  | AWatcher ctx_case => watcher_step id ctx_case t
  | ACaller i => caller_step id i t
  end.

(** A schedule: [None] when one of its actions cannot be taken; a panic of
    any goroutine ends the program. *)
Fixpoint teardown_run (id : N) (schedule : list action) (t : teardown)
  : option (outcome teardown) :=
  match schedule with
  | [] => Some (Returned t)
  | a :: schedule' =>
      match teardown_step id a t with
      | None => None
      | Some (Panicked p) => Some (Panicked p)
      | Some (Returned t') => teardown_run id schedule' t'
      end
  end.

(** The watcher woken by the context, from its [select] to its return. *)
Definition watcher_on_cancel : list action :=
  [AWatcher true; AWatcher true; AWatcher true].

(** A call of the closure, number [i] of the calls, from start to return
    when it finds [done] open. *)
Definition closure_call (i : nat) : list action :=
  [ACall; ACaller i; ACaller i; ACaller i].

(** What every state of a teardown satisfies: the map has lost at most
    [id], and has lost it once [done] is closed or a goroutine is past its
    delete. *)
Definition teardown_inv (id : N) (subs : gmap N callback) (t : teardown) : Prop :=
  (t_subscribers t = subs ∨ t_subscribers t = delete id subs)
  ∧ (t_done t = true → t_subscribers t = delete id subs)
  ∧ (t_watcher t = WClose → t_subscribers t = delete id subs)
  ∧ Forall (λ pc, pc ≠ CDelete → t_subscribers t = delete id subs) (t_callers t).

(** * Properties *)

(** ** Derived Cell: a faulting recompute *)

Lemma emit_nil w : emit [] w = w.
Proof. destruct w; unfold emit; simpl. by rewrite app_nil_r. Qed.

Lemma set_computeds_insert_id c cp w :
  computeds w !! c = Some cp → set_computeds (insert c cp) w = w.
Proof. intros H. destruct w; unfold set_computeds; simpl in *. by rewrite insert_id. Qed.

Lemma computed_Get_clean c w cp :
  computeds w !! c = Some cp → c_dirty cp = false →
  computed_Get c w = Some (c_cached cp, w).
Proof.
  intros Hc Hd. unfold computed_Get, computed_Get_cell. rewrite Hc, Hd. simpl.
  by rewrite set_computeds_insert_id, emit_nil.
Qed.

(** [Get] on a dirty Derived Cell: the compute function is called once,
    its result is cached if it returns, and the flag is cleared either way. *)
Lemma computed_Get_dirty c w cp :
  computeds w !! c = Some cp → c_dirty cp = true →
  ∃ v w',
    computed_Get c w = Some (v, w')
    ∧ computeds w' !! c = Some (c_with_dirty false (c_with_cached v cp))
    ∧ computed_Get c w' = Some (v, w')
    ∧ match c_compute cp (view_of w) with
      | Returned r =>
          v = r ∧ trace w' = trace w ++ [EvCompute c]
      | Panicked p =>
          v = c_cached cp
          ∧ trace w' = trace w ++
              [EvCompute c;
               report (c_onPanic cp) "signals: panic in computed function" p]
      end.
Proof.
  intros Hc Hd. unfold computed_Get at 1. unfold computed_Get_cell.
  rewrite Hc, Hd. simpl.
  destruct (c_compute cp (view_of w)) as [r|p] eqn:Hr; simpl.
  - eexists _, _. split; [reflexivity|].
    split; [simpl; by rewrite lookup_insert_eq|].
    split; [|done].
    by rewrite (computed_Get_clean c _ (c_with_dirty false (c_with_cached r cp)));
      [| simpl; rewrite lookup_insert_eq |].
  - eexists _, _. split; [reflexivity|].
    assert (c_with_dirty false cp = c_with_dirty false (c_with_cached (c_cached cp) cp))
      as Heq by (by destruct cp).
    split; [simpl; by rewrite lookup_insert_eq, Heq|].
    split; [|done].
    by rewrite (computed_Get_clean c _ (c_with_dirty false cp));
      [| simpl; rewrite lookup_insert_eq |].
Qed.

Lemma gets_fixed n c w v : computed_Get c w = Some (v, w) → gets n c w = w.
Proof.
  intros HG. induction n as [|n IH]; [done|]. unfold gets in *. simpl. by rewrite IH, HG.
Qed.

(** ** Steps of a notification *)

Lemma benign_user_events items : Forall benign (user_events items).
Proof. unfold user_events. apply Forall_forall. intros ev Hin.
  apply list_elem_of_fmap in Hin as (it & -> & _). exact I. Qed.

Lemma benign_recovered {A} onPanic msg (o : outcome A) :
  Forall benign (recovered onPanic msg o).
Proof. destruct o; simpl; [constructor|]. constructor; [|constructor].
  by destruct onPanic. Qed.

Lemma benign_callback_events {A} items onPanic msg (o : outcome A) :
  Forall benign (user_events items ++ recovered onPanic msg o).
Proof. apply Forall_app. split; [apply benign_user_events | apply benign_recovered]. Qed.

Lemma prim_mono (P Q : cellref → Prop) w w' :
  (∀ r, P r → Q r) → prim P w w' → prim Q w w'.
Proof. intros HPQ []; [apply prim_emit; auto | apply prim_run | apply prim_dirty
  | eapply prim_get; eauto]. Qed.

Lemma rtc_prim_mono (P Q : cellref → Prop) w w' :
  (∀ r, P r → Q r) → rtc (prim P) w w' → rtc (prim Q) w w'.
Proof. intros HPQ. apply rtc_subrel. intros ??. by apply prim_mono. Qed.

Lemma rtc_lift {A} (step R : relation A) x y :
  Reflexive R → Transitive R →
  (∀ a b, step a b → R a b) → rtc step x y → R x y.
Proof. intros ?? Hstep. induction 1; [reflexivity | etrans; eauto]. Qed.

Section Rounds.
Variable rank : N → N.

Lemma notify_round_prims allowed nested r onPanic msg callbacks v w :
  (∀ k w, rtc (prim allowed) w (nested k w)) → allowed r →
  rtc (prim allowed) w (notify_round nested r onPanic msg callbacks v w).
Proof.
  intros Hnested Hr. unfold notify_round. revert w.
  induction callbacks as [|[id fn] callbacks IH]; intros w; simpl; [done|].
  etrans; [|apply IH]. unfold call_callback; simpl. destruct fn as [f|k].
  - destruct (f (view_of w) v) as [items o]. apply rtc_once.
    apply prim_emit; [done | apply benign_callback_events].
  - etrans; [|apply Hnested]. apply rtc_once. by apply prim_emit.
Qed.

Lemma onChange_call_prims depth k w :
  rtc (prim is_computed) w (onChange_call rank depth k w).
Proof.
  revert k w. induction depth as [|d IH]; intros [c|e] w; simpl;
    try done; try (apply rtc_once, prim_run).
  unfold computed_markDirty.
  eapply rtc_l; [apply (prim_dirty _ c)|].
  destruct (computed_Get c _) as [[nv w2]|] eqn:HG; [|done].
  eapply rtc_l; [eapply prim_get; exact HG|].
  unfold computed_notifySubscribers. destruct (computeds w2 !! c); [|done].
  by apply notify_round_prims.
Qed.

Lemma signal_notifySubscribers_prims depth s callbacks v w :
  rtc (prim any_cell) w (signal_notifySubscribers rank depth s callbacks v w).
Proof.
  unfold signal_notifySubscribers. destruct (signals w !! s); [|done].
  apply notify_round_prims; [|done]. intros k w'.
  eapply rtc_prim_mono; [|apply onChange_call_prims]. done.
Qed.

End Rounds.

(** ** What the steps leave alone *)

Lemma computed_Get_inv c w v w' :
  computed_Get c w = Some (v, w') →
  ∃ cp cp' evs, computeds w !! c = Some cp
    ∧ computed_Get_cell c (view_of w) cp = (v, cp', evs)
    ∧ w' = emit evs (set_computeds (insert c cp') w).
Proof.
  unfold computed_Get. destruct (computeds w !! c) as [cp|]; [|done].
  destruct (computed_Get_cell c (view_of w) cp) as [[v0 cp'] evs] eqn:HG.
  intros [= <- <-]. by exists cp, cp', evs.
Qed.

Lemma computed_Get_cell_inv c vw cp v cp' evs :
  computed_Get_cell c vw cp = (v, cp', evs) →
  v = c_cached cp'
  ∧ c_elem cp' = c_elem cp ∧ c_compute cp' = c_compute cp
  ∧ c_unsubscribes cp' = c_unsubscribes cp ∧ c_reg cp' = c_reg cp
  ∧ c_onPanic cp' = c_onPanic cp
  ∧ Forall (λ ev, ev = EvCompute c ∨ benign ev) evs
  ∧ (cp' = cp ∧ c_dirty cp = false ∧ evs = []
     ∨ c_dirty cp = true ∧ c_dirty cp' = false
       ∧ match c_compute cp vw with
         | Returned r => c_cached cp' = r
         | Panicked _ => c_cached cp' = c_cached cp
         end).
Proof.
  unfold computed_Get_cell. destruct (c_dirty cp) eqn:Hd; simpl.
  - destruct (c_compute cp vw) as [r|p] eqn:Hr; intros [= <- <- <-]; simpl;
      repeat split; try done.
    + repeat constructor.
    + by right.
    + constructor; [by left|]. constructor; [|constructor]. right. by destruct (c_onPanic cp).
    + by right.
  - intros [= <- <- <-]. repeat split; try done. by left.
Qed.

Lemma effect_run_inv e w :
  effect_run e w = w
  ∨ ∃ ef k evs, effects w !! e = Some ef ∧ e_stopped ef = false
      ∧ effect_run e w = set_effects (insert e (e_with_cleanup k ef)) (emit evs w)
      ∧ Forall (λ ev, ev = EvCleanup e ∨ ev = EvBody e ∨ benign ev) evs.
Proof.
  unfold effect_run. destruct (effects w !! e) as [ef|] eqn:He; [|by left].
  destruct (e_stopped ef) eqn:Hs; [by left|]. right.
  destruct (e_fn ef (view_of w)) as [items o].
  eexists ef, _, _. split; [done|]. split; [done|]. split; [reflexivity|].
  apply Forall_app. split.
  - destruct (e_cleanup ef) as [old|]; [|constructor].
    destruct (old (view_of w)) as [items' o']. constructor; [by left|].
    eapply Forall_impl; [apply benign_callback_events|]. intros; by right; right.
  - constructor; [by right; left|].
    eapply Forall_impl; [apply benign_callback_events|]. intros; by right; right.
Qed.

Lemma prim_signals allowed w w' : prim allowed w w' → signals w' = signals w.
Proof.
  intros [r id v evs w0 _ _|e w0|c w0|c w0 v w0' HG]; try done.
  - destruct (effect_run_inv e w0) as [->|(ef & k & evs & _ & _ & -> & _)]; done.
  - apply computed_Get_inv in HG as (cp & cp' & evs & _ & _ & ->). done.
Qed.

Lemma rtc_prim_signals allowed w w' : rtc (prim allowed) w w' → signals w' = signals w.
Proof.
  intros H. eapply (rtc_lift (prim allowed) (λ a b, signals b = signals a)); [..|exact H].
  - by intros ?.
  - intros ??? H1 H2. by rewrite H2.
  - apply prim_signals.
Qed.

Lemma rtc_prim_view allowed w w' : rtc (prim allowed) w w' → view_of w' = view_of w.
Proof. intros H. unfold view_of. by rewrite (rtc_prim_signals _ _ _ H). Qed.

Lemma registry_alter_dirty c r w :
  registry_of r (set_computeds (alter (c_with_dirty true) c) w) = registry_of r w.
Proof.
  destruct r as [s|c']; simpl; [done|].
  destruct (decide (c = c')) as [->|Hne].
  - rewrite lookup_alter_eq. by destruct (computeds w !! c').
  - by rewrite lookup_alter_ne.
Qed.

Lemma prim_registry allowed w w' r : prim allowed w w' → registry_of r w' = registry_of r w.
Proof.
  intros [r0 id v evs w0 _ _|e w0|c w0|c w0 v w0' HG]; try done.
  - destruct (effect_run_inv e w0) as [->|(ef & k & evs & _ & _ & -> & _)]; [done|].
    by destruct r.
  - apply registry_alter_dirty.
  - apply computed_Get_inv in HG as (cp & cp' & evs & Hc & HG & ->).
    apply computed_Get_cell_inv in HG as (_ & _ & _ & _ & Hreg & _).
    destruct r as [s|c']; simpl; [done|].
    destruct (decide (c = c')) as [->|Hne].
    + rewrite lookup_insert_eq, Hc. simpl. by rewrite Hreg.
    + by rewrite lookup_insert_ne.
Qed.

Lemma rtc_prim_registry allowed w w' r :
  rtc (prim allowed) w w' → registry_of r w' = registry_of r w.
Proof.
  intros H.
  eapply (rtc_lift (prim allowed) (λ a b, registry_of r b = registry_of r a)); [..|exact H].
  - by intros ?.
  - intros ??? H1 H2. by rewrite H2.
  - intros ??. apply prim_registry.
Qed.

(** *** Traces only grow *)

#[global] Instance extends_refl Q : Reflexive (extends Q).
Proof. intros w. exists []. split; [by rewrite app_nil_r | constructor]. Qed.

#[global] Instance extends_trans Q : Transitive (extends Q).
Proof.
  intros w1 w2 w3 (evs1 & H1 & Q1) (evs2 & H2 & Q2). exists (evs1 ++ evs2).
  split; [by rewrite H2, H1, app_assoc | by apply Forall_app].
Qed.

Lemma extends_emit (Q : event → Prop) evs w : Forall Q evs → extends Q w (emit evs w).
Proof. intros H. by exists evs. Qed.

Lemma prim_extends (Q : event → Prop) allowed w w' :
  (∀ r id v, allowed r → Q (EvNotify r id v)) →
  (∀ ev, benign ev → Q ev) →
  (∀ e, Q (EvBody e)) → (∀ e, Q (EvCleanup e)) → (∀ c, Q (EvCompute c)) →
  prim allowed w w' → extends Q w w'.
Proof.
  intros Hn Hb Hbody Hcl Hco [r id v evs w0 Ha Hevs|e w0|c w0|c w0 v w0' HG].
  - apply extends_emit. constructor; [by apply Hn|]. eapply Forall_impl; eauto.
  - destruct (effect_run_inv e w0) as [->|(ef & k & evs & _ & _ & -> & Hevs)]; [reflexivity|].
    exists evs. split; [done|]. eapply Forall_impl; [exact Hevs|].
    intros ev [->|[->|?]]; auto.
  - exists []. split; [simpl; by rewrite app_nil_r | constructor].
  - apply computed_Get_inv in HG as (cp & cp' & evs & Hc & HG & ->).
    apply computed_Get_cell_inv in HG as (_ & _ & _ & _ & _ & _ & Hevs & _).
    exists evs. split; [done|]. eapply Forall_impl; [exact Hevs|].
    intros ev [->|?]; auto.
Qed.

Lemma benign_no_signal_notify ev : benign ev → no_signal_notify ev.
Proof. by destruct ev. Qed.

Lemma rtc_prim_quiet w w' : rtc (prim is_computed) w w' → extends no_signal_notify w w'.
Proof.
  apply rtc_lift; try apply _. intros a b.
  apply prim_extends; try done. by intros [].
Qed.

Lemma notified_app r evs1 evs2 : notified r (evs1 ++ evs2) = notified r evs1 ++ notified r evs2.
Proof. unfold notified. apply omap_app. Qed.

Lemma notified_quiet s evs : Forall no_signal_notify evs → notified (RSignal s) evs = [].
Proof.
  induction 1 as [|ev evs Hev _ IH]; [done|].
  change (ev :: evs) with ([ev] ++ evs). rewrite notified_app, IH.
  by destruct ev as [[s'|c] id v| | | | | | | |].
Qed.

(** ** One notification round of a Reactive Cell *)

Lemma since_app w w' evs : trace w' = trace w ++ evs → since w w' = evs.
Proof. intros H. unfold since. by rewrite H, drop_app_length. Qed.

Lemma since_extends Q w w' : extends Q w w' → Forall Q (since w w').
Proof. intros (evs & H & HQ). by rewrite (since_app _ _ _ H). Qed.

Section SignalRound.
Variable rank : N → N.
Variable chain_depth : nat.

Lemma insert_by_rank_perm {A} (x : N * A) l : insert_by_rank rank x l ≡ₚ x :: l.
Proof.
  induction l as [|y l IH]; simpl; [done|].
  destruct (rank x.1 <=? rank y.1); [done|]. by rewrite IH, Permutation_swap.
Qed.

Lemma range_subscribers_perm {A} (m : gmap N A) : range_subscribers rank m ≡ₚ map_to_list m.
Proof.
  unfold range_subscribers. induction (map_to_list m) as [|x l IH]; simpl; [done|].
  by rewrite insert_by_rank_perm, IH.
Qed.

Lemma elem_of_range_subscribers {A} (m : gmap N A) id (a : A) :
  (id, a) ∈ range_subscribers rank m ↔ m !! id = Some a.
Proof. rewrite range_subscribers_perm. apply elem_of_map_to_list. Qed.

Lemma notify_round_entries s onPanic msg callbacks v w :
  let w' := notify_round (onChange_call rank (S chain_depth)) (RSignal s)
              onPanic msg callbacks v w in
  ∃ evss, trace w' = trace w ++ concat evss
    ∧ Forall2 (entry_events (view_of w) (RSignal s) onPanic msg v) callbacks evss.
Proof.
  unfold notify_round. revert w.
  induction callbacks as [|[id fn] callbacks IH]; intros w; cbn [foldl].
  { exists []. split; [simpl; by rewrite app_nil_r | constructor]. }
  set (wa := call_callback (onChange_call rank (S chain_depth)) (RSignal s)
               onPanic msg v w (id, fn)).
  assert (∃ rest, trace wa = trace w ++ EvNotify (RSignal s) id v :: rest
            ∧ view_of wa = view_of w
            ∧ Forall no_signal_notify rest
            ∧ ∀ f, fn = CbUser f →
                rest = user_events (f (view_of w) v).1
                         ++ recovered onPanic msg (f (view_of w) v).2)
    as (rest & Htr & Hvw & Hq & Hf).
  { subst wa. unfold call_callback. simpl fst. simpl snd. destruct fn as [f|k].
    - destruct (f (view_of w) v) as [items o] eqn:Hfv. eexists. split; [reflexivity|].
      split; [done|]. split.
      + eapply Forall_impl; [apply benign_callback_events|].
        apply benign_no_signal_notify.
      + intros f' [= <-]. by rewrite Hfv.
    - pose proof (onChange_call_prims rank (S chain_depth) k
                    (emit [EvNotify (RSignal s) id v] w)) as Hp.
      destruct (rtc_prim_quiet _ _ Hp) as (rest & Htr & Hq).
      exists rest. split; [by rewrite Htr; simpl; rewrite <- app_assoc|].
      split; [by rewrite (rtc_prim_view _ _ _ Hp)|]. split; [done|]. done. }
  destruct (IH wa) as (evss & Htr' & HF).
  exists ((EvNotify (RSignal s) id v :: rest) :: evss). split.
  - rewrite Htr', Htr. simpl. by rewrite <- app_assoc.
  - constructor; [by exists rest | by rewrite <- Hvw].
Qed.

Lemma entries_notified vw s onPanic msg v callbacks evss :
  Forall2 (entry_events vw (RSignal s) onPanic msg v) callbacks evss →
  notified (RSignal s) (concat evss) = (λ kv, (kv.1, v)) <$> callbacks.
Proof.
  induction 1 as [|entry evs callbacks evss (rest & -> & Hq & _) _ IH]; [done|].
  change (concat ((EvNotify (RSignal s) entry.1 v :: rest) :: evss))
    with ([EvNotify (RSignal s) entry.1 v] ++ rest ++ concat evss).
  rewrite !notified_app, IH, (notified_quiet _ _ Hq). simpl.
  unfold notified. simpl. by rewrite decide_True.
Qed.

(** The store of [Set] and [Update], followed by the round. *)
Lemma store_and_notify s sg v w :
  signals w !! s = Some sg →
  let w1 := set_signals (insert s (s_with_value v sg)) w in
  let callbacks := range_subscribers rank (subscribers (s_reg sg)) in
  let w' := signal_notifySubscribers rank chain_depth s callbacks v w1 in
  rtc (prim any_cell) w1 w'
  ∧ signals w' = <[s := s_with_value v sg]> (signals w)
  ∧ ∃ evss, trace w' = trace w ++ concat evss
      ∧ Forall2 (entry_events (<[s := v]> (view_of w)) (RSignal s) (s_onPanic sg)
                   "signals: panic in subscriber" v) callbacks evss.
Proof.
  intros Hs w1 callbacks w'.
  pose proof (signal_notifySubscribers_prims rank chain_depth s callbacks v w1) as Hp.
  fold w' in Hp.
  split; [done|]. split; [by rewrite (rtc_prim_signals _ _ _ Hp)|].
  subst w'. unfold signal_notifySubscribers.
  assert (signals w1 !! s = Some (s_with_value v sg)) as ->
    by (subst w1; simpl; by rewrite lookup_insert_eq).
  destruct (notify_round_entries s (s_onPanic (s_with_value v sg))
              "signals: panic in subscriber" callbacks v w1) as (evss & Htr & HF).
  exists evss. split; [exact Htr|].
  assert (view_of w1 = <[s := v]> (view_of w)) as <-; [|exact HF].
  subst w1. unfold view_of. simpl. by rewrite fmap_insert.
Qed.

Lemma store_and_notify_outcome s sg v w :
  signals w !! s = Some sg →
  let w1 := set_signals (insert s (s_with_value v sg)) w in
  let callbacks := range_subscribers rank (subscribers (s_reg sg)) in
  stored_and_notified s sg v w (signal_notifySubscribers rank chain_depth s callbacks v w1).
Proof.
  intros Hs w1 callbacks.
  destruct (store_and_notify s sg v w Hs) as (_ & Hsig & evss & Htr & HF).
  fold w1 callbacks in Hsig, Htr. unfold stored_and_notified, signal_Get.
  rewrite Hsig, lookup_insert_eq. split; [done|]. split; [done|].
  rewrite (since_app _ _ _ Htr), (entries_notified _ _ _ _ _ _ _ HF).
  subst callbacks. by rewrite range_subscribers_perm.
Qed.

(** A mutation either leaves the world as it is (no cell, or the equality
    function finds the new value equal) or stores and notifies. *)
Lemma mutate_inv m w :
  mutate rank chain_depth m w = w
  ∨ ∃ sg, signals w !! mutation_target m = Some sg
      ∧ unchanged sg (mutation_value sg m) = false
      ∧ mutate rank chain_depth m w
        = signal_notifySubscribers rank chain_depth (mutation_target m)
            (range_subscribers rank (subscribers (s_reg sg))) (mutation_value sg m)
            (set_signals (insert (mutation_target m)
                            (s_with_value (mutation_value sg m) sg)) w).
Proof.
  destruct m as [s v|s fn]; simpl.
  - unfold signal_Set. destruct (signals w !! s) as [sg|]; [|by left].
    destruct (unchanged sg v) eqn:Hu; [by left|]. right. by exists sg.
  - unfold signal_Update. destruct (signals w !! s) as [sg|]; [|by left]. simpl.
    destruct (unchanged sg (fn (s_value sg))) eqn:Hu; [by left|]. right. by exists sg.
Qed.

End SignalRound.

(** ** Derived Cell: a faulting recompute, and the retry *)

Lemma prim_settled allowed c f r w w' :
  prim allowed w w' → settled c f r w → settled c f r w'.
Proof.
  intros Hp [Hf (cp & Hc & Hcomp & Hcache)]. split.
  { unfold view_of. by rewrite (prim_signals _ _ _ Hp). }
  destruct Hp as [r0 id v evs w0 _ _|e w0|c' w0|c' w0 v w0' HG].
  - by exists cp.
  - destruct (effect_run_inv e w0) as [->|(ef & k & evs & _ & _ & -> & _)]; by exists cp.
  - destruct (decide (c' = c)) as [->|Hne].
    + exists (c_with_dirty true cp). simpl. by rewrite lookup_alter_eq, Hc.
    + exists cp. simpl. by rewrite lookup_alter_ne.
  - apply computed_Get_inv in HG as (cp0 & cp' & evs & Hc0 & HG & ->).
    apply computed_Get_cell_inv in HG as (_ & _ & Hcomp' & _ & _ & _ & _ & Hcase).
    destruct (decide (c' = c)) as [->|Hne].
    + rewrite Hc in Hc0. injection Hc0 as <-.
      exists cp'. simpl. rewrite lookup_insert_eq. split; [done|]. split; [congruence|].
      destruct Hcase as [(-> & Hd & _)|(_ & _ & Hr)]; [done|].
      rewrite Hcomp, Hf in Hr. by intros _.
    + exists cp. simpl. by rewrite lookup_insert_ne.
Qed.

Lemma rtc_prim_settled allowed c f r w w' :
  rtc (prim allowed) w w' → settled c f r w → settled c f r w'.
Proof.
  apply (rtc_lift (prim allowed) (λ a b, settled c f r a → settled c f r b)).
  - by intros a.
  - intros a b d Hab Hbd Ha. auto.
  - intros a b. apply prim_settled.
Qed.

Lemma settled_Get c f r w : settled c f r w → fst <$> computed_Get c w = Some r.
Proof.
  intros [Hf (cp & Hc & Hcomp & Hcache)]. unfold computed_Get, computed_Get_cell.
  rewrite Hc. destruct (c_dirty cp) eqn:Hd; simpl.
  - by rewrite Hcomp, Hf.
  - by rewrite Hcache.
Qed.

(** C1, as the code has it.  The recompute of a dirty Derived Cell clears
    the dirty flag whether the compute function returns or panics.  When it
    panics, the fault is handed to [onPanic] if the cell has one and is
    logged otherwise, the cached value is kept and [Get] returns it; no
    number of further [Get] calls calls the compute function again.  The
    computation is retried when a dependency next calls [markDirty]: the
    compute function is then called at once, and if it returns, its result
    is what the next [Get] returns. *)
Theorem computed_Get_recompute rank depth c w cp :
  computeds w !! c = Some cp → c_dirty cp = true →
  ∃ v w',
    computed_Get c w = Some (v, w')
    ∧ computeds w' !! c = Some (c_with_dirty false (c_with_cached v cp))
    ∧ match c_compute cp (view_of w) with
      | Returned r =>
          v = r ∧ trace w' = trace w ++ [EvCompute c]
      | Panicked p =>
          v = c_cached cp
          ∧ trace w' = trace w ++
              [EvCompute c;
               match c_onPanic cp with
               | Some h => EvOnPanic h p
               | None => EvLog "signals: panic in computed function" p
               end]
      end
    ∧ (∀ n, gets n c w' = w' ∧ computed_Get c w' = Some (v, w'))
    ∧ ∀ w2, computeds w2 !! c = Some (c_with_dirty false (c_with_cached v cp)) →
        let w3 := onChange_call rank (S depth) (MarkDirty c) w2 in
        (∃ evs, since w2 w3 = EvCompute c :: evs)
        ∧ ∀ r, c_compute cp (view_of w2) = Returned r →
            fst <$> computed_Get c w3 = Some r.
Proof.
  intros Hc Hd.
  destruct (computed_Get_dirty c w cp Hc Hd) as (v & w' & HG & Hc' & HG' & Hcase).
  exists v, w'. split; [done|]. split; [done|]. split.
  { destruct (c_compute cp (view_of w)) as [r|p]; [done|].
    destruct Hcase as [-> Htr]. split; [done|]. rewrite Htr. unfold report.
    by destruct (c_onPanic cp). }
  split. { intros n. split; [by apply (gets_fixed n c w' v) | done]. }
  intros w2 Hc2 w3. subst w3. simpl. unfold computed_markDirty.
  set (cp' := c_with_dirty false (c_with_cached v cp)) in *.
  set (wd := set_computeds (alter (c_with_dirty true) c) w2).
  assert (computeds wd !! c = Some (c_with_dirty true cp')) as Hcd.
  { subst wd. simpl. by rewrite lookup_alter_eq, Hc2. }
  destruct (computed_Get_dirty c wd _ Hcd eq_refl) as (v2 & wg & HG2 & Hcg & _ & Hcase2).
  rewrite HG2.
  assert (∃ evs, trace wg = trace w2 ++ EvCompute c :: evs) as [evs Htrg].
  { destruct (c_compute _ (view_of wd)); destruct Hcase2 as [_ ->]; by eexists. }
  assert (rtc (prim any_cell) wg (computed_notifySubscribers rank (onChange_call rank depth) c v2 wg))
    as Hprims.
  { unfold computed_notifySubscribers. destruct (computeds wg !! c); [|done].
    apply notify_round_prims; [|done]. intros k w0.
    eapply rtc_prim_mono; [|apply onChange_call_prims]. done. }
  split.
  - assert (extends (λ _, True) wg
              (computed_notifySubscribers rank (onChange_call rank depth) c v2 wg))
      as (evs' & Htr' & _).
    { eapply (rtc_lift (prim any_cell) (extends (λ _, True))); [apply _|apply _| |exact Hprims].
      intros a b. by apply prim_extends. }
    exists (evs ++ evs'). apply since_app. rewrite Htr', Htrg. by rewrite <- app_assoc.
  - intros r Hr. apply (settled_Get c (c_compute cp) r).
    eapply rtc_prim_settled; [exact Hprims|].
    assert (view_of wg = view_of w2) as Hvg.
    { apply computed_Get_inv in HG2 as (? & ? & ? & _ & _ & ->). done. }
    split; [by rewrite Hvg|].
    eexists. split; [exact Hcg|]. split; [done|]. intros _. simpl.
    change (view_of wd) with (view_of w2) in Hcase2.
    change (c_compute (c_with_dirty true cp')) with (c_compute cp) in Hcase2.
    rewrite Hr in Hcase2. by destruct Hcase2 as [-> _].
Qed.

(** C1 at the program of TestComputed_PanicRecovery with the handler of
    TestComputed_CustomPanicHandler: the first [Get] faults and calls the
    handler, the second does not compute, and when [count.Set(6)] has
    stored 6 and calls [markDirty], the compute function runs again and
    12 is the value. *)
Lemma computed_Get_recompute_witness :
  let '(comp, w) := custom_handler_faults in
  ∃ w', computed_Get comp w = Some (VInt 0, w')
        ∧ computed_Get comp w' = Some (VInt 0, w')
        ∧ trace w' = [EvCompute comp; EvOnPanic 3 (VString "compute panic")]
        ∧ fst <$> computed_Get comp (signal_Set by_id 0 0%nat (VInt 6) w') = Some (VInt 12).
Proof.
  assert (∃ cp, computeds custom_handler_faults.2 !! 0%nat = Some cp ∧ c_dirty cp = true
                ∧ c_cached cp = VInt 0
                ∧ c_compute cp = double_unless_five 0%nat
                ∧ c_onPanic cp = Some 3%nat) as (cp & Hc & Hd & Hv & Hf & Ho).
  { vm_compute. eexists. repeat split. }
  destruct (computed_Get_recompute by_id 0 0%nat custom_handler_faults.2 cp Hc Hd)
    as (v & w' & H1 & Hc' & H3 & H4 & H5).
  assert (c_compute cp (view_of custom_handler_faults.2) = Panicked (VString "compute panic"))
    as Hp by (rewrite Hf; by vm_compute).
  rewrite Hp, Ho, Hv in H3. destruct H3 as [-> H3].
  change custom_handler_faults with (0%nat, custom_handler_faults.2).
  exists w'. split; [done|]. split; [exact (proj2 (H4 1%nat))|]. split; [exact H3|].
  assert (∃ sg, signals w' !! 0%nat = Some sg ∧ s_equal sg = None
            ∧ map_to_list (subscribers (s_reg sg)) = [(0, CbOnChange (MarkDirty 0))]
            ∧ s_onPanic sg = None)
    as (sg & Hs & He & Hsubs & Hop).
  { apply computed_Get_inv in H1 as (? & ? & ? & _ & _ & ->). vm_compute.
    eexists. repeat split. }
  set (w2 := emit [EvNotify (RSignal 0%nat) 0 (VInt 6)]
               (set_signals (insert 0%nat (s_with_value (VInt 6) sg)) w')).
  assert (signal_Set by_id 0 0%nat (VInt 6) w'
          = onChange_call by_id 1 (MarkDirty 0) w2) as ->.
  { unfold signal_Set. rewrite Hs. unfold unchanged. rewrite He.
    unfold signal_notifySubscribers. cbn zeta.
    change (signals (set_signals ?f w')) with (f (signals w')).
    rewrite lookup_insert_eq. unfold range_subscribers. rewrite Hsubs. reflexivity. }
  apply (H5 w2); [exact Hc'|].
  rewrite Hf. unfold double_unless_five, view_of. subst w2. simpl.
  by rewrite lookup_fmap, lookup_insert_eq.
Defined.

(** C1, as the specification states it, fails: in the program of
    TestComputed_PanicRecovery the recompute that [count.Set(5)] triggers
    panics, the dirty flag is cleared all the same, and the Get that
    follows returns the stale value without calling the compute function
    (the trace does not grow), although the cell still holds 5. *)
Lemma computed_fault_clears_dirty :
  let '(comp, w) := panic_recovery_world in
  c_dirty <$> computeds w !! comp = Some false
  ∧ double_unless_five 0%nat (view_of w) = Panicked (VString "compute panic")
  ∧ trace w = [EvCompute comp;
               EvNotify (RSignal 0%nat) 0 (VInt 5);
               EvCompute comp;
               EvLog "signals: panic in computed function" (VString "compute panic")]
  ∧ ∃ w', computed_Get comp w = Some (VInt 0, w') ∧ trace w' = trace w.
Proof.
  vm_compute. split; [done|]. split; [done|]. split; [done|].
  eexists. split; reflexivity.
Qed.

(** ** Reactive Cell: Set and Update *)

Lemma signal_Set_outcome rank chain_depth s sg v w :
  signals w !! s = Some sg →
  let w' := signal_Set rank chain_depth s v w in
  if unchanged sg v then w' = w else stored_and_notified s sg v w w'.
Proof.
  intros Hs. unfold signal_Set. rewrite Hs. simpl.
  destruct (unchanged sg v); [done|]. by apply store_and_notify_outcome.
Qed.

Lemma signal_Update_outcome rank chain_depth s sg fn w :
  signals w !! s = Some sg →
  let w' := signal_Update rank chain_depth s fn w in
  if unchanged sg (fn (s_value sg)) then w' = w
  else stored_and_notified s sg (fn (s_value sg)) w w'.
Proof.
  intros Hs. unfold signal_Update. rewrite Hs. simpl.
  destruct (unchanged sg (fn (s_value sg))); [done|]. by apply store_and_notify_outcome.
Qed.

(** C3. [Set(v)] on a Reactive Cell, whatever order the subscriber map is
    ranged over: without an equality function, and with one that finds the
    current value and [v] different, [Get()] returns [v] afterwards and
    the calls the round made are, up to order, one call with [v] per
    subscriber; with an equality function that finds them equal nothing
    changes at all: no store and no call. *)
Theorem signal_Set_spec rank chain_depth s sg v w :
  signals w !! s = Some sg →
  let w' := signal_Set rank chain_depth s v w in
  match s_equal sg with
  | None => stored_and_notified s sg v w w'
  | Some equal =>
      if equal (s_value sg) v then w' = w
      else stored_and_notified s sg v w w'
  end.
Proof.
  intros Hs w'. pose proof (signal_Set_outcome rank chain_depth s sg v w Hs) as H.
  unfold unchanged in H. by destruct (s_equal sg).
Qed.

Lemma signal_Set_spec_witness :
  let w1 := signal_Set by_id 0 0%nat (VInt 5) logged_cell in
  let w2 := signal_Set by_id 0 0%nat (VInt 5) w1 in
  (∃ sg, signals logged_cell !! 0%nat = Some sg
     ∧ stored_and_notified 0%nat sg (VInt 5) logged_cell w1)
  ∧ signal_Get 0%nat w1 = Some (VInt 5)
  ∧ user_log (trace w1) = [("log"%string, VInt 5)]
  ∧ user_log (trace w2) = [("log"%string, VInt 5); ("log"%string, VInt 5)].
Proof.
  intros w1 w2. split.
  - eexists. split; [vm_compute; reflexivity|].
    exact (signal_Set_spec by_id 0 0%nat _ (VInt 5) logged_cell eq_refl).
  - by vm_compute.
Defined.

(** ** Reactive Cell: a subscriber that panics *)

Lemma entries_fault vw r onPanic msg v callbacks evss id f p :
  Forall2 (entry_events vw r onPanic msg v) callbacks evss →
  (id, CbUser f) ∈ callbacks → (f vw v).2 = Panicked p →
  ∃ before after,
    concat evss = before ++ EvNotify r id v
                    :: user_events (f vw v).1 ++ report onPanic msg p :: after.
Proof.
  intros HF Hin Hp. induction HF as [|entry evs callbacks evss He _ IH]; simpl.
  { by apply elem_of_nil in Hin. }
  apply elem_of_cons in Hin as [<-|Hin].
  - destruct He as (rest & -> & _ & Hrest). rewrite (Hrest f eq_refl), Hp. simpl.
    exists [], (concat evss). simpl. by rewrite <- app_assoc.
  - destruct (IH Hin) as (before & after & ->). exists (evs ++ before), after.
    by rewrite <- app_assoc.
Qed.

(** C7. When [Set(v)] notifies a subscriber that panics, the round hands
    the fault to the handler [onPanic] of the cell if one is configured,
    and writes it to the log only if none is, right after the call of
    that subscriber; the round still calls every subscriber of the cell
    exactly once; the cell holds [v] and the same subscribers afterwards;
    and a later [Set] stores and notifies as usual. *)
Theorem subscriber_fault_isolated rank chain_depth s sg v w id f p :
  signals w !! s = Some sg → unchanged sg v = false →
  subscribers (s_reg sg) !! id = Some (CbUser f) →
  (f (<[s := v]> (view_of w)) v).2 = Panicked p →
  let w' := signal_Set rank chain_depth s v w in
  (∃ before after,
     since w w'
     = before ++ EvNotify (RSignal s) id v
         :: user_events (f (<[s := v]> (view_of w)) v).1
         ++ match s_onPanic sg with
            | Some h => EvOnPanic h p
            | None => EvLog "signals: panic in subscriber" p
            end :: after)
  ∧ stored_and_notified s sg v w w'
  ∧ ∀ v2, unchanged (s_with_value v sg) v2 = false →
      stored_and_notified s (s_with_value v sg) v2 w'
        (signal_Set rank chain_depth s v2 w').
Proof.
  intros Hs Hu Hid Hp w'.
  pose proof (signal_Set_outcome rank chain_depth s sg v w Hs) as Hout.
  rewrite Hu in Hout. fold w' in Hout. split; [|split; [exact Hout|]].
  - subst w'. unfold signal_Set. rewrite Hs, Hu.
    destruct (store_and_notify rank chain_depth s sg v w Hs) as (_ & _ & evss & Htr & HF).
    rewrite (since_app _ _ _ Htr).
    destruct (entries_fault _ _ _ _ _ _ _ id f p HF) as (before & after & ->);
      [by apply elem_of_range_subscribers | exact Hp |].
    exists before, after. unfold report. by destruct (s_onPanic sg).
  - intros v2 Hu2. destruct Hout as (_ & Hs' & _).
    pose proof (signal_Set_outcome rank chain_depth s _ v2 w' Hs') as Hout2.
    by rewrite Hu2 in Hout2.
Qed.

(** C7 at the programs of TestSignal_CustomPanicHandler, where the handler
    is called and nothing is logged, and of TestSignal_PanicRecovery, where
    there is no handler, the fault is logged and the good subscriber is
    still called. *)
Lemma subscriber_fault_isolated_witness :
  let w1 := signal_Set by_id 0 0%nat (VInt 1) custom_handler_cell in
  let w2 := signal_Set by_id 0 0%nat (VInt 7) panicking_and_good in
  (∃ before after,
     since custom_handler_cell w1
     = before ++ EvNotify (RSignal 0%nat) 0 (VInt 1)
         :: EvOnPanic 3 (VString "custom panic") :: after)
  ∧ since custom_handler_cell w1
    = [EvNotify (RSignal 0%nat) 0 (VInt 1); EvOnPanic 3 (VString "custom panic")]
  ∧ signal_Get 0%nat w1 = Some (VInt 1)
  ∧ (∃ before after,
       since panicking_and_good w2
       = before ++ EvNotify (RSignal 0%nat) 0 (VInt 7)
           :: EvLog "signals: panic in subscriber" (VInt 7) :: after)
  ∧ notified (RSignal 0%nat) (since panicking_and_good w2) = [(0, VInt 7); (1, VInt 7)]
  ∧ user_log (since panicking_and_good w2) = [("log"%string, VInt 7)].
Proof.
  intros w1 w2.
  assert (∃ sg, signals custom_handler_cell !! 0%nat = Some sg
            ∧ unchanged sg (VInt 1) = false
            ∧ subscribers (s_reg sg) !! 0 = Some (CbUser panics_custom)
            ∧ s_onPanic sg = Some 3%nat) as (sg & Hs & Hu & Hid & Ho).
  { vm_compute. eexists. repeat split. }
  destruct (subscriber_fault_isolated by_id 0 0%nat sg (VInt 1) custom_handler_cell
              0 panics_custom (VString "custom panic") Hs Hu Hid eq_refl)
    as (Hrep & _ & _).
  rewrite Ho in Hrep. split; [exact Hrep|].
  assert (∃ sg, signals panicking_and_good !! 0%nat = Some sg
            ∧ unchanged sg (VInt 7) = false
            ∧ subscribers (s_reg sg) !! 0 = Some (CbUser always_panics)
            ∧ s_onPanic sg = None) as (sg' & Hs' & Hu' & Hid' & Ho').
  { vm_compute. eexists. repeat split. }
  destruct (subscriber_fault_isolated by_id 0 0%nat sg' (VInt 7) panicking_and_good
              0 always_panics (VInt 7) Hs' Hu' Hid' eq_refl) as (Hrep' & _ & _).
  rewrite Ho' in Hrep'.
  split; [by vm_compute|]. split; [by vm_compute|]. split; [exact Hrep'|].
  split; by vm_compute.
Defined.

(** ** Reactive Cell: who is notified *)

Lemma mutate_outcome rank chain_depth m sg w :
  signals w !! mutation_target m = Some sg →
  let v := mutation_value sg m in
  let w' := mutate rank chain_depth m w in
  if unchanged sg v then w' = w
  else stored_and_notified (mutation_target m) sg v w w'.
Proof.
  destruct m as [s v|s fn]; simpl; intros Hs.
  - by apply signal_Set_outcome.
  - by apply signal_Update_outcome.
Qed.

(** ** Subscription ids *)

#[local] Ltac Zify.zify_post_hook ::= Z.to_euclidean_division_equations.

Lemma uint64_modulus_eq : uint64_modulus = 18446744073709551616.
Proof. reflexivity. Qed.

Lemma fresh_for_Subscribe ctx fn rg :
  fresh_for (uint64_modulus - 1) (nextID rg) (registry_Subscribe ctx fn rg).2.
Proof.
  unfold fresh_for. simpl. rewrite uint64_modulus_eq. split; [lia|]. intros j Hj. lia.
Qed.

Lemma fresh_for_mono k k' id rg : k' ≤ k → fresh_for k id rg → fresh_for k' id rg.
Proof. intros Hk [H1 H2]. split; [done|]. intros j Hj. apply H2. lia. Qed.

Lemma fresh_for_step k id rg rg' :
  registry_step rg rg' → fresh_for (N.succ k) id rg → fresh_for k id rg'.
Proof.
  intros Hstep [Hn Hf].
  destruct Hstep as [->|[(ctx & fn & ->)|[(id' & ->)|(id' & ->)]]].
  - split; [done|]. intros j Hj. apply Hf. lia.
  - unfold fresh_for. simpl. rewrite uint64_modulus_eq in *. split; [lia|].
    intros j Hj. specialize (Hf (1 + j)). lia.
  - split; [done|]. intros j Hj. apply Hf. lia.
  - unfold registry_ctxDone. destruct (watchers rg !! id') as [[|n]|];
      (split; [done|]); intros j Hj; apply Hf; lia.
Qed.

Lemma retired_step k id rg rg' :
  registry_step rg rg' → retired (N.succ k) id rg → retired k id rg'.
Proof.
  intros Hstep (Hs & Hw & Hf).
  pose proof (fresh_for_step k id rg rg' Hstep Hf) as Hf'.
  split; [|split; [|exact Hf']];
    destruct Hstep as [->|[(ctx & fn & ->)|[(id' & ->)|(id' & ->)]]]; simpl; try done.
  - destruct Hf as [Hn Hf]. specialize (Hf 0). rewrite uint64_modulus_eq in *.
    rewrite lookup_insert_ne; [done|]. lia.
  - destruct (decide (id' = id)) as [->|Hne];
      [by rewrite lookup_delete_eq | by rewrite lookup_delete_ne].
  - unfold registry_ctxDone. destruct (watchers rg !! id') as [[|n]|]; simpl; try done.
    destruct (decide (id' = id)) as [->|Hne];
      [by rewrite lookup_delete_eq | by rewrite lookup_delete_ne].
  - destruct Hf as [Hn Hf]. specialize (Hf 0). rewrite uint64_modulus_eq in *.
    rewrite lookup_insert_ne; [done|]. lia.
  - destruct (watchers rg !! id') eqn:Hw'; [|done].
    destruct (decide (id' = id)) as [->|Hne];
      [by rewrite lookup_delete_eq | by rewrite lookup_delete_ne].
  - unfold registry_ctxDone. destruct (watchers rg !! id') as [[|n]|]; simpl; try done.
    destruct (decide (id' = id)) as [->|Hne];
      [by rewrite lookup_delete_eq | by rewrite lookup_delete_ne].
Qed.

Lemma retired_unsubscribe k id rg :
  fresh_for k id rg → retired k id (registry_unsubscribe id rg).
Proof.
  intros Hf. split; [|split; [|exact Hf]]; simpl.
  - by rewrite lookup_delete_eq.
  - destruct (watchers rg !! id) eqn:Hw; [by rewrite lookup_delete_eq | done].
Qed.

Lemma registry_unsubscribe_retired k id rg :
  retired k id rg → registry_unsubscribe id rg = rg.
Proof.
  intros (Hs & Hw & _). unfold registry_unsubscribe. rewrite Hw, (delete_id _ _ Hs).
  by destruct rg.
Qed.

(** *** The registry of a cell under client operations *)

Lemma registry_of_update r r' f w :
  registry_of r (update_registry r' f w)
  = if decide (r = r') then f <$> registry_of r w else registry_of r w.
Proof.
  destruct r as [s|c], r' as [s'|c']; simpl; try done.
  - destruct (decide (s = s')) as [->|Hne].
    + rewrite decide_True by done. rewrite lookup_alter_eq.
      by destruct (signals w !! s').
    + rewrite decide_False by congruence. by rewrite lookup_alter_ne.
  - destruct (decide (c = c')) as [->|Hne].
    + rewrite decide_True by done. rewrite lookup_alter_eq.
      by destruct (computeds w !! c').
    + rewrite decide_False by congruence. by rewrite lookup_alter_ne.
Qed.

Lemma registry_of_emit r evs w : registry_of r (emit evs w) = registry_of r w.
Proof. by destruct r. Qed.

Lemma cell_Subscribe_inv r ctx fn w u w' :
  cell_Subscribe r ctx fn w = Some (u, w') →
  ∃ rg, registry_of r w = Some rg
    ∧ u = UnsubCell r (nextID rg)
    ∧ registry_of r w' = Some (registry_Subscribe ctx fn rg).2
    ∧ (∀ r', r' ≠ r → registry_of r' w' = registry_of r' w)
    ∧ trace w' = trace w ∧ effects w' = effects w
    ∧ view_of w' = view_of w.
Proof.
  destruct r as [s|c]; simpl.
  - unfold signal_Subscribe. destruct (signals w !! s) as [sg|] eqn:Hs; [|done].
    intros [= <- <-]. exists (s_reg sg). simpl. rewrite lookup_insert_eq. simpl.
    repeat split; try done.
    + intros [s'|c'] Hne; simpl; [|done]. rewrite lookup_insert_ne; [done|congruence].
    + unfold view_of. simpl. rewrite fmap_insert. simpl.
      apply insert_id. by rewrite lookup_fmap, Hs.
  - unfold computed_Subscribe. destruct (computeds w !! c) as [cp|] eqn:Hc; [|done].
    intros [= <- <-]. exists (c_reg cp). simpl. rewrite lookup_insert_eq. simpl.
    repeat split; try done.
    intros [s'|c'] Hne; simpl; [done|]. rewrite lookup_insert_ne; [done|congruence].
Qed.

Lemma registry_of_store r s sg v w :
  signals w !! s = Some sg →
  registry_of r (set_signals (insert s (s_with_value v sg)) w) = registry_of r w.
Proof.
  intros Hs. destruct r as [s'|c']; simpl; [|done].
  destruct (decide (s = s')) as [->|Hne].
  - by rewrite lookup_insert_eq, Hs.
  - by rewrite lookup_insert_ne.
Qed.

Section ClientSteps.
Variable rank : N → N.
Variable chain_depth : nat.

Lemma mutate_registry m r w :
  registry_of r (mutate rank chain_depth m w) = registry_of r w.
Proof.
  destruct (mutate_inv rank chain_depth m w) as [->|(sg & Hs & _ & ->)]; [done|].
  rewrite (rtc_prim_registry _ _ _ r
             (signal_notifySubscribers_prims rank chain_depth _ _ _ _)).
  by apply registry_of_store.
Qed.

Lemma apply_op_registry o r w rg :
  registry_of r w = Some rg →
  ∃ rg', registry_of r (apply_op rank chain_depth o w) = Some rg'
    ∧ registry_step rg rg'.
Proof.
  intros Hr. destruct o as [m|c|r' ctx fn|u|r' id]; simpl.
  - exists rg. rewrite mutate_registry. split; [done|by left].
  - exists rg. split; [|by left].
    destruct (computed_Get c w) as [[v w']|] eqn:HG; [|done].
    rewrite (prim_registry any_cell w w' r); [done|]. by eapply prim_get.
  - destruct (cell_Subscribe r' ctx fn w) as [[u w']|] eqn:HS.
    + apply cell_Subscribe_inv in HS as (rg0 & Hr0 & _ & Hr' & Hother & _).
      destruct (decide (r = r')) as [->|Hne].
      * rewrite Hr in Hr0. injection Hr0 as <-. eexists. split; [exact Hr'|].
        right; left. by exists ctx, fn.
      * exists rg. rewrite Hother by done. split; [done|by left].
    + exists rg. split; [done|by left].
  - destruct u as [|r' id|k]; simpl; rewrite ?registry_of_emit;
      try (exists rg; split; [done|by left]).
    rewrite registry_of_update. destruct (decide (r = r')) as [->|Hne].
    + rewrite Hr. simpl. eexists. split; [done|]. right; right; left. by exists id.
    + exists rg. split; [done|by left].
  - rewrite registry_of_update. destruct (decide (r = r')) as [->|Hne].
    + rewrite Hr. simpl. eexists. split; [done|]. right; right; right. by exists id.
    + exists rg. split; [done|by left].
Qed.

Lemma apply_ops_invariant (P : N → registry → Prop) os r w rg k :
  (∀ k rg rg', registry_step rg rg' → P (N.succ k) rg → P k rg') →
  registry_of r w = Some rg → P (k + N.of_nat (length os)) rg →
  ∃ rg', registry_of r (apply_ops rank chain_depth os w) = Some rg' ∧ P k rg'.
Proof.
  intros Hstep. unfold apply_ops. revert w rg.
  induction os as [|o os IH]; intros w rg Hr HP; simpl.
  { exists rg. split; [done|]. simpl in HP. by rewrite N.add_0_r in HP. }
  destruct (apply_op_registry o r w rg Hr) as (rg1 & Hr1 & Hs1).
  apply (IH _ rg1 Hr1). apply (Hstep _ rg rg1 Hs1).
  replace (N.succ (k + N.of_nat (length os)))
    with (k + N.of_nat (length (o :: os))); [done|]. simpl. lia.
Qed.

End ClientSteps.

Lemma retired_mono k k' id rg : k' ≤ k → retired k id rg → retired k' id rg.
Proof. intros Hk (H1 & H2 & H3). repeat split; try done; by eapply fresh_for_mono. Qed.

Lemma update_registry_id r f w rg :
  registry_of r w = Some rg → f rg = rg → update_registry r f w = w.
Proof.
  intros Hr Hf. destruct r as [s|c]; simpl in *.
  - destruct w as [sigs comps effs tr]; unfold set_signals; simpl in *. f_equal.
    apply alter_id. intros sg Hsg. rewrite Hsg in Hr. injection Hr as <-.
    rewrite Hf. by destruct sg.
  - destruct w as [sigs comps effs tr]; unfold set_computeds; simpl in *. f_equal.
    apply alter_id. intros cp Hcp. rewrite Hcp in Hr. injection Hr as <-.
    rewrite Hf. by destruct cp.
Qed.

(** ** Unsubscribe *)

Lemma unsubscribe_closure_returns id rg :
  unsubscribe_closure id rg = Returned (registry_unsubscribe id rg).
Proof.
  unfold unsubscribe_closure, registry_unsubscribe, close_done.
  by destruct (watchers rg !! id).
Qed.

(** C10. The closure [Subscribe] returns (on a Reactive or a Derived Cell),
    in any history of fewer than 2^64 client operations: the subscription
    is registered under the id the closure holds; a call of the closure
    deletes that id from the cell's subscriber map and changes no other
    entry nor any other cell; the closure never panics, because it closes
    [done] only when it finds it open; once it has been called, a later
    call finds the id absent and [done] closed and changes nothing at all,
    whatever was subscribed in between. *)
Theorem Unsubscribe_idempotent rank chain_depth r ctx fn w0 u w1 os1 os2 :
  cell_Subscribe r ctx fn w0 = Some (u, w1) →
  N.of_nat (length os1 + length os2) < uint64_modulus →
  let w2 := apply_ops rank chain_depth os1 w1 in
  let w3 := call_unsubscribe u w2 in
  let w4 := apply_ops rank chain_depth os2 w3 in
  ∃ id, u = UnsubCell r id
    ∧ subs_of r w1 !! id = Some fn
    ∧ subs_of r w3 = delete id (subs_of r w2)
    ∧ (∀ r', r' ≠ r → registry_of r' w3 = registry_of r' w2)
    ∧ (∀ rg, unsubscribe_closure id rg = Returned (registry_unsubscribe id rg))
    ∧ (∃ rg, registry_of r w4 = Some rg
         ∧ subscribers rg !! id = None ∧ watchers rg !! id = None)
    ∧ call_unsubscribe u w4 = emit [EvUnsubscribe u] w4.
Proof.
  intros HS Hlen w2 w3 w4.
  apply cell_Subscribe_inv in HS as (rg0 & Hr0 & -> & Hr1 & _).
  exists (nextID rg0). split; [done|].
  split. { unfold subs_of. rewrite Hr1. simpl. by rewrite lookup_insert_eq. }
  pose proof (fresh_for_Subscribe ctx fn rg0) as Hfresh.
  destruct (apply_ops_invariant rank chain_depth (λ k, fresh_for k (nextID rg0))
              os1 r w1 _ (uint64_modulus - 1 - N.of_nat (length os1))
              (λ k, fresh_for_step k (nextID rg0)) Hr1) as (rg2 & Hr2 & Hf2).
  { eapply fresh_for_mono; [|exact Hfresh]. rewrite uint64_modulus_eq in *. lia. }
  fold w2 in Hr2.
  assert (registry_of r w3 = Some (registry_unsubscribe (nextID rg0) rg2)) as Hr3.
  { subst w3. simpl. rewrite registry_of_emit, registry_of_update, decide_True by done.
    by rewrite Hr2. }
  split. { unfold subs_of. by rewrite Hr3, Hr2. }
  split.
  { intros r' Hne. subst w3. simpl.
    by rewrite registry_of_emit, registry_of_update, decide_False. }
  destruct (apply_ops_invariant rank chain_depth (λ k, retired k (nextID rg0))
              os2 r w3 _ 0 (λ k, retired_step k (nextID rg0)) Hr3) as (rg4 & Hr4 & Hret).
  { eapply retired_mono; [|by apply retired_unsubscribe].
    rewrite uint64_modulus_eq in *. lia. }
  fold w4 in Hr4. split; [intros rg; apply unsubscribe_closure_returns|]. split.
  { exists rg4. split; [done|]. by destruct Hret as (? & ? & _). }
  simpl.
  by rewrite (update_registry_id r _ w4 rg4 Hr4 (registry_unsubscribe_retired _ _ _ Hret)).
Qed.

Lemma Unsubscribe_idempotent_witness :
  let u := UnsubCell (RSignal 0%nat) 0 in
  let w2 := apply_ops by_id 0 busy_client subscribed_with_context in
  let w3 := call_unsubscribe u w2 in
  let w4 := apply_ops by_id 0 busy_client w3 in
  subs_of (RSignal 0%nat) w3 = delete 0 (subs_of (RSignal 0%nat) w2)
  ∧ call_unsubscribe u w4 = emit [EvUnsubscribe u] w4.
Proof.
  intros u w2 w3 w4.
  destruct (Unsubscribe_idempotent by_id 0 (RSignal 0%nat) (Cancellable 0)
              (CbUser log_value) (New TInt (VInt 0) empty_world).2
              u subscribed_with_context busy_client busy_client eq_refl eq_refl)
    as (id & Hu & _ & H3 & _ & _ & _ & H4).
  injection Hu as <-. split; [exact H3 | exact H4].
Defined.

(** ** Who is notified *)

Lemma trace_update_registry r f w : trace (update_registry r f w) = trace w.
Proof. by destruct r. Qed.

Section Notified.
Variable rank : N → N.
Variable chain_depth : nat.

Lemma store_and_notify_extends (Q : event → Prop) s sg v w :
  signals w !! s = Some sg →
  (∀ ev, no_signal_notify ev → Q ev) →
  (∀ id fn, subscribers (s_reg sg) !! id = Some fn → Q (EvNotify (RSignal s) id v)) →
  extends Q w (signal_notifySubscribers rank chain_depth s
                 (range_subscribers rank (subscribers (s_reg sg))) v
                 (set_signals (insert s (s_with_value v sg)) w)).
Proof.
  intros Hs Hq Hn.
  destruct (store_and_notify rank chain_depth s sg v w Hs) as (_ & _ & evss & Htr & HF).
  exists (concat evss). split; [exact Htr|]. clear Htr.
  assert (∀ entry, entry ∈ range_subscribers rank (subscribers (s_reg sg)) →
            subscribers (s_reg sg) !! entry.1 = Some entry.2) as Hin.
  { intros [id fn]. apply elem_of_range_subscribers. }
  revert Hin HF. generalize (range_subscribers rank (subscribers (s_reg sg))).
  intros callbacks Hin HF. revert Hin.
  induction HF as [|entry evs callbacks evss He _ IH]; intros Hin; simpl.
  { constructor. }
  apply Forall_app. split.
  - destruct He as (rest & -> & Hrest & _). constructor.
    + eapply Hn, Hin. by left.
    + eapply Forall_impl; [exact Hrest | exact Hq].
  - apply IH. intros e He'. apply Hin. by right.
Qed.

Lemma mutate_extends (Q : event → Prop) m w :
  (∀ ev, no_signal_notify ev → Q ev) →
  (∀ sg id fn v, signals w !! mutation_target m = Some sg →
     subscribers (s_reg sg) !! id = Some fn →
     Q (EvNotify (RSignal (mutation_target m)) id v)) →
  extends Q w (mutate rank chain_depth m w).
Proof.
  intros Hq Hn.
  destruct (mutate_inv rank chain_depth m w) as [->|(sg & Hs & _ & ->)]; [reflexivity|].
  apply store_and_notify_extends; eauto.
Qed.

Lemma apply_op_not_called o s id w rg :
  registry_of (RSignal s) w = Some rg → subscribers rg !! id = None →
  extends (not_called s id) w (apply_op rank chain_depth o w).
Proof.
  intros Hr Hid. destruct o as [m|c|r' ctx fn|u|r' id']; simpl.
  - apply mutate_extends.
    + intros ev Hev v ->. exact Hev.
    + intros sg id' fn v Hs Hfn v' [= Hseq <- _].
      simpl in Hr. rewrite <- Hseq, Hs in Hr. injection Hr as <-. congruence.
  - destruct (computed_Get c w) as [[v w']|] eqn:HG; [|reflexivity].
    apply (prim_extends _ (λ _, False)) with (w := w) (w' := w');
      try done; [by intros [] | by eapply prim_get].
  - destruct (cell_Subscribe r' ctx fn w) as [[u w']|] eqn:HS; [|reflexivity].
    apply cell_Subscribe_inv in HS as (_ & _ & _ & _ & _ & Htr & _).
    exists []. split; [by rewrite Htr, app_nil_r | constructor].
  - exists [EvUnsubscribe u]. split; [|by repeat constructor].
    destruct u; simpl; by rewrite ?trace_update_registry.
  - exists []. split; [by rewrite trace_update_registry, app_nil_r | constructor].
Qed.

Lemma apply_ops_not_called os s id w rg :
  registry_of (RSignal s) w = Some rg → retired (N.of_nat (length os)) id rg →
  extends (not_called s id) w (apply_ops rank chain_depth os w).
Proof.
  unfold apply_ops. revert w rg. induction os as [|o os IH]; intros w rg Hr Hret; simpl.
  { reflexivity. }
  etrans; [eapply apply_op_not_called; [exact Hr | apply Hret]|].
  destruct (apply_op_registry rank chain_depth o (RSignal s) w rg Hr) as (rg1 & Hr1 & Hs1).
  apply (IH _ rg1 Hr1). apply (retired_step _ _ rg rg1 Hs1).
  replace (N.succ (N.of_nat (length os))) with (N.of_nat (length (o :: os))); [done|].
  simpl. lia.
Qed.

End Notified.

Lemma not_called_notified s id evs v :
  Forall (not_called s id) evs → (id, v) ∉ notified (RSignal s) evs.
Proof.
  intros HF Hin. unfold notified in Hin. apply list_elem_of_omap in Hin as (ev & Hev & Hsome).
  rewrite Forall_forall in HF. specialize (HF ev Hev).
  destruct ev as [r' id' v'| | | | | | | |]; try done.
  destruct (decide (r' = RSignal s)) as [->|]; [|done].
  injection Hsome as <- <-. by apply (HF v').
Qed.

(** C8. A mutation ([Set] or [Update]) that takes effect calls, up to
    order, each subscriber that is in the cell's map at the mutation once,
    all with the one new value, and calls nobody when the equality function
    suppresses it.  A subscription that was cancelled before any mutation
    is never called: in any later history of fewer than 2^64 client
    operations no notification loop of the cell calls its id. *)
Theorem notified_are_subscribers rank chain_depth :
  (∀ m sg w,
     signals w !! mutation_target m = Some sg →
     let v := mutation_value sg m in
     let w' := mutate rank chain_depth m w in
     if unchanged sg v then w' = w
     else stored_and_notified (mutation_target m) sg v w w')
  ∧ (∀ s ctx fn w0 u w1 os,
       cell_Subscribe (RSignal s) ctx fn w0 = Some (u, w1) →
       N.of_nat (length os) < uint64_modulus →
       let w2 := call_unsubscribe u w1 in
       ∃ id, u = UnsubCell (RSignal s) id
         ∧ ∀ v, (id, v) ∉ notified (RSignal s)
                  (since w2 (apply_ops rank chain_depth os w2))).
Proof.
  split; [intros m sg w; apply mutate_outcome|].
  intros s ctx fn w0 u w1 os HS Hlen w2.
  apply cell_Subscribe_inv in HS as (rg0 & Hr0 & -> & Hr1 & _).
  exists (nextID rg0). split; [done|]. intros v.
  assert (registry_of (RSignal s) w2
          = Some (registry_unsubscribe (nextID rg0) (registry_Subscribe ctx fn rg0).2)) as Hr2.
  { subst w2. cbn [call_unsubscribe].
    rewrite registry_of_emit, registry_of_update, decide_True by done. by rewrite Hr1. }
  apply not_called_notified. apply (since_extends (not_called s (nextID rg0))).
  eapply apply_ops_not_called; [exact Hr2|].
  eapply retired_mono; [|apply retired_unsubscribe, fresh_for_Subscribe].
  rewrite uint64_modulus_eq in *. lia.
Qed.

Lemma notified_are_subscribers_witness :
  let u := UnsubCell (RSignal 0%nat) 0 in
  let w2 := call_unsubscribe u subscribed_with_context in
  let w3 := apply_ops by_id 0 busy_client w2 in
  (∀ v, (0, v) ∉ notified (RSignal 0%nat) (since w2 w3))
  ∧ notified (RSignal 0%nat) (since w2 w3) = [(1, VInt 2)]
  ∧ stored_and_notified 0%nat
      {| s_elem := TInt; s_value := VInt 0; s_equal := None;
         s_reg := {| subscribers := {[ 0 := CbUser log_value ]}; nextID := 1;
                     watchers := {[ 0 := Background ]} |};
         s_onPanic := None |}
      (VInt 5) logged_cell (mutate by_id 0 (MSet 0%nat (VInt 5)) logged_cell).
Proof.
  intros u w2 w3.
  destruct (notified_are_subscribers by_id 0) as [H1 H2].
  split; [|split].
  - destruct (H2 0%nat (Cancellable 0) (CbUser log_value)
                (New TInt (VInt 0) empty_world).2 u subscribed_with_context
                busy_client eq_refl eq_refl) as (id & Hu & Hnot).
    injection Hu as <-. exact Hnot.
  - by vm_compute.
  - exact (H1 (MSet 0%nat (VInt 5)) _ logged_cell eq_refl).
Defined.

(** ** Dependency Tracker *)







(** ** Effect: Stop *)

Lemma cleanups_app e l1 l2 : cleanups e (l1 ++ l2) = (cleanups e l1 + cleanups e l2)%nat.
Proof. unfold cleanups. by rewrite filter_app, length_app. Qed.

Lemma bodies_app e l1 l2 : bodies e (l1 ++ l2) = (bodies e l1 + bodies e l2)%nat.
Proof. unfold bodies. by rewrite filter_app, length_app. Qed.

Lemma cancelled_app l1 l2 : cancelled (l1 ++ l2) = cancelled l1 ++ cancelled l2.
Proof. apply omap_app. Qed.

Lemma cleanups_none e evs : Forall (λ ev, ev ≠ EvCleanup e) evs → cleanups e evs = 0%nat.
Proof.
  unfold cleanups. induction 1 as [|ev evs Hev _ IH]; [done|].
  by rewrite filter_cons_False.
Qed.

Lemma bodies_none e evs : Forall (λ ev, ev ≠ EvBody e) evs → bodies e evs = 0%nat.
Proof.
  unfold bodies. induction 1 as [|ev evs Hev _ IH]; [done|].
  by rewrite filter_cons_False.
Qed.

Lemma cancelled_none evs : Forall (λ ev, ∀ u, ev ≠ EvUnsubscribe u) evs → cancelled evs = [].
Proof.
  induction 1 as [|ev evs Hev _ IH]; [done|].
  change (ev :: evs) with ([ev] ++ evs). rewrite cancelled_app, IH, app_nil_r.
  destruct ev; try done. by destruct (Hev u).
Qed.

Lemma cancelled_unsubscribes us : cancelled (map EvUnsubscribe us) = us.
Proof.
  induction us as [|u us IH]; [done|].
  change (map EvUnsubscribe (u :: us)) with ([EvUnsubscribe u] ++ map EvUnsubscribe us).
  by rewrite cancelled_app, IH.
Qed.

Lemma benign_idle e ev : benign ev → idle e ev.
Proof. by destruct ev. Qed.

Lemma call_unsubscribe_inv u w :
  trace (call_unsubscribe u w) = trace w ++ [EvUnsubscribe u]
  ∧ effects (call_unsubscribe u w) = effects w
  ∧ view_of (call_unsubscribe u w) = view_of w.
Proof.
  destruct u as [|[s|c] id|k]; simpl; repeat split; try done.
  unfold view_of. simpl. apply map_eq. intros s'. rewrite !lookup_fmap.
  destruct (decide (s = s')) as [->|Hne].
  - rewrite lookup_alter_eq. by destruct (signals w !! s').
  - by rewrite lookup_alter_ne.
Qed.

Lemma unsubscribe_all us w :
  let w' := foldl (λ w u, call_unsubscribe u w) w us in
  trace w' = trace w ++ map EvUnsubscribe us
  ∧ effects w' = effects w
  ∧ view_of w' = view_of w.
Proof.
  revert w. induction us as [|u us IH]; intros w; simpl.
  { by rewrite app_nil_r. }
  destruct (IH (call_unsubscribe u w)) as (Ht & He & Hv).
  destruct (call_unsubscribe_inv u w) as (Ht' & He' & Hv').
  rewrite Ht, He, Hv, Ht', He', Hv'. by rewrite <- app_assoc.
Qed.

Lemma effect_Stop_stopped e w : stopped e w → effect_Stop e w = w.
Proof. intros (ef & He & Hs). unfold effect_Stop. by rewrite He, Hs. Qed.

Lemma effect_run_stopped e w : stopped e w → effect_run e w = w.
Proof. intros (ef & He & Hs). unfold effect_run. by rewrite He, Hs. Qed.

Lemma prim_idle allowed e w w' :
  prim allowed w w' → stopped e w → stopped e w' ∧ extends (idle e) w w'.
Proof.
  intros [r id v evs w0 _ Hevs|e' w0|c w0|c w0 v w0' HG] Hst.
  - split; [done|]. apply extends_emit. constructor; [done|].
    eapply Forall_impl; [exact Hevs | apply benign_idle].
  - destruct (effect_run_inv e' w0) as [->|(ef' & k & evs & He' & Hs' & -> & Hevs)];
      [by split|].
    assert (e' ≠ e) as Hne.
    { intros ->. destruct Hst as (ef & He & Hs). congruence. }
    split.
    + destruct Hst as (ef & He & Hs). exists ef. simpl. by rewrite lookup_insert_ne.
    + exists evs. split; [done|]. eapply Forall_impl; [exact Hevs|].
      intros ev [->|[->|Hb]]; [split; congruence..|by apply benign_idle].
  - split; [done|]. exists []. split; [simpl; by rewrite app_nil_r | constructor].
  - apply computed_Get_inv in HG as (cp & cp' & evs & Hc & HG & ->).
    apply computed_Get_cell_inv in HG as (_ & _ & _ & _ & _ & _ & Hevs & _).
    split; [done|]. exists evs. split; [done|]. eapply Forall_impl; [exact Hevs|].
    intros ev [->|Hb]; [done | by apply benign_idle].
Qed.

Lemma rtc_prim_idle allowed e w w' :
  rtc (prim allowed) w w' → stopped e w → stopped e w' ∧ extends (idle e) w w'.
Proof.
  apply (rtc_lift (prim allowed)
           (λ a b, stopped e a → stopped e b ∧ extends (idle e) a b)).
  - intros a Ha. split; [done | reflexivity].
  - intros a b c Hab Hbc Ha. destruct (Hab Ha) as [Hb Hab'].
    destruct (Hbc Hb) as [Hc Hbc']. split; [done | by etrans].
  - intros a b. apply prim_idle.
Qed.

Section AfterStop.
Variable rank : N → N.
Variable chain_depth : nat.

Lemma mutate_idle e m w :
  stopped e w →
  stopped e (mutate rank chain_depth m w)
  ∧ extends (idle e) w (mutate rank chain_depth m w).
Proof.
  intros Hst.
  destruct (mutate_inv rank chain_depth m w) as [->|(sg & Hs & _ & ->)]; [by split|].
  destruct (rtc_prim_idle any_cell e _ _
              (signal_notifySubscribers_prims rank chain_depth (mutation_target m)
                 (range_subscribers rank (subscribers (s_reg sg))) (mutation_value sg m)
                 (set_signals (insert (mutation_target m)
                                 (s_with_value (mutation_value sg m) sg)) w)) Hst)
    as [Hst' (evs & Htr & HQ)].
  split; [done|]. by exists evs.
Qed.

Lemma mutate_all_idle e ms w :
  stopped e w → extends (idle e) w (mutate_all rank chain_depth ms w).
Proof.
  unfold mutate_all. revert w. induction ms as [|m ms IH]; intros w Hst; simpl.
  { reflexivity. }
  destruct (mutate_idle e m w Hst) as [Hst' Hext]. etrans; [exact Hext | by apply IH].
Qed.

End AfterStop.

(** C6. [Stop] on a running Effect calls the stored cleanup once if there
    is one (and no cleanup otherwise), calls each dependency's unsubscribe
    once, in order, and leaves the Effect stopped.  Any number of further
    calls of [Stop] change nothing, a cycle started afterwards does nothing,
    and no later mutation of any cell calls the body or a cleanup again. *)
Theorem effect_Stop_idempotent rank chain_depth e w ef :
  effects w !! e = Some ef → e_stopped ef = false →
  let w1 := effect_Stop e w in
  cleanups e (since w w1) = match e_cleanup ef with Some _ => 1%nat | None => 0%nat end
  ∧ bodies e (since w w1) = 0%nat
  ∧ cancelled (since w w1) = e_unsubscribes ef
  ∧ stopped e w1
  ∧ (∀ n, Nat.iter n (effect_Stop e) w1 = w1)
  ∧ effect_run e w1 = w1
  ∧ ∀ ms, Forall (idle e) (since w1 (mutate_all rank chain_depth ms w1)).
Proof.
  intros He Hs w1.
  set (evs := match e_cleanup ef with
              | Some cleanup =>
                  let '(items, o) := cleanup (view_of w) in
                  EvCleanup e :: user_events items
                    ++ recovered (e_onPanic ef)
                         "signals: panic in final effect cleanup" o
              | None => []
              end).
  set (wa := emit evs (set_effects
                (insert e (e_with_cleanup None (e_with_stopped true ef))) w)).
  assert (w1 = set_effects (alter (e_with_unsubscribes []) e)
                 (foldl (λ w u, call_unsubscribe u w) wa (e_unsubscribes ef))) as Hw1.
  { subst w1. unfold effect_Stop. by rewrite He, Hs. }
  destruct (unsubscribe_all (e_unsubscribes ef) wa) as (Htr & Heff & _).
  assert (trace w1 = trace w ++ evs ++ map EvUnsubscribe (e_unsubscribes ef)) as Htrace.
  { rewrite Hw1. simpl. rewrite Htr. subst wa. simpl. by rewrite <- app_assoc. }
  assert (cleanups e evs = match e_cleanup ef with Some _ => 1%nat | None => 0%nat end
          ∧ bodies e evs = 0%nat ∧ cancelled evs = []) as (Hcl & Hbo & Hca).
  { subst evs. destruct (e_cleanup ef) as [cleanup|]; [|done].
    destruct (cleanup (view_of w)) as [items o].
    pose proof (benign_callback_events items (e_onPanic ef)
                  "signals: panic in final effect cleanup" o) as Hb.
    split; [|split].
    - unfold cleanups. rewrite filter_cons_True by done. simpl. f_equal.
      apply cleanups_none. eapply Forall_impl; [exact Hb|]. by intros [].
    - unfold bodies. rewrite filter_cons_False by done.
      apply bodies_none. eapply Forall_impl; [exact Hb|]. by intros [].
    - apply cancelled_none. constructor; [done|].
      eapply Forall_impl; [exact Hb|]. by intros []. }
  assert (stopped e w1) as Hst.
  { exists (e_with_unsubscribes [] (e_with_cleanup None (e_with_stopped true ef))).
    rewrite Hw1. simpl. rewrite Heff. subst wa. simpl.
    rewrite lookup_alter_eq, lookup_insert_eq. done. }
  rewrite (since_app _ _ _ Htrace).
  split.
  { rewrite cleanups_app, Hcl, cleanups_none; [lia|].
    apply Forall_forall. intros ev Hin. apply list_elem_of_fmap in Hin as (u & -> & _). done. }
  split.
  { rewrite bodies_app, Hbo, bodies_none; [lia|].
    apply Forall_forall. intros ev Hin. apply list_elem_of_fmap in Hin as (u & -> & _). done. }
  split. { by rewrite cancelled_app, Hca, cancelled_unsubscribes. }
  split; [exact Hst|]. split.
  { induction n as [|n IH]; simpl; [done|]. rewrite IH. by apply effect_Stop_stopped. }
  split; [by apply effect_run_stopped|].
  intros ms. apply since_extends. by apply mutate_all_idle.
Qed.

Lemma effect_Stop_idempotent_witness :
  let w1 := effect_Stop 0%nat cleanup_scenario_world in
  user_log (since cleanup_scenario_world w1) = [("cleanup"%string, VInt 0)]
  ∧ cleanups 0%nat (since cleanup_scenario_world w1) = 1%nat
  ∧ cancelled (since cleanup_scenario_world w1) = [UnsubCell (RSignal 0%nat) 0]
  ∧ effect_Stop 0%nat (effect_Stop 0%nat w1) = w1
  ∧ subs_of (RSignal 0%nat) w1 = ∅.
Proof.
  intros w1.
  assert (∃ ef, effects cleanup_scenario_world !! 0%nat = Some ef
            ∧ e_stopped ef = false
            ∧ is_Some (e_cleanup ef)
            ∧ e_unsubscribes ef = [UnsubCell (RSignal 0%nat) 0])
    as (ef & He & Hs & [k Hk] & Hu).
  { vm_compute. eexists. repeat split. by eexists. }
  destruct (effect_Stop_idempotent by_id 0 0%nat cleanup_scenario_world ef He Hs)
    as (Hcl & _ & Hca & _ & Hiter & _).
  fold w1 in Hcl, Hca, Hiter. rewrite Hk in Hcl. rewrite Hu in Hca.
  split; [by vm_compute|]. split; [exact Hcl|]. split; [exact Hca|].
  split; [exact (Hiter 2%nat)|]. by vm_compute.
Defined.

(** ** Effect: one execution cycle *)

(** C5. An execution cycle of a running Effect first calls the stored
    cleanup, if there is one, then the body, and stores what the body
    returned (nothing if it panicked).  For the Effect of TestEffect_Cleanup
    over [A] and the mutations 0, 1, 2 the lines logged are, in order,
    effect(0), cleanup(0), effect(1), cleanup(1), effect(2), whatever the
    iteration order of the subscriber map. *)
Theorem effect_cycle_order rank chain_depth :
  (∀ e w ef,
     effects w !! e = Some ef → e_stopped ef = false →
     let w' := effect_run e w in
     let r := e_fn ef (view_of w) in
     since w w' = prior_cleanup_events e ef (view_of w)
                    ++ EvBody e :: user_events r.1
                    ++ recovered (e_onPanic ef) "signals: panic in effect function" r.2
     ∧ effects w' !! e
       = Some (e_with_cleanup
                 (match r.2 with Returned k => k | Panicked _ => None end) ef))
  ∧ match cleanup_scenario with
    | Returned (e, w1) =>
        user_log (trace (signal_Set rank chain_depth 0%nat (VInt 2)
                           (signal_Set rank chain_depth 0%nat (VInt 1) w1)))
        = [("effect"%string, VInt 0); ("cleanup"%string, VInt 0);
           ("effect"%string, VInt 1); ("cleanup"%string, VInt 1);
           ("effect"%string, VInt 2)]
    | Panicked _ => False
    end.
Proof.
  split; [|by vm_compute].
  intros e w ef He Hs w' r. subst w'. unfold effect_run. rewrite He, Hs.
  subst r. unfold prior_cleanup_events.
  destruct (e_fn ef (view_of w)) as [items o]. split.
  - apply since_app. simpl. f_equal. f_equal.
    destruct (e_cleanup ef) as [old|]; [|done]. by destruct (old (view_of w)).
  - simpl. by rewrite lookup_insert_eq.
Qed.

Lemma effect_cycle_order_witness :
  let w' := effect_run 0%nat cleanup_scenario_world in
  since cleanup_scenario_world w'
  = [EvCleanup 0%nat; EvUser "cleanup" (VInt 0); EvBody 0%nat; EvUser "effect" (VInt 0)].
Proof.
  intros w'.
  assert (∃ ef, effects cleanup_scenario_world !! 0%nat = Some ef
            ∧ e_stopped ef = false
            ∧ prior_cleanup_events 0%nat ef (view_of cleanup_scenario_world)
              = [EvCleanup 0%nat; EvUser "cleanup" (VInt 0)]
            ∧ e_fn ef (view_of cleanup_scenario_world)
              = effect_with_cleanup 0%nat (view_of cleanup_scenario_world)
            ∧ e_onPanic ef = None)
    as (ef & He & Hs & Hprior & Hfn & Hop).
  { vm_compute. eexists. repeat split. }
  destruct (effect_cycle_order by_id 0) as [Hcycle _].
  destruct (Hcycle 0%nat cleanup_scenario_world ef He Hs) as [Hsince _].
  fold w' in Hsince. rewrite Hsince, Hprior, Hfn, Hop. reflexivity.
Defined.

(** ** Tracking dependencies *)

Lemma dep_SubscribeForever_inv d k w u w' :
  dep_SubscribeForever d k w = Some (u, w') →
  effects w' = effects w ∧ view_of w' = view_of w ∧ extends subscribing w w'.
Proof.
  destruct d as [|s|s|c|f]; simpl; try done.
  - intros H. apply (cell_Subscribe_inv (RSignal s)) in H
      as (_ & _ & _ & _ & _ & Htr & He & Hv).
    repeat split; try done. exists []. by rewrite Htr, app_nil_r.
  - intros H. apply (cell_Subscribe_inv (RSignal s)) in H
      as (_ & _ & _ & _ & _ & Htr & He & Hv).
    repeat split; try done. exists []. by rewrite Htr, app_nil_r.
  - intros H. apply (cell_Subscribe_inv (RComputed c)) in H
      as (_ & _ & _ & _ & _ & Htr & He & Hv).
    repeat split; try done. exists []. by rewrite Htr, app_nil_r.
  - intros [= <- <-]. repeat split; try done. apply extends_emit.
    constructor; [by eexists | constructor].
Qed.

Lemma dep_SubscribeForever_None d k w :
  dep_SubscribeForever d k w = None → method_SubscribeForever d w = None.
Proof.
  destruct d as [|s|s|c|f]; simpl; try done.
  - unfold signal_SubscribeForever, signal_Subscribe. by destruct (signals w !! s).
  - unfold signal_SubscribeForever, signal_Subscribe. by destruct (signals w !! s).
  - unfold computed_SubscribeForever, computed_Subscribe. by destruct (computeds w !! c).
Qed.

Lemma called_inv d k w :
  is_Some (method_SubscribeForever d w) →
  ∃ u w', called (dep_SubscribeForever d k w) = Returned (u, w')
    ∧ effects w' = effects w ∧ view_of w' = view_of w ∧ extends subscribing w w'.
Proof.
  intros [fnType Hm]. destruct (dep_SubscribeForever d k w) as [[u w']|] eqn:HS.
  - exists u, w'. split; [done|]. by eapply dep_SubscribeForever_inv.
  - apply dep_SubscribeForever_None in HS. congruence.
Qed.

Lemma trackDependencyHelper_spec d k w :
  match trackDependencyHelper d k w with
  | Returned (u, w') =>
      effects w' = effects w ∧ view_of w' = view_of w ∧ extends subscribing w w'
  | Panicked _ => reflect_panics d
  end.
Proof.
  unfold trackDependencyHelper.
  assert (∀ T, implements_ReadonlySignal d w = Some T →
            is_Some (method_SubscribeForever d w)) as Himpl.
  { intros T. destruct d as [|s|s|c|f]; simpl; try done.
    - destruct (signals w !! s); [by eexists | done].
    - destruct (signals w !! s); [by eexists | done].
    - destruct (computeds w !! c); [by eexists | done].
    - destruct (f_SubscribeForever f); [by eexists | done]. }
  assert (match subscribeAnyType d k w with
          | Returned (u, w') =>
              effects w' = effects w ∧ view_of w' = view_of w ∧ extends subscribing w w'
          | Panicked _ => reflect_panics d
          end) as Hany.
  { unfold subscribeAnyType.
    destruct (method_SubscribeForever d w) as [fnType|] eqn:Hm.
    2: { destruct d; repeat split; reflexivity. }
    destruct (negb _) eqn:Hlen.
    { destruct d; repeat split; reflexivity. }
    apply negb_false_iff, andb_true_iff in Hlen as [Hin Hout].
    apply Nat.eqb_eq in Hin, Hout.
    destruct fnType as [ins outs]. simpl in *.
    destruct ins as [|pt [|]]; try done. destruct outs as [|rt [|]]; try done.
    destruct (called_inv d k w) as (u & w' & Hc & He & Hv & Hx); [by rewrite Hm|].
    destruct d as [|s|s|c|f]; try done; destruct pt as [args results|T];
      try (rewrite Hc; by destruct rt).
    - simpl in Hm. destruct (signals w !! s); done.
    - simpl in Hm. destruct (signals w !! s); done.
    - simpl in Hm. destruct (computeds w !! c); done.
    - exists f, T, rt. done. }
  destruct (decide _) as [Heq|Hne].
  { destruct (called_inv d k w) as (u & w' & -> & H); [by rewrite Heq | done]. }
  destruct (implements_ReadonlySignal d w) as [T|] eqn:HT; [|exact Hany].
  destruct (called_inv d k w) as (u & w' & Hc & H); [by eapply Himpl|].
  destruct T; try exact Hany; by rewrite Hc.
Qed.

Lemma track_all_effect e deps w ef :
  effects w !! e = Some ef →
  match track_all (effect_trackDependency e) deps w with
  | Returned w' =>
      (∃ us, effects w' !! e = Some (e_with_unsubscribes us ef))
      ∧ view_of w' = view_of w ∧ extends subscribing w w'
  | Panicked _ => Exists reflect_panics deps
  end.
Proof.
  revert w ef. induction deps as [|d deps IH]; intros w ef He; simpl.
  { split; [|split; [done | reflexivity]]. exists (e_unsubscribes ef). rewrite He.
    by destruct ef. }
  unfold effect_trackDependency at 1.
  pose proof (trackDependencyHelper_spec d (Run e) w) as Hd.
  destruct (trackDependencyHelper d (Run e) w) as [[u w1]|p]; [|by left].
  destruct Hd as (He1 & Hv1 & Hx1).
  set (w2 := set_effects _ w1).
  specialize (IH w2 (e_with_unsubscribes (e_unsubscribes ef ++ [u]) ef)).
  destruct (track_all (effect_trackDependency e) deps w2) as [w'|p]; [|right; apply IH].
  - destruct IH as ((us & Hus) & Hv & Hx).
    { subst w2. simpl. by rewrite lookup_alter_eq, He1, He. }
    split; [by exists us|]. split; [by rewrite Hv|]. etrans; [exact Hx1|exact Hx].
  - subst w2. simpl. by rewrite lookup_alter_eq, He1, He.
Qed.

(** ** Effect: construction *)

Lemma subscribing_not_body e evs : Forall subscribing evs → bodies e evs = 0%nat.
Proof. intros H. apply bodies_none. eapply Forall_impl; [exact H|]. by intros ev [k ->]. Qed.

Lemma subscribing_not_cleanup e evs : Forall subscribing evs → cleanups e evs = 0%nat.
Proof. intros H. apply cleanups_none. eapply Forall_impl; [exact H|]. by intros ev [k ->]. Qed.

Lemma EffectWithOptions_constructed fn opts deps w :
  constructed_once w fn (EffectOnPanic opts) deps (EffectWithOptions fn opts deps w).
Proof.
  unfold constructed_once, EffectWithOptions.
  set (e := fresh (dom (effects w))).
  set (ef := {| e_fn := fn; e_cleanup := None; e_unsubscribes := [];
                e_stopped := false; e_onPanic := EffectOnPanic opts |}).
  set (w0 := set_effects (insert e ef) w).
  pose proof (track_all_effect e deps w0 ef) as Htrack.
  destruct (track_all (effect_trackDependency e) deps w0) as [w1|p].
  2: { apply Htrack. subst w0. simpl. by rewrite lookup_insert_eq. }
  destruct Htrack as ((us & Hus) & Hv & (evs & Htr & Hevs)).
  { subst w0. simpl. by rewrite lookup_insert_eq. }
  assert (view_of w0 = view_of w) as Hv0 by done.
  assert (trace w0 = trace w) as Htr0 by done.
  assert (effects w !! e = None) as Hfresh.
  { apply not_elem_of_dom. subst e. apply is_fresh. }
  assert (effect_run e w1
          = set_effects
              (insert e (e_with_cleanup
                           (match (fn (view_of w)).2 with
                            | Returned k => k | Panicked _ => None end)
                           (e_with_unsubscribes us ef)))
              (emit (EvBody e :: user_events (fn (view_of w)).1
                       ++ recovered (EffectOnPanic opts)
                            "signals: panic in effect function" (fn (view_of w)).2) w1))
    as Hrun.
  { unfold effect_run. rewrite Hus. simpl. rewrite Hv, Hv0.
    by destruct (fn (view_of w)) as [items o]. }
  rewrite Hrun.
  assert (since w (set_effects
              (insert e (e_with_cleanup
                           (match (fn (view_of w)).2 with
                            | Returned k => k | Panicked _ => None end)
                           (e_with_unsubscribes us ef)))
              (emit (EvBody e :: user_events (fn (view_of w)).1
                       ++ recovered (EffectOnPanic opts)
                            "signals: panic in effect function" (fn (view_of w)).2) w1))
          = evs ++ EvBody e :: user_events (fn (view_of w)).1
              ++ recovered (EffectOnPanic opts)
                   "signals: panic in effect function" (fn (view_of w)).2) as Hsince.
  { apply since_app. simpl. by rewrite Htr, Htr0, <- app_assoc. }
  rewrite Hsince.
  pose proof (benign_callback_events (fn (view_of w)).1 (EffectOnPanic opts)
                "signals: panic in effect function" (fn (view_of w)).2) as Hb.
  split; [exact Hfresh|]. split.
  { rewrite bodies_app, (subscribing_not_body _ _ Hevs). unfold bodies.
    rewrite filter_cons_True by done. simpl. f_equal.
    apply bodies_none. eapply Forall_impl; [exact Hb|]. by intros []. }
  split.
  { rewrite cleanups_app, (subscribing_not_cleanup _ _ Hevs). unfold cleanups.
    rewrite filter_cons_False by done.
    apply cleanups_none. eapply Forall_impl; [exact Hb|]. by intros []. }
  split; [by rewrite <- Hv0, <- Hv|]. split; [by exists evs|].
  eexists. simpl. rewrite lookup_insert_eq. split; [done|]. by split.
Qed.

(** C2. When a constructor of an Effect ([EffectWithOptions],
    [EffectWithCleanup] or [Effect]) returns, the body has been called
    exactly once and no cleanup has: after the dependencies were subscribed
    to, the body ran on the values the cells held when the constructor was
    called, which the constructor does not change, and what the body
    returned is stored.  The constructor fails to return only when a
    dependency makes the reflective fallback panic. *)
Theorem Effect_runs_once deps w :
  (∀ fn opts,
     constructed_once w fn (EffectOnPanic opts) deps (EffectWithOptions fn opts deps w))
  ∧ (∀ fn, constructed_once w fn None deps (EffectWithCleanup fn deps w))
  ∧ (∀ fn, constructed_once w (wrappedFn fn) None deps (Effect fn deps w)).
Proof.
  split; [|split]; intros fn.
  - intros opts. apply EffectWithOptions_constructed.
  - apply (EffectWithOptions_constructed fn {| EffectOnPanic := None |}).
  - apply (EffectWithOptions_constructed (wrappedFn fn) {| EffectOnPanic := None |}).
Qed.

(** C2 at the program of TestEffect_ImmediateExecution. *)
Lemma Effect_runs_once_witness :
  match immediate_execution with
  | Returned (e, w') =>
      bodies e (trace w') = 1%nat
      ∧ user_log (trace w') = [("executed"%string, VBool true)]
  | Panicked _ => False
  end.
Proof.
  destruct (Effect_runs_once [signal_AsReadonly 0%nat] (New TInt (VInt 0) empty_world).2)
    as (_ & _ & H).
  specialize (H (λ _, ([("executed"%string, VBool true)], Returned ()))).
  change (Effect _ _ _) with immediate_execution in H.
  destruct immediate_execution as [[e w']|p] eqn:Hie.
  - destruct H as (_ & Hb & _). split; [exact Hb|].
    vm_compute in Hie. injection Hie as <- <-. by vm_compute.
  - vm_compute in Hie. discriminate.
Defined.

(** ** Derived Cell: the cache follows the cells *)

Lemma up_to_date_computes c f w : up_to_date c f w → computes c f w.
Proof. intros (cp & H1 & H2 & _). by exists cp. Qed.

Lemma prim_up_to_date allowed c f w w' :
  prim allowed w w' →
  (computes c f w → computes c f w') ∧ (up_to_date c f w → up_to_date c f w').
Proof.
  intros [r id v evs w0 _ _|e w0|c' w0|c' w0 v w0' HG].
  - done.
  - destruct (effect_run_inv e w0) as [->|(ef & k & evs & _ & _ & -> & _)]; done.
  - split.
    + intros (cp & Hc & Hf). destruct (decide (c' = c)) as [->|Hne].
      * exists (c_with_dirty true cp). simpl. by rewrite lookup_alter_eq, Hc.
      * exists cp. simpl. by rewrite lookup_alter_ne.
    + intros (cp & Hc & Hf & Hcache). destruct (decide (c' = c)) as [->|Hne].
      * exists (c_with_dirty true cp). simpl. by rewrite lookup_alter_eq, Hc.
      * exists cp. simpl. by rewrite lookup_alter_ne.
  - apply computed_Get_inv in HG as (cp0 & cp' & evs & Hc0 & HG & ->).
    apply computed_Get_cell_inv in HG as (_ & _ & Hcomp & _ & _ & _ & _ & Hcase).
    split.
    + intros (cp & Hc & Hf). destruct (decide (c' = c)) as [->|Hne].
      * exists cp'. simpl. rewrite lookup_insert_eq. split; [done|]. congruence.
      * exists cp. simpl. by rewrite lookup_insert_ne.
    + intros (cp & Hc & Hf & Hcache). destruct (decide (c' = c)) as [->|Hne].
      * exists cp'. simpl. rewrite lookup_insert_eq. split; [done|].
        rewrite Hc in Hc0. injection Hc0 as <-. split; [congruence|].
        destruct Hcase as [(-> & Hd & _)|(_ & _ & Hr)]; [by auto|].
        rewrite Hf in Hr. by intros _.
      * exists cp. simpl. by rewrite lookup_insert_ne.
Qed.

Lemma rtc_prim_computes allowed c f w w' :
  rtc (prim allowed) w w' → computes c f w → computes c f w'.
Proof.
  apply (rtc_lift (prim allowed) (λ a b, computes c f a → computes c f b)).
  - by intros a.
  - intros a b d Hab Hbd Ha. auto.
  - intros a b Hp. by apply (prim_up_to_date allowed c f a b).
Qed.

Lemma rtc_prim_up_to_date allowed c f w w' :
  rtc (prim allowed) w w' → up_to_date c f w → up_to_date c f w'.
Proof.
  apply (rtc_lift (prim allowed) (λ a b, up_to_date c f a → up_to_date c f b)).
  - by intros a.
  - intros a b d Hab Hbd Ha. auto.
  - intros a b Hp. by apply (prim_up_to_date allowed c f a b).
Qed.

Lemma up_to_date_Get c f w :
  up_to_date c f w → ∃ w', computed_Get c w = Some (f (view_of w), w').
Proof.
  intros (cp & Hc & Hf & Hcache). unfold computed_Get, computed_Get_cell.
  rewrite Hc. destruct (c_dirty cp) eqn:Hd; simpl.
  - rewrite Hf. simpl. by eexists.
  - rewrite Hcache by done. by eexists.
Qed.

(** * Further properties of the code *)

(** ** Lifetime of a subscription (signal.go and computed.go, Subscribe) *)

Lemma teardown_step_inv id subs a t t' :
  teardown_step id a t = Some (Returned t') →
  teardown_inv id subs t → teardown_inv id subs t'.
Proof.
  assert (∀ m : gmap N callback,
            m = subs ∨ m = delete id subs → delete id m = delete id subs) as Hdel.
  { intros m [->| ->]; [done|]. apply delete_id. by rewrite lookup_delete_eq. }
  intros Hstep (Hsubs & Hdone & Hw & Hcs).
  assert (delete id (t_subscribers t) = delete id subs) as Heq by auto.
  destruct a as [| |ctx_case|i]; simpl in Hstep.
  - destruct (t_ctx t); [done|]. injection Hstep as <-. by repeat split.
  - injection Hstep as <-. repeat split; try done. simpl.
    apply Forall_app. split; [done|]. by repeat constructor.
  - unfold watcher_step in Hstep. destruct (t_watcher t) eqn:Hpc; try done.
    + destruct ctx_case.
      * destruct (t_ctx_done t); [|done]. injection Hstep as <-.
        repeat split; simpl; auto; done.
      * destruct (t_done t) eqn:Hd; [|done]. injection Hstep as <-.
        repeat split; simpl; auto; done.
    + injection Hstep as <-. repeat split; simpl; auto.
      apply Forall_forall. auto.
    + unfold t_close in Hstep. destruct (t_done t) eqn:Hd; [done|].
      injection Hstep as <-. repeat split; simpl; auto; done.
  - unfold caller_step in Hstep.
    destruct (t_callers t !! i) as [pc|] eqn:Hi; [|done].
    assert (pc ≠ CDelete → t_subscribers t = delete id subs) as Hpc.
    { eapply Forall_forall in Hcs; [exact Hcs|]. by eapply list_elem_of_lookup_2. }
    destruct pc; try done.
    + injection Hstep as <-. repeat split; simpl; auto.
      apply Forall_forall. auto.
    + injection Hstep as <-. repeat split; simpl; auto.
      apply Forall_insert; [done|]. intros _. by apply Hpc.
    + unfold t_close in Hstep. destruct (t_done t) eqn:Hd; [done|].
      injection Hstep as <-. repeat split; simpl; auto.
      all: try (intros _; by apply Hpc).
      apply Forall_insert; [done|]. intros _. by apply Hpc.
Qed.

Lemma teardown_run_inv id subs schedule t t' :
  teardown_run id schedule t = Some (Returned t') →
  teardown_inv id subs t → teardown_inv id subs t'.
Proof.
  revert t. induction schedule as [|a schedule IH]; intros t; simpl.
  { by intros [= <-]. }
  destruct (teardown_step id a t) as [[t1|p]|] eqn:Hstep; try done.
  intros Hrun Hinv. apply (IH t1 Hrun). by eapply teardown_step_inv.
Qed.

(** X1. The teardown of a subscription, with the watcher goroutine and the
    calls of the Unsubscribe closure interleaved in any way.  In every
    schedule the subscriber map loses at most the id of the subscription,
    and has lost it whenever [done] is closed.  The watcher woken by the
    context and running alone deletes the id and closes [done]; so does
    the first call of the closure running alone, after which the watcher
    can leave through [case <-done]; and once [done] is closed a call of
    the closure running alone changes nothing.  But [close(done)] is
    guarded in the closure only: when the closure has run and the context
    is cancelled before the watcher takes its [select], the [select] may
    take [case <-ctx.Done()], and the program panics with a close of a
    closed channel; it also panics when the closure runs between the
    watcher's delete and its [close(done)], and when two calls of the
    closure find [done] open before either closes it. *)
Theorem teardown_races id rg n :
  let start := teardown_start rg (Cancellable n) in
  let gone := delete id (subscribers rg) in
  (∀ schedule t, teardown_run id schedule start = Some (Returned t) →
     (t_subscribers t = subscribers rg ∨ t_subscribers t = gone)
     ∧ (t_done t = true → t_subscribers t = gone))
  ∧ (∃ t, teardown_run id (ACancel :: watcher_on_cancel) start = Some (Returned t)
       ∧ t_subscribers t = gone ∧ t_done t = true ∧ t_watcher t = WReturned)
  ∧ (∃ t, teardown_run id (closure_call 0 ++ [AWatcher false]) start = Some (Returned t)
       ∧ t_subscribers t = gone ∧ t_done t = true ∧ t_watcher t = WReturned
       ∧ t_callers t = [CReturned]
       ∧ teardown_run id (closure_call 0 ++ [AWatcher true]) start = None)
  ∧ (∀ t, t_done t = true →
       let i := length (t_callers t) in
       teardown_run id [ACall; ACaller i; ACaller i] t
       = Some (Returned (t_set_callers (t_callers t ++ [CReturned]) (t_delete id t)))
       ∧ teardown_run id [ACall; ACaller i; ACaller i; ACaller i] t = None)
  ∧ teardown_run id (closure_call 0 ++ ACancel :: watcher_on_cancel) start
    = Some (Panicked double_close)
  ∧ teardown_run id ([ACancel; AWatcher true; AWatcher true] ++ closure_call 0
                       ++ [AWatcher true]) start
    = Some (Panicked double_close)
  ∧ teardown_run id [ACall; ACall; ACaller 0; ACaller 1; ACaller 0; ACaller 1;
                     ACaller 0; ACaller 1] start
    = Some (Panicked double_close).
Proof.
  intros start gone. split; [|split; [|split; [|split; [|by repeat split]]]].
  - intros schedule t Hrun.
    destruct (teardown_run_inv id (subscribers rg) schedule start t Hrun) as (H1 & H2 & _).
    { split; [by left|]. split; [done|]. split; [done|]. constructor. }
    by split.
  - eexists. split; [reflexivity|]. by repeat split.
  - eexists. split; [reflexivity|]. by repeat split.
  - intros t Hd i. subst i.
    assert (∀ pc, (t_callers t ++ [pc]) !! length (t_callers t) = Some pc) as Hlook.
    { intros pc. rewrite lookup_app_r by done. by rewrite Nat.sub_diag. }
    assert (∀ pc pc', <[length (t_callers t) := pc']> (t_callers t ++ [pc])
                      = t_callers t ++ [pc']) as Hins.
    { intros pc pc'. rewrite insert_app_r_alt by done. by rewrite Nat.sub_diag. }
    assert (caller_step id (length (t_callers t))
              (t_set_callers (t_callers t ++ [CDelete]) t)
            = Some (Returned (t_set_callers (t_callers t ++ [CSelect]) (t_delete id t))))
      as E1.
    { unfold caller_step. simpl. by rewrite Hlook, Hins. }
    assert (caller_step id (length (t_callers t))
              (t_set_callers (t_callers t ++ [CSelect]) (t_delete id t))
            = Some (Returned (t_set_callers (t_callers t ++ [CReturned]) (t_delete id t))))
      as E2.
    { unfold caller_step. simpl. by rewrite Hlook, Hins, Hd. }
    assert (caller_step id (length (t_callers t))
              (t_set_callers (t_callers t ++ [CReturned]) (t_delete id t)) = None) as E3.
    { unfold caller_step. simpl. by rewrite Hlook. }
    cbn [teardown_run teardown_step]. by rewrite E1, E2, E3.
Qed.

(** X1 at the subscription of [subscribed_with_context]: the closure alone
    empties the map, and the context cancelled after it makes the watcher
    close [done] a second time. *)
Lemma teardown_races_witness :
  let start := teardown_start
                 {| subscribers := {[ 0 := CbUser log_value ]}; nextID := 1;
                    watchers := {[ 0 := Cancellable 0 ]} |} (Cancellable 0) in
  registry_of (RSignal 0%nat) subscribed_with_context
  = Some {| subscribers := {[ 0 := CbUser log_value ]}; nextID := 1;
            watchers := {[ 0 := Cancellable 0 ]} |}
  ∧ (∃ t, teardown_run 0 (closure_call 0) start = Some (Returned t)
       ∧ t_subscribers t = ∅)
  ∧ teardown_run 0 (closure_call 0 ++ ACancel :: watcher_on_cancel) start
    = Some (Panicked double_close).
Proof.
  intros start. split; [by vm_compute|].
  split; [eexists; split; [reflexivity | by vm_compute]|].
  destruct (teardown_races 0
              {| subscribers := {[ 0 := CbUser log_value ]}; nextID := 1;
                 watchers := {[ 0 := Cancellable 0 ]} |} 0%nat)
    as (_ & _ & _ & _ & H & _).
  exact H.
Defined.

Lemma sparing_step_registry_step id rg rg' : sparing_step id rg rg' → registry_step rg rg'.
Proof.
  intros [->|[(ctx & fn & ->)|[(id' & _ & ->)|(id' & _ & ->)]]].
  - by left.
  - right; left. by exists ctx, fn.
  - right; right; left. by exists id'.
  - right; right; right. by exists id'.
Qed.

Lemma live_step fn ctx k id rg rg' :
  sparing_step id rg rg' → live fn ctx (N.succ k) id rg → live fn ctx k id rg'.
Proof.
  intros Hstep (Hs & Hw & Hf).
  pose proof (fresh_for_step k id rg rg' (sparing_step_registry_step _ _ _ Hstep) Hf) as Hf'.
  assert (nextID rg ≠ id) as Hnext.
  { destruct Hf as [Hn Hf]. specialize (Hf 0). rewrite uint64_modulus_eq in *. lia. }
  split; [|split; [|exact Hf']];
    destruct Hstep as [->|[(ctx' & fn' & ->)|[(id' & Hne & ->)|(id' & Hne & ->)]]];
    simpl; try done.
  - by rewrite lookup_insert_ne.
  - by rewrite lookup_delete_ne.
  - unfold registry_ctxDone. destruct (watchers rg !! id') as [[|n]|]; simpl; try done.
    by rewrite lookup_delete_ne.
  - by rewrite lookup_insert_ne.
  - destruct (watchers rg !! id'); [by rewrite lookup_delete_ne | done].
  - unfold registry_ctxDone. destruct (watchers rg !! id') as [[|n]|]; simpl; try done.
    by rewrite lookup_delete_ne.
Qed.

Section Lifetime.
Variable rank : N → N.
Variable chain_depth : nat.

Lemma apply_op_sparing o r id w rg :
  registry_of r w = Some rg → spares r id o →
  ∃ rg', registry_of r (apply_op rank chain_depth o w) = Some rg'
    ∧ sparing_step id rg rg'.
Proof.
  intros Hr [Hnu Hnc]. destruct o as [m|c|r' ctx fn|u|r' id']; simpl.
  - exists rg. rewrite mutate_registry. split; [done|by left].
  - exists rg. split; [|by left].
    destruct (computed_Get c w) as [[v w']|] eqn:HG; [|done].
    rewrite (prim_registry any_cell w w' r); [done|]. by eapply prim_get.
  - destruct (cell_Subscribe r' ctx fn w) as [[u w']|] eqn:HS.
    + apply cell_Subscribe_inv in HS as (rg0 & Hr0 & _ & Hr' & Hother & _).
      destruct (decide (r = r')) as [->|Hne].
      * rewrite Hr in Hr0. injection Hr0 as <-. eexists. split; [exact Hr'|].
        right; left. by exists ctx, fn.
      * exists rg. rewrite Hother by done. split; [done|by left].
    + exists rg. split; [done|by left].
  - destruct u as [|r' id'|k]; simpl; rewrite ?registry_of_emit;
      try (exists rg; split; [done|by left]).
    rewrite registry_of_update. destruct (decide (r = r')) as [->|Hne].
    + rewrite Hr. simpl. eexists. split; [done|]. right; right; left.
      exists id'. split; [|done]. intros ->. by apply Hnu.
    + exists rg. split; [done|by left].
  - rewrite registry_of_update. destruct (decide (r = r')) as [->|Hne].
    + rewrite Hr. simpl. eexists. split; [done|]. right; right; right.
      exists id'. split; [|done]. intros ->. by apply Hnc.
    + exists rg. split; [done|by left].
Qed.

Lemma apply_ops_live fn ctx os r id w rg k :
  Forall (spares r id) os →
  registry_of r w = Some rg → live fn ctx (k + N.of_nat (length os)) id rg →
  ∃ rg', registry_of r (apply_ops rank chain_depth os w) = Some rg'
    ∧ live fn ctx k id rg'.
Proof.
  unfold apply_ops. intros Hsp. revert w rg.
  induction Hsp as [|o os Ho _ IH]; intros w rg Hr HP; simpl.
  { exists rg. split; [done|]. simpl in HP. by rewrite N.add_0_r in HP. }
  destruct (apply_op_sparing o r id w rg Hr Ho) as (rg1 & Hr1 & Hs1).
  apply (IH _ rg1 Hr1). apply (live_step _ _ _ _ rg rg1 Hs1).
  replace (N.succ (k + N.of_nat (length os)))
    with (k + N.of_nat (length (o :: os))); [done|]. simpl. lia.
Qed.

(** X2. A subscription lasts until its Unsubscribe closure is called or
    its watcher sees the context done: through any history of fewer than
    2^64 client operations that contains neither, the callback stays
    registered under its id, and on a Reactive Cell every [Set] that takes
    effect afterwards calls it with the new value. *)
Theorem subscription_persists r ctx fn w0 u w1 os :
  cell_Subscribe r ctx fn w0 = Some (u, w1) →
  N.of_nat (length os) < uint64_modulus →
  (∀ id, u = UnsubCell r id → Forall (spares r id) os) →
  let w2 := apply_ops rank chain_depth os w1 in
  ∃ id, u = UnsubCell r id
    ∧ subs_of r w2 !! id = Some fn
    ∧ ∀ s sg v, r = RSignal s → signals w2 !! s = Some sg → unchanged sg v = false →
        (id, v) ∈ notified (RSignal s) (since w2 (signal_Set rank chain_depth s v w2)).
Proof.
  intros HS Hlen Hsp w2.
  apply cell_Subscribe_inv in HS as (rg0 & Hr0 & -> & Hr1 & _).
  exists (nextID rg0). split; [done|].
  destruct (apply_ops_live fn ctx os r (nextID rg0) w1 _ 0 (Hsp _ eq_refl) Hr1)
    as (rg2 & Hr2 & Hlive & _).
  { split; [|split]; simpl; try by rewrite lookup_insert_eq.
    eapply fresh_for_mono; [|apply fresh_for_Subscribe]. rewrite uint64_modulus_eq in *. lia. }
  fold w2 in Hr2.
  split. { unfold subs_of. by rewrite Hr2. }
  intros s sg v -> Hs Hu.
  pose proof (signal_Set_outcome rank chain_depth s sg v w2 Hs) as Hout.
  rewrite Hu in Hout. destruct Hout as (_ & _ & Hperm). rewrite Hperm.
  simpl in Hr2. rewrite Hs in Hr2. injection Hr2 as <-.
  apply list_elem_of_fmap. exists (nextID rg0, fn). split; [done|].
  by apply elem_of_map_to_list.
Qed.

End Lifetime.

Lemma subscription_persists_witness :
  let w0 := (New TInt (VInt 0) empty_world).2 in
  let w2 := apply_ops by_id 0 other_clients logged_cell in
  subs_of (RSignal 0%nat) w2 !! 0 = Some (CbUser log_value)
  ∧ signal_Get 0%nat w2 = Some (VInt 1)
  ∧ (0, VInt 8) ∈ notified (RSignal 0%nat) (since w2 (signal_Set by_id 0 0%nat (VInt 8) w2)).
Proof.
  intros w0 w2.
  destruct (subscription_persists by_id 0 (RSignal 0%nat) Background (CbUser log_value)
              w0 (UnsubCell (RSignal 0%nat) 0) logged_cell other_clients eq_refl eq_refl)
    as (id & Hu & Hsub & Hnot).
  { intros id [= <-]. repeat constructor; done. }
  injection Hu as <-. fold w2 in Hsub, Hnot. split; [exact Hsub|].
  split; [by vm_compute|].
  assert (∃ sg, signals w2 !! 0%nat = Some sg ∧ unchanged sg (VInt 8) = false)
    as (sg & Hs & Hun).
  { vm_compute. eexists. split; reflexivity. }
  exact (Hnot 0%nat sg (VInt 8) eq_refl Hs Hun).
Defined.

(** ** Dependency Tracker on the cells of the package (internal.go) *)

Lemma dep_cell_inv w d r :
  dep_cell w d = Some r →
  ∃ T, method_SubscribeForever d w = Some (subscribeForever_sig T)
    ∧ implements_ReadonlySignal d w = Some T
    ∧ (∀ k, dep_SubscribeForever d k w = cell_Subscribe r Background (CbOnChange k) w)
    ∧ is_Some (registry_of r w).
Proof.
  destruct d as [|s|s|c|f]; simpl; try done.
  - destruct (signals w !! s) as [sg|] eqn:Hs; [|done]. intros [= <-].
    exists (s_elem sg). simpl. rewrite Hs. by repeat split.
  - destruct (signals w !! s) as [sg|] eqn:Hs; [|done]. intros [= <-].
    exists (s_elem sg). simpl. rewrite Hs. by repeat split.
  - destruct (computeds w !! c) as [cp|] eqn:Hc; [|done]. intros [= <-].
    exists (c_elem cp). simpl. rewrite Hc. by repeat split.
Qed.

(** X3. For a dependency that is a cell of this package (a Reactive Cell,
    its read-only facade or a Derived Cell) of any element type, the
    tracker, whichever of its three paths the type selects, and the
    reflective fallback on its own do what [SubscribeForever] of the cell
    does with the wrapper of [onChange]: the wrapper is registered under
    the cell's next id, the closure returned cancels that id, and no value,
    no other cell and no trace entry changes. *)
Theorem tracker_subscribes d r onChange w :
  dep_cell w d = Some r →
  ∃ rg w',
    registry_of r w = Some rg
    ∧ trackDependencyHelper d onChange w = Returned (UnsubCell r (nextID rg), w')
    ∧ subscribeAnyType d onChange w = Returned (UnsubCell r (nextID rg), w')
    ∧ cell_Subscribe r Background (CbOnChange onChange) w
      = Some (UnsubCell r (nextID rg), w')
    ∧ subs_of r w' = <[nextID rg := CbOnChange onChange]> (subs_of r w)
    ∧ (∀ r', r' ≠ r → registry_of r' w' = registry_of r' w)
    ∧ view_of w' = view_of w ∧ trace w' = trace w.
Proof.
  intros Hd. destruct (dep_cell_inv w d r Hd) as (T & Hm & Hi & Hcall & [rg Hrg]).
  assert (∃ uw, cell_Subscribe r Background (CbOnChange onChange) w = Some uw)
    as [[u w'] HS].
  { destruct r as [s|c]; simpl in *.
    - unfold signal_Subscribe. destruct (signals w !! s); [by eexists | done].
    - unfold computed_Subscribe. destruct (computeds w !! c); [by eexists | done]. }
  pose proof (cell_Subscribe_inv r _ _ w u w' HS)
    as (rg0 & Hrg0 & -> & Hr' & Hother & Htr & _ & Hv).
  rewrite Hrg in Hrg0. injection Hrg0 as <-.
  exists rg, w'. split; [done|].
  assert (subscribeAnyType d onChange w = Returned (UnsubCell r (nextID rg), w')) as Hany.
  { unfold subscribeAnyType. rewrite Hm, Hcall, HS. simpl. by destruct d. }
  split; [|split; [exact Hany|split; [exact HS|]]].
  - unfold trackDependencyHelper. rewrite Hm, Hi, Hcall, HS.
    destruct (decide _); [done|]. by destruct T.
  - split; [|by repeat split]. unfold subs_of. by rewrite Hr', Hrg.
Qed.

Lemma tracker_subscribes_witness :
  ∃ w1 w2 w3,
    trackDependencyHelper (DepReadonly 0%nat) (Run 0) three_paths
    = Returned (UnsubCell (RSignal 0%nat) 0, w1)
    ∧ trackDependencyHelper (DepSignal 1%nat) (Run 0) three_paths
      = Returned (UnsubCell (RSignal 1%nat) 0, w2)
    ∧ trackDependencyHelper (DepSignal 2%nat) (MarkDirty 0) three_paths
      = Returned (UnsubCell (RSignal 2%nat) 0, w3)
    ∧ subs_of (RSignal 1%nat) w2 = {[ 0 := CbOnChange (Run 0) ]}.
Proof.
  destruct (tracker_subscribes (DepReadonly 0%nat) (RSignal 0%nat) (Run 0) three_paths
              eq_refl) as (rg1 & w1 & Hr1 & Ht1 & _).
  destruct (tracker_subscribes (DepSignal 1%nat) (RSignal 1%nat) (Run 0) three_paths
              eq_refl) as (rg2 & w2 & Hr2 & Ht2 & _ & _ & Hs2 & _).
  destruct (tracker_subscribes (DepSignal 2%nat) (RSignal 2%nat) (MarkDirty 0) three_paths
              eq_refl) as (rg3 & w3 & Hr3 & Ht3 & _).
  vm_compute in Hr1. injection Hr1 as <-.
  vm_compute in Hr2. injection Hr2 as <-.
  vm_compute in Hr3. injection Hr3 as <-.
  exists w1, w2, w3. repeat split; done.
Defined.

(** ** Derived Cell: lazy and memoized (computed.go, ComputedWithOptions, Get) *)

Lemma recomputes_app c l1 l2 :
  recomputes c (l1 ++ l2) = (recomputes c l1 + recomputes c l2)%nat.
Proof. unfold recomputes. by rewrite filter_app, length_app. Qed.

Lemma recomputes_none c evs : Forall (λ ev, ev ≠ EvCompute c) evs → recomputes c evs = 0%nat.
Proof.
  unfold recomputes. induction 1 as [|ev evs Hev _ IH]; [done|].
  by rewrite filter_cons_False.
Qed.

Lemma trackDependencyHelper_world d k w u w' :
  trackDependencyHelper d k w = Returned (u, w') →
  w' = w ∨ ∃ u', dep_SubscribeForever d k w = Some (u', w').
Proof.
  assert (∀ u w', called (dep_SubscribeForever d k w) = Returned (u, w') →
            ∃ u', dep_SubscribeForever d k w = Some (u', w')) as Hcalled.
  { intros u0 w0. destruct (dep_SubscribeForever d k w) as [[u1 w1]|]; [|done].
    intros [= <- <-]. by exists u1. }
  assert (subscribeAnyType d k w = Returned (u, w') →
          w' = w ∨ ∃ u', dep_SubscribeForever d k w = Some (u', w')) as Hany.
  { unfold subscribeAnyType.
    destruct (method_SubscribeForever d w) as [fnType|].
    2: { destruct d; intros [= <- <-]; by left. }
    destruct (negb _). { destruct d; intros [= <- <-]; by left. }
    destruct (m_in fnType) as [|[args results|T] [|]];
      try (destruct d; (intros [= <- <-]; by left) || done).
    destruct (dep_SubscribeForever d k w) as [[u1 w1]|] eqn:HS; simpl; intros H.
    - destruct d; [injection H as <- <-; by left|..];
        right; exists u1; repeat case_match; by injection H as _ <-.
    - destruct d; [injection H as <- <-; by left|..]; done. }
  unfold trackDependencyHelper. destruct (decide _).
  { intros H. right. by eapply Hcalled. }
  destruct (implements_ReadonlySignal d w) as [T|]; [|exact Hany].
  destruct T; try exact Hany; intros H; right; by eapply Hcalled.
Qed.

Lemma dep_SubscribeForever_computed d k w u w' c cp :
  dep_SubscribeForever d k w = Some (u, w') → computeds w !! c = Some cp →
  ∃ rg, computeds w' !! c = Some (c_with_reg rg cp).
Proof.
  intros HS Hc.
  assert (cp = c_with_reg (c_reg cp) cp) as Hid by (by destruct cp).
  destruct d as [|s|s|c'|f]; simpl in HS; try done.
  - unfold signal_SubscribeForever, signal_Subscribe in HS.
    destruct (signals w !! s); [|done]. injection HS as <- <-.
    exists (c_reg cp). simpl. by rewrite <- Hid.
  - unfold signal_SubscribeForever, signal_Subscribe in HS.
    destruct (signals w !! s); [|done]. injection HS as <- <-.
    exists (c_reg cp). simpl. by rewrite <- Hid.
  - unfold computed_SubscribeForever, computed_Subscribe in HS.
    destruct (computeds w !! c') as [cp'|] eqn:Hc'; [|done]. injection HS as <- <-.
    simpl. destruct (decide (c' = c)) as [->|Hne].
    + rewrite lookup_insert_eq. rewrite Hc in Hc'. injection Hc' as <-. by eexists.
    + rewrite lookup_insert_ne by done. exists (c_reg cp). by rewrite <- Hid.
  - injection HS as <- <-. exists (c_reg cp). simpl. by rewrite <- Hid.
Qed.

Lemma track_all_computed c deps w cp :
  computeds w !! c = Some cp →
  match track_all (computed_trackDependency c) deps w with
  | Returned w' =>
      (∃ us rg, computeds w' !! c = Some (c_with_unsubscribes us (c_with_reg rg cp)))
      ∧ view_of w' = view_of w ∧ extends subscribing w w'
  | Panicked _ => Exists reflect_panics deps
  end.
Proof.
  revert w cp. induction deps as [|d deps IH]; intros w cp Hc; simpl.
  { split; [|split; [done | reflexivity]]. exists (c_unsubscribes cp), (c_reg cp).
    rewrite Hc. by destruct cp. }
  unfold computed_trackDependency at 1.
  pose proof (trackDependencyHelper_spec d (MarkDirty c) w) as Hd.
  destruct (trackDependencyHelper d (MarkDirty c) w) as [[u w1]|p] eqn:Ht; [|by left].
  destruct Hd as (_ & Hv1 & Hx1).
  assert (∃ rg, computeds w1 !! c = Some (c_with_reg rg cp)) as [rg1 Hc1].
  { destruct (trackDependencyHelper_world _ _ _ _ _ Ht) as [->|[u' HS]].
    - exists (c_reg cp). rewrite Hc. by destruct cp.
    - by eapply dep_SubscribeForever_computed. }
  set (w2 := set_computeds _ w1).
  set (cp2 := c_with_unsubscribes (c_unsubscribes (c_with_reg rg1 cp) ++ [u])
                (c_with_reg rg1 cp)).
  assert (computeds w2 !! c = Some cp2) as Hc2.
  { subst w2. simpl. by rewrite lookup_alter_eq, Hc1. }
  specialize (IH w2 cp2 Hc2).
  destruct (track_all (computed_trackDependency c) deps w2) as [w'|p]; [|by right].
  destruct IH as ((us & rg & Hus) & Hv & Hx).
  split; [by exists us, rg|]. split; [by rewrite Hv|]. etrans; [exact Hx1|exact Hx].
Qed.

Lemma gets_clean n c w cp :
  computeds w !! c = Some cp → c_dirty cp = false → gets n c w = w.
Proof.
  intros Hc Hd. induction n as [|n IH]; [done|]. unfold gets in *. simpl. rewrite IH.
  by rewrite (computed_Get_clean c w cp).
Qed.

(** X4. A Derived Cell is lazy and memoized: its constructor does not call
    the compute function; the first [Get()] calls it once; and any number
    of further [Get()] calls, with no dependency change in between, do not
    call it again and leave the world as the first one left it. *)
Theorem computed_lazy_memoized T compute opts deps w0 :
  match ComputedWithOptions T compute opts deps w0 with
  | Returned (c, w1) =>
      computeds w0 !! c = None
      ∧ recomputes c (since w0 w1) = 0%nat
      ∧ view_of w1 = view_of w0
      ∧ ∀ n, recomputes c (since w1 (gets (S n) c w1)) = 1%nat
             ∧ gets (S n) c w1 = gets 1 c w1
  | Panicked _ => Exists reflect_panics deps
  end.
Proof.
  unfold ComputedWithOptions.
  set (c := fresh (dom (computeds w0))).
  set (cp := {| c_elem := T; c_compute := compute; c_cached := zero_value T;
                c_dirty := true; c_unsubscribes := []; c_reg := empty_registry;
                c_onPanic := OnPanic opts |}).
  set (w0' := set_computeds (insert c cp) w0).
  pose proof (track_all_computed c deps w0' cp) as Htrack.
  destruct (track_all (computed_trackDependency c) deps w0') as [w1|p].
  2: { apply Htrack. subst w0'. simpl. by rewrite lookup_insert_eq. }
  destruct Htrack as ((us & rg & Hc1) & Hv & (evs & Htr & Hevs)).
  { subst w0'. simpl. by rewrite lookup_insert_eq. }
  split. { apply not_elem_of_dom. subst c. apply is_fresh. }
  split.
  { rewrite (since_app w0 w1 evs) by done. apply recomputes_none.
    eapply Forall_impl; [exact Hevs|]. by intros ev [k ->]. }
  split; [done|]. intros n.
  destruct (computed_Get_dirty c w1 _ Hc1 eq_refl) as (v & w2 & HG & Hc2 & _ & Hcase).
  assert (gets 1 c w1 = w2) as H1 by (unfold gets; simpl; by rewrite HG).
  assert (gets (S n) c w1 = w2) as Hn.
  { replace (S n) with (n + 1)%nat by lia. unfold gets in *. rewrite Nat.iter_add.
    rewrite H1. by apply (gets_clean n c w2 _ Hc2). }
  rewrite Hn, H1. split; [|done].
  destruct (c_compute _ (view_of w1)) as [r|p]; destruct Hcase as [_ Htr2];
    rewrite (since_app _ _ _ Htr2); unfold recomputes;
    rewrite filter_cons_True by done; simpl; f_equal; try done.
  rewrite filter_cons_False; [done|]. by destruct (OnPanic opts).
Qed.

Lemma computed_lazy_memoized_witness :
  let '(c, w1) := first_get_faults in
  recomputes c (trace w1) = 0%nat
  ∧ recomputes c (since w1 (gets 5 c w1)) = 1%nat.
Proof.
  pose proof (computed_lazy_memoized TInt (double_unless_five 0%nat)
                {| Equal := None; OnPanic := None |} [signal_AsReadonly 0%nat]
                (New TInt (VInt 5) empty_world).2) as H.
  change (ComputedWithOptions _ _ _ _ _) with (Returned (A := nat * World) first_get_faults)
    in H.
  destruct first_get_faults as [c w1]. destruct H as (_ & H0 & _ & Hn).
  split; [exact H0 | exact (proj1 (Hn 4%nat))].
Defined.

(** ** Derived Cell: eager on a dependency change (computed.go, markDirty) *)

Lemma effect_run_cycle e w :
  computeds (effect_run e w) = computeds w
  ∧ signals (effect_run e w) = signals w
  ∧ extends cycle_event w (effect_run e w).
Proof.
  destruct (effect_run_inv e w) as [->|(ef & k & evs & _ & _ & -> & Hevs)].
  - repeat split; reflexivity.
  - repeat split; try done. exists evs. split; [done|].
    eapply Forall_impl; [exact Hevs|]. intros ev [->|[->|Hb]]; try done. by destruct ev.
Qed.

Lemma notify_round_leaf rank depth r onPanic msg callbacks v w :
  Forall (λ entry : N * callback, leaf entry.2) callbacks →
  let w' := notify_round (onChange_call rank depth) r onPanic msg callbacks v w in
  computeds w' = computeds w ∧ signals w' = signals w
  ∧ ∃ evss, trace w' = trace w ++ concat evss
      ∧ Forall2 (leaf_entry_events r v) callbacks evss.
Proof.
  unfold notify_round. intros Hleaf. revert w.
  induction Hleaf as [|[id fn] callbacks Hfn _ IH]; intros w; cbn [foldl].
  { repeat split; try done. exists []. split; [simpl; by rewrite app_nil_r | constructor]. }
  set (wa := call_callback (onChange_call rank depth) r onPanic msg v w (id, fn)).
  assert (computeds wa = computeds w ∧ signals wa = signals w
          ∧ ∃ rest, trace wa = trace w ++ EvNotify r id v :: rest ∧ Forall cycle_event rest)
    as (Hc & Hs & rest & Htr & Hrest).
  { subst wa. unfold call_callback. simpl fst. simpl snd. destruct fn as [f|[c|e]]; [|done|].
    - destruct (f (view_of w) v) as [items o]. repeat split; try done. eexists.
      split; [reflexivity|]. eapply Forall_impl; [apply benign_callback_events|].
      by intros [].
    - assert (onChange_call rank depth (Run e) (emit [EvNotify r id v] w)
              = effect_run e (emit [EvNotify r id v] w)) as -> by (by destruct depth).
      destruct (effect_run_cycle e (emit [EvNotify r id v] w)) as (-> & -> & rest & Htr & Hr).
      repeat split; try done. exists rest. split; [|done].
      rewrite Htr. simpl. by rewrite <- app_assoc. }
  destruct (IH wa) as (Hc' & Hs' & evss & Htr' & HF).
  split; [by rewrite Hc'|]. split; [by rewrite Hs'|].
  exists ((EvNotify r id v :: rest) :: evss). split.
  - rewrite Htr', Htr. simpl. by rewrite <- app_assoc.
  - constructor; [by exists rest | done].
Qed.

Lemma leaf_entries_notified r v callbacks evss :
  Forall2 (leaf_entry_events r v) callbacks evss →
  notified r (concat evss) = (λ kv, (kv.1, v)) <$> callbacks
  ∧ ∀ c, recomputes c (concat evss) = 0%nat.
Proof.
  induction 1 as [|entry evs callbacks evss (rest & -> & Hrest) _ [IH1 IH2]]; [done|].
  change (concat ((EvNotify r entry.1 v :: rest) :: evss))
    with ([EvNotify r entry.1 v] ++ rest ++ concat evss).
  assert (notified r rest = []) as Hn.
  { clear -Hrest. induction Hrest as [|ev rest Hev _ IH]; [done|].
    change (ev :: rest) with ([ev] ++ rest). rewrite notified_app, IH. by destruct ev. }
  split.
  - rewrite !notified_app, IH1, Hn. unfold notified. simpl. by rewrite decide_True.
  - intros c. rewrite !recomputes_app, IH2.
    rewrite (recomputes_none c rest); [|eapply Forall_impl; [exact Hrest|]; by intros []].
    unfold recomputes. by rewrite filter_cons_False.
Qed.

(** X5. [markDirty] is eager: whenever a dependency reports a change, and
    whether or not the cell was dirty already, the compute function is
    called exactly once, at once, and every subscriber of the Derived Cell
    is called exactly once with the value [Get()] then returns: the fresh
    result, or, when the compute function panics, the stale cached value.
    (For a Derived Cell whose subscribers are user callbacks and Effects.) *)
Theorem markDirty_eager rank depth c w cp :
  computeds w !! c = Some cp →
  map_Forall (λ _ fn, leaf fn) (subscribers (c_reg cp)) →
  let w' := onChange_call rank (S depth) (MarkDirty c) w in
  let v := match c_compute cp (view_of w) with
           | Returned r => r
           | Panicked _ => c_cached cp
           end in
  computeds w' !! c = Some (c_with_dirty false (c_with_cached v cp))
  ∧ recomputes c (since w w') = 1%nat
  ∧ notified (RComputed c) (since w w')
      ≡ₚ (λ kv, (kv.1, v)) <$> map_to_list (subscribers (c_reg cp))
  ∧ view_of w' = view_of w.
Proof.
  intros Hc Hleaf w' v. subst w'. simpl. unfold computed_markDirty.
  set (w1 := set_computeds (alter (c_with_dirty true) c) w).
  assert (computeds w1 !! c = Some (c_with_dirty true cp)) as Hc1.
  { subst w1. simpl. by rewrite lookup_alter_eq, Hc. }
  destruct (computed_Get_dirty c w1 _ Hc1 eq_refl) as (v' & w2 & HG & Hc2 & _ & Hcase).
  rewrite HG.
  assert (v' = v ∧ ∃ evs, trace w2 = trace w ++ evs ∧ recomputes c evs = 1%nat
          ∧ notified (RComputed c) evs = []) as (-> & evs & Htr2 & Hrec & Hnot).
  { change (view_of w1) with (view_of w) in Hcase.
    change (c_compute (c_with_dirty true cp)) with (c_compute cp) in Hcase.
    subst v. destruct (c_compute cp (view_of w)) as [r|p]; destruct Hcase as [-> Htr];
      (split; [done|]); eexists; (split; [exact Htr|]); unfold recomputes;
      rewrite filter_cons_True by done; simpl; (split; [f_equal|]); try done.
    - rewrite filter_cons_False; [done|]. by destruct (c_onPanic cp).
    - unfold notified. simpl. by destruct (c_onPanic cp). }
  assert (c_with_dirty false (c_with_cached v (c_with_dirty true cp))
          = c_with_dirty false (c_with_cached v cp)) as Hcp by (by destruct cp).
  rewrite Hcp in Hc2.
  unfold computed_notifySubscribers. rewrite Hc2. simpl c_reg. simpl c_onPanic.
  destruct (notify_round_leaf rank depth (RComputed c) (c_onPanic cp)
              "signals: panic in computed subscriber"
              (range_subscribers rank (subscribers (c_reg cp))) v w2)
    as (Hcs & Hss & evss & Htr3 & HF).
  { apply Forall_forall. intros [id fn] Hin. apply elem_of_range_subscribers in Hin.
    by apply (Hleaf id fn). }
  destruct (leaf_entries_notified _ _ _ _ HF) as [Hn Hr].
  split; [by rewrite Hcs|].
  assert (since w (notify_round (onChange_call rank depth) (RComputed c) (c_onPanic cp)
                     "signals: panic in computed subscriber"
                     (range_subscribers rank (subscribers (c_reg cp))) v w2)
          = evs ++ concat evss) as ->.
  { apply since_app. by rewrite Htr3, Htr2, <- app_assoc. }
  split. { by rewrite recomputes_app, Hrec, Hr. }
  split. { by rewrite notified_app, Hnot, Hn, range_subscribers_perm. }
  unfold view_of. rewrite Hss.
  apply computed_Get_inv in HG as (? & ? & ? & _ & _ & ->). done.
Qed.

Lemma markDirty_eager_witness :
  let w := faulting_with_subscriber in
  let w' := onChange_call by_id 1 (MarkDirty 0) w in
  recomputes 0%nat (since w w') = 1%nat
  ∧ notified (RComputed 0%nat) (since w w') ≡ₚ [(0, VInt 0)]
  ∧ user_log (since w w') = [("log"%string, VInt 0)].
Proof.
  intros w w'.
  assert (∃ cp, computeds w !! 0%nat = Some cp
            ∧ map_to_list (subscribers (c_reg cp)) = [(0, CbUser log_value)]
            ∧ c_compute cp (view_of w) = Panicked (VString "compute panic")
            ∧ c_cached cp = VInt 0) as (cp & Hc & Hsubs & Hp & Hv).
  { vm_compute. eexists. repeat split. }
  destruct (markDirty_eager by_id 0 0%nat w cp Hc) as (_ & Hrec & Hnot & _).
  { intros id fn Hid. apply elem_of_map_to_list in Hid. rewrite Hsubs in Hid.
    apply elem_of_cons in Hid as [[= _ ->]|Hid]; [done | by apply elem_of_nil in Hid]. }
  fold w' in Hrec, Hnot. rewrite Hp, Hv, Hsubs in Hnot.
  split; [exact Hrec|]. split; [exact Hnot|]. by vm_compute.
Defined.

(** ** Subscription ids are not reused (signal.go, Subscribe) *)

Lemma below_next_step k rg rg' :
  registry_step rg rg' → below_next (N.succ k) rg → below_next k rg'.
Proof.
  unfold below_next. rewrite uint64_modulus_eq. intros Hstep [Hn Hb].
  destruct Hstep as [->|[(ctx & fn & ->)|[(id' & ->)|(id' & ->)]]].
  - split; [lia | done].
  - split; simpl; rewrite uint64_modulus_eq; [lia|]. intros id [fn' Hid].
    destruct (decide (nextID rg = id)) as [<-|Hne]; [lia|].
    rewrite lookup_insert_ne in Hid by done. specialize (Hb id (mk_is_Some _ _ Hid)). lia.
  - split; simpl; [lia|]. intros id [fn' Hid].
    apply Hb. exists fn'. apply lookup_delete_Some in Hid. tauto.
  - unfold registry_ctxDone. destruct (watchers rg !! id') as [[|n]|];
      (split; simpl; [lia|]); try done.
    intros id [fn' Hid]. apply Hb. exists fn'. apply lookup_delete_Some in Hid. tauto.
Qed.

(** X6. The ids in the subscriber map of a cell made by [NewWithOptions]
    stay below [nextID] through any history of fewer than 2^64 client
    operations; so a new subscription takes an id that is not in the map,
    and every subscription made before keeps its id and its callback. *)
Theorem Subscribe_never_overwrites rank chain_depth T initial opts w os :
  N.of_nat (length os) < uint64_modulus →
  let s := (NewWithOptions T initial opts w).1 in
  let w1 := apply_ops rank chain_depth os (NewWithOptions T initial opts w).2 in
  ∃ rg, registry_of (RSignal s) w1 = Some rg
    ∧ (∀ id, is_Some (subscribers rg !! id) → id < nextID rg)
    ∧ ∀ ctx fn, ∃ w2,
        cell_Subscribe (RSignal s) ctx fn w1 = Some (UnsubCell (RSignal s) (nextID rg), w2)
        ∧ subs_of (RSignal s) w1 !! nextID rg = None
        ∧ subs_of (RSignal s) w2 !! nextID rg = Some fn
        ∧ ∀ id fn', subs_of (RSignal s) w1 !! id = Some fn' →
            subs_of (RSignal s) w2 !! id = Some fn'.
Proof.
  intros Hlen s w1.
  destruct (apply_ops_invariant rank chain_depth below_next os (RSignal s)
              (NewWithOptions T initial opts w).2 empty_registry 0 below_next_step)
    as (rg & Hr & Hn & Hb).
  { simpl. by rewrite lookup_insert_eq. }
  { split; simpl; [lia|]. intros id [fn Hid]. by rewrite lookup_empty in Hid. }
  fold w1 in Hr. exists rg. split; [done|]. split; [done|]. intros ctx fn.
  assert (subscribers rg !! nextID rg = None) as Hfree.
  { destruct (subscribers rg !! nextID rg) eqn:Hid; [|done].
    specialize (Hb _ (mk_is_Some _ _ Hid)). lia. }
  assert (∃ uw, cell_Subscribe (RSignal s) ctx fn w1 = Some uw) as [[u w2] HS].
  { simpl in *. unfold signal_Subscribe. destruct (signals w1 !! s); [by eexists | done]. }
  pose proof (cell_Subscribe_inv _ _ _ _ _ _ HS) as (rg0 & Hr0 & -> & Hr2 & _).
  rewrite Hr in Hr0. injection Hr0 as <-.
  exists w2. split; [done|]. unfold subs_of. rewrite Hr, Hr2. simpl.
  split; [done|]. split; [by rewrite lookup_insert_eq|].
  intros id fn' Hid. rewrite lookup_insert_ne; [done|]. intros <-. congruence.
Qed.

Lemma Subscribe_never_overwrites_witness :
  let w1 := apply_ops by_id 0 busy_client (New TInt (VInt 0) empty_world).2 in
  ∃ rg, registry_of (RSignal 0%nat) w1 = Some rg
    ∧ nextID rg = 1
    ∧ ∀ id, is_Some (subscribers rg !! id) → id < nextID rg.
Proof.
  intros w1.
  destruct (Subscribe_never_overwrites by_id 0 TInt (VInt 0)
              {| Equal := None; OnPanic := None |} empty_world busy_client eq_refl)
    as (rg & Hr & Hb & _).
  exists rg. split; [exact Hr|]. split; [|exact Hb].
  vm_compute in Hr. by injection Hr as <-.
Defined.

(** ** Tearing down dependency subscriptions (effect.go, Stop; computed.go, Cleanup) *)

Lemma call_unsubscribe_subs u r id w :
  subs_of r (call_unsubscribe u w) !! id
  = if decide (u = UnsubCell r id) then None else subs_of r w !! id.
Proof.
  unfold subs_of, call_unsubscribe.
  destruct u as [|r' id'|k]; rewrite registry_of_emit; try (by rewrite decide_False).
  rewrite registry_of_update. destruct (decide (r = r')) as [<-|Hne].
  - destruct (registry_of r w) as [rg|]; simpl.
    + destruct (decide (id' = id)) as [->|Hid].
      * by rewrite decide_True, lookup_delete_eq.
      * rewrite decide_False by congruence. by rewrite lookup_delete_ne.
    + by destruct (decide _).
  - by rewrite decide_False by congruence.
Qed.

Lemma unsubscribe_all_subs us r id w :
  subs_of r (foldl (λ w u, call_unsubscribe u w) w us) !! id
  = if decide (UnsubCell r id ∈ us) then None else subs_of r w !! id.
Proof.
  revert w. induction us as [|u us IH]; intros w; simpl.
  { done. }
  rewrite IH, call_unsubscribe_subs.
  destruct (decide (UnsubCell r id ∈ us)) as [Hin|Hnin].
  - rewrite decide_True; [done|]. by right.
  - destruct (decide (u = UnsubCell r id)) as [->|Hne].
    + rewrite decide_True; [done|]. by left.
    + rewrite decide_False; [done|]. intros Hin. apply elem_of_cons in Hin as [?|?]; congruence.
Qed.

Lemma subs_of_set_effects r f w : subs_of r (set_effects f w) = subs_of r w.
Proof. by destruct r. Qed.

Lemma subs_of_emit r evs w : subs_of r (emit evs w) = subs_of r w.
Proof. by destruct r. Qed.

(** X7. [Stop] removes from the subscriber maps of the dependencies
    exactly the subscriptions the Effect made when it was constructed:
    their ids are gone, every other subscription of every cell is where it
    was, and no cell changes its value. *)
Theorem Stop_removes_subscriptions e w ef :
  effects w !! e = Some ef → e_stopped ef = false →
  let w1 := effect_Stop e w in
  (∀ r id, subs_of r w1 !! id
           = if decide (UnsubCell r id ∈ e_unsubscribes ef) then None
             else subs_of r w !! id)
  ∧ view_of w1 = view_of w
  ∧ e_unsubscribes <$> effects w1 !! e = Some [].
Proof.
  intros He Hs w1. subst w1. unfold effect_Stop. rewrite He, Hs.
  match goal with
  | |- context [foldl _ ?wa (e_unsubscribes ef)] => set (w0 := wa)
  end.
  destruct (unsubscribe_all (e_unsubscribes ef) w0) as (_ & Heff & Hv).
  split; [|split].
  - intros r id. rewrite subs_of_set_effects, unsubscribe_all_subs.
    subst w0. by rewrite subs_of_emit, subs_of_set_effects.
  - change (view_of (set_effects _ ?x)) with (view_of x). by rewrite Hv.
  - simpl. rewrite lookup_alter_eq, Heff. subst w0. simpl. by rewrite lookup_insert_eq.
Qed.

Lemma Stop_removes_subscriptions_witness :
  let w1 := effect_Stop 0%nat effect_and_subscriber in
  subs_of (RSignal 0%nat) effect_and_subscriber
  = {[ 0 := CbOnChange (Run 0); 1 := CbUser log_value ]}
  ∧ subs_of (RSignal 0%nat) w1 !! 0 = None
  ∧ subs_of (RSignal 0%nat) w1 !! 1 = Some (CbUser log_value).
Proof.
  intros w1.
  assert (∃ ef, effects effect_and_subscriber !! 0%nat = Some ef
            ∧ e_stopped ef = false
            ∧ e_unsubscribes ef = [UnsubCell (RSignal 0%nat) 0]) as (ef & He & Hs & Hu).
  { vm_compute. eexists. repeat split. }
  destruct (Stop_removes_subscriptions 0%nat effect_and_subscriber ef He Hs) as (H & _).
  fold w1 in H. split; [by vm_compute|]. rewrite !H, Hu. split.
  - rewrite decide_True; [done|]. by left.
  - rewrite decide_False; [by vm_compute|].
    intros Hin. apply elem_of_cons in Hin as [[=]|Hin]. by apply elem_of_nil in Hin.
Defined.

Lemma call_unsubscribe_computed u c cp w :
  computeds w !! c = Some cp →
  ∃ rg, computeds (call_unsubscribe u w) !! c = Some (c_with_reg rg cp).
Proof.
  intros Hc.
  assert (computeds w !! c = Some (c_with_reg (c_reg cp) cp)) as Hc0 by (by destruct cp).
  destruct u as [|[s|c'] id|k]; simpl; try by eexists.
  destruct (decide (c' = c)) as [->|Hne].
  - rewrite lookup_alter_eq, Hc. simpl. by eexists.
  - rewrite lookup_alter_ne by done. by eexists.
Qed.

Lemma unsubscribe_all_computed us c cp w :
  computeds w !! c = Some cp →
  ∃ rg, computeds (foldl (λ w u, call_unsubscribe u w) w us) !! c = Some (c_with_reg rg cp).
Proof.
  revert w cp. induction us as [|u us IH]; intros w cp Hc; simpl.
  { exists (c_reg cp). by destruct cp. }
  destruct (call_unsubscribe_computed u c cp w Hc) as (rg & Hc1).
  destruct (IH _ _ Hc1) as (rg' & Hc2). by exists rg'.
Qed.

Lemma set_computeds_alter_id f c cp w :
  computeds w !! c = Some cp → f cp = cp → set_computeds (alter f c) w = w.
Proof.
  intros Hc Hf. destruct w as [sigs cps effs tr]. unfold set_computeds. simpl in *.
  f_equal. apply map_eq. intros i. destruct (decide (i = c)) as [->|Hne].
  - by rewrite lookup_alter_eq, Hc; simpl; rewrite Hf.
  - by rewrite lookup_alter_ne.
Qed.

(** X8. [Cleanup] of a Derived Cell calls each stored unsubscribe once, in
    the order of the dependencies, and nothing else: those subscriptions
    leave the dependencies' maps, every other subscription stays, the
    stored list is emptied, the cached value and the dirty flag are kept,
    and a second [Cleanup] changes nothing. *)
Theorem Cleanup_unsubscribes c w cp :
  computeds w !! c = Some cp →
  let w1 := computed_Cleanup c w in
  since w w1 = map EvUnsubscribe (c_unsubscribes cp)
  ∧ (∀ r id, subs_of r w1 !! id
             = if decide (UnsubCell r id ∈ c_unsubscribes cp) then None
               else subs_of r w !! id)
  ∧ (∃ rg, computeds w1 !! c = Some (c_with_unsubscribes [] (c_with_reg rg cp)))
  ∧ view_of w1 = view_of w
  ∧ computed_Cleanup c w1 = w1.
Proof.
  intros Hc w1. subst w1.
  set (w0 := foldl (λ w u, call_unsubscribe u w) w (c_unsubscribes cp)).
  assert (computed_Cleanup c w = set_computeds (alter (c_with_unsubscribes []) c) w0) as ->.
  { unfold computed_Cleanup. by rewrite Hc. }
  destruct (unsubscribe_all (c_unsubscribes cp) w) as (Ht & _ & Hv). fold w0 in Ht, Hv.
  destruct (unsubscribe_all_computed (c_unsubscribes cp) c cp w Hc) as (rg & Hc0).
  fold w0 in Hc0.
  assert (computeds (set_computeds (alter (c_with_unsubscribes []) c) w0) !! c
          = Some (c_with_unsubscribes [] (c_with_reg rg cp))) as Hc1.
  { simpl. by rewrite lookup_alter_eq, Hc0. }
  split; [|split; [|split; [|split]]].
  - by apply since_app.
  - intros r id. rewrite <- (unsubscribe_all_subs (c_unsubscribes cp) r id w). fold w0.
    unfold subs_of. destruct r as [s|c']; simpl; [done|].
    destruct (decide (c' = c)) as [->|Hne].
    + by rewrite lookup_alter_eq, Hc0.
    + by rewrite lookup_alter_ne.
  - by exists rg.
  - done.
  - unfold computed_Cleanup. rewrite Hc1. simpl foldl.
    by apply (set_computeds_alter_id _ c _ _ Hc1).
Qed.

Lemma Cleanup_unsubscribes_witness :
  let w1 := computed_Cleanup doubled.1 doubled.2 in
  subs_of (RSignal 0%nat) doubled.2 = {[ 0 := CbOnChange (MarkDirty doubled.1) ]}
  ∧ subs_of (RSignal 0%nat) w1 !! 0 = None
  ∧ c_cached <$> computeds w1 !! doubled.1 = Some (VInt 10)
  ∧ computed_Cleanup doubled.1 w1 = w1.
Proof.
  intros w1.
  assert (∃ cp, computeds doubled.2 !! doubled.1 = Some cp
            ∧ c_cached cp = VInt 10
            ∧ c_unsubscribes cp = [UnsubCell (RSignal 0%nat) 0]) as (cp & Hc & Hv & Hu).
  { vm_compute. eexists. repeat split. }
  destruct (Cleanup_unsubscribes doubled.1 doubled.2 cp Hc) as (_ & Hs & (rg & Hc1) & _ & Hi).
  fold w1 in Hs, Hc1, Hi. split; [by vm_compute|]. split; [|split; [|exact Hi]].
  - rewrite Hs, Hu, decide_True; [done|]. by left.
  - rewrite Hc1. simpl. by rewrite Hv.
Defined.

(** ** Effect without cleanup (effect.go, Effect) *)

Lemma wrappedFn_returns_no_cleanup fn : returns_no_cleanup (wrappedFn fn).
Proof. intros vw. unfold wrappedFn. destruct (fn vw) as [items [[]|p]]; done. Qed.

Lemma effect_run_cleanup_free e e' w :
  cleanup_free e w →
  cleanup_free e (effect_run e' w) ∧ extends (not_cleanup e) w (effect_run e' w).
Proof.
  intros (ef & He & Hc & Hfn). unfold effect_run.
  destruct (effects w !! e') as [ef'|] eqn:He'; [|split; [by exists ef | reflexivity]].
  destruct (e_stopped ef'); [split; [by exists ef | reflexivity]|].
  destruct (decide (e' = e)) as [->|Hne].
  - rewrite He in He'. injection He' as <-. rewrite Hc. simpl.
    pose proof (Hfn (view_of w)) as Hk.
    destruct (e_fn ef (view_of w)) as [items o]. simpl in Hk. split.
    + eexists. simpl. rewrite lookup_insert_eq. split; [done|]. split; [|done].
      simpl. destruct o; done.
    + eexists. split; [reflexivity|]. constructor; [done|].
      eapply Forall_impl; [apply benign_callback_events|]. by intros [].
  - destruct (e_fn ef' (view_of w)) as [items o]. split.
    + exists ef. simpl. by rewrite lookup_insert_ne.
    + eexists. split; [reflexivity|]. apply Forall_app. split.
      * destruct (e_cleanup ef') as [old|]; [|constructor].
        destruct (old (view_of w)) as [items' o']. constructor; [unfold not_cleanup; congruence|].
        eapply Forall_impl; [apply benign_callback_events|]. by intros [].
      * constructor; [done|].
        eapply Forall_impl; [apply benign_callback_events|]. by intros [].
Qed.

Lemma prim_cleanup_free allowed e w w' :
  prim allowed w w' → cleanup_free e w →
  cleanup_free e w' ∧ extends (not_cleanup e) w w'.
Proof.
  intros [r id v evs w0 _ Hevs|e' w0|c w0|c w0 v w0' HG] Hcf.
  - split; [done|]. apply extends_emit. constructor; [done|].
    eapply Forall_impl; [exact Hevs|]. by intros [].
  - by apply effect_run_cleanup_free.
  - split; [done|]. exists []. split; [simpl; by rewrite app_nil_r | constructor].
  - apply computed_Get_inv in HG as (cp & cp' & evs & Hc & HG & ->).
    apply computed_Get_cell_inv in HG as (_ & _ & _ & _ & _ & _ & Hevs & _).
    split; [done|]. exists evs. split; [done|]. eapply Forall_impl; [exact Hevs|].
    intros ev [->|Hb]; [done | by destruct ev].
Qed.

Lemma rtc_prim_cleanup_free allowed e w w' :
  rtc (prim allowed) w w' → cleanup_free e w →
  cleanup_free e w' ∧ extends (not_cleanup e) w w'.
Proof.
  apply (rtc_lift (prim allowed)
           (λ a b, cleanup_free e a → cleanup_free e b ∧ extends (not_cleanup e) a b)).
  - intros a Ha. split; [done | reflexivity].
  - intros a b c Hab Hbc Ha. destruct (Hab Ha) as [Hb Hab'].
    destruct (Hbc Hb) as [Hc Hbc']. split; [done | by etrans].
  - intros a b. apply prim_cleanup_free.
Qed.

Lemma apply_op_cleanup_free rank chain_depth e o w :
  cleanup_free e w →
  cleanup_free e (apply_op rank chain_depth o w)
  ∧ extends (not_cleanup e) w (apply_op rank chain_depth o w).
Proof.
  intros Hcf. destruct o as [m|c|r ctx fn|u|r id]; simpl.
  - destruct (mutate_inv rank chain_depth m w) as [->|(sg & Hs & _ & ->)];
      [split; [done | reflexivity]|].
    destruct (rtc_prim_cleanup_free any_cell e _ _
                (signal_notifySubscribers_prims rank chain_depth (mutation_target m)
                   (range_subscribers rank (subscribers (s_reg sg))) (mutation_value sg m)
                   (set_signals (insert (mutation_target m)
                                   (s_with_value (mutation_value sg m) sg)) w)) Hcf)
      as [Hcf' (evs & Htr & HQ)].
    split; [done|]. by exists evs.
  - destruct (computed_Get c w) as [[v w']|] eqn:HG; [|split; [done | reflexivity]].
    apply (prim_cleanup_free any_cell e w w'); [by eapply prim_get | done].
  - destruct (cell_Subscribe r ctx fn w) as [[u w']|] eqn:HS; [|split; [done | reflexivity]].
    apply cell_Subscribe_inv in HS as (_ & _ & _ & _ & _ & Htr & Heff & _).
    split.
    + destruct Hcf as (ef & He & Hc). exists ef. by rewrite Heff.
    + exists []. split; [by rewrite Htr, app_nil_r | constructor].
  - destruct (call_unsubscribe_inv u w) as (Htr & Heff & _). split.
    + destruct Hcf as (ef & He & Hc). exists ef. by rewrite Heff.
    + eexists. split; [exact Htr|]. by constructor.
  - split.
    + destruct Hcf as (ef & He & Hc). exists ef. by destruct r.
    + exists []. split; [by destruct r; simpl; rewrite app_nil_r | constructor].
Qed.

Lemma apply_ops_cleanup_free rank chain_depth e os w :
  cleanup_free e w →
  cleanup_free e (apply_ops rank chain_depth os w)
  ∧ extends (not_cleanup e) w (apply_ops rank chain_depth os w).
Proof.
  unfold apply_ops. revert w. induction os as [|o os IH]; intros w Hcf; simpl.
  { split; [done | reflexivity]. }
  destruct (apply_op_cleanup_free rank chain_depth e o w Hcf) as [Hcf' Hext].
  destruct (IH _ Hcf') as [Hcf'' Hext']. split; [done | by etrans].
Qed.

Lemma effect_Stop_cleanup_free e w :
  cleanup_free e w → extends (not_cleanup e) w (effect_Stop e w).
Proof.
  intros (ef & He & Hc & _). unfold effect_Stop. rewrite He.
  destruct (e_stopped ef); [reflexivity|]. rewrite Hc.
  match goal with
  | |- context [foldl _ ?wa (e_unsubscribes ef)] => set (w0 := wa)
  end.
  destruct (unsubscribe_all (e_unsubscribes ef) w0) as (Htr & _ & _).
  exists (map EvUnsubscribe (e_unsubscribes ef)). split.
  - simpl. rewrite Htr. subst w0. simpl. by rewrite app_nil_r.
  - apply Forall_forall. intros ev Hin. apply list_elem_of_fmap in Hin as (u & -> & _). done.
Qed.

Lemma EffectWithOptions_cleanup_free fn opts deps w e w1 :
  EffectWithOptions fn opts deps w = Returned (e, w1) →
  returns_no_cleanup fn →
  cleanup_free e w1 ∧ extends (not_cleanup e) w w1.
Proof.
  unfold EffectWithOptions.
  set (e0 := fresh (dom (effects w))).
  set (ef := {| e_fn := fn; e_cleanup := None; e_unsubscribes := [];
                e_stopped := false; e_onPanic := EffectOnPanic opts |}).
  set (w0 := set_effects (insert e0 ef) w).
  pose proof (track_all_effect e0 deps w0 ef) as Htrack.
  destruct (track_all (effect_trackDependency e0) deps w0) as [w'|p]; [|done].
  intros [= <- <-] Hfn.
  destruct Htrack as ((us & Hus) & _ & (evs & Htr & Hevs)).
  { subst w0. simpl. by rewrite lookup_insert_eq. }
  assert (cleanup_free e0 w') as Hcf by (by eexists; split; [exact Hus|]).
  destruct (effect_run_cleanup_free e0 e0 w' Hcf) as [Hcf' Hext].
  split; [done|]. etrans; [|exact Hext].
  exists evs. split; [done|]. eapply Forall_impl; [exact Hevs|]. by intros ev [k ->].
Qed.

(** X10. An Effect made by [Effect] (whose body returns nothing) never
    has a cleanup called: not when it is constructed, not in any cycle
    that later operations on the cells set off, and not by [Stop]; the
    cleanup slot of the struct stays nil throughout. *)
Theorem plain_Effect_never_cleans_up rank chain_depth fn deps w0 os :
  match Effect fn deps w0 with
  | Returned (e, w1) =>
      let w2 := apply_ops rank chain_depth os w1 in
      cleanups e (since w0 w2) = 0%nat
      ∧ cleanups e (since w0 (effect_Stop e w2)) = 0%nat
      ∧ e_cleanup <$> effects w2 !! e = Some None
  | Panicked _ => Exists reflect_panics deps
  end.
Proof.
  pose proof (EffectWithOptions_constructed (wrappedFn fn) {| EffectOnPanic := None |}
                deps w0) as Hcon.
  pose proof (EffectWithOptions_cleanup_free (wrappedFn fn) {| EffectOnPanic := None |}
                deps w0) as Hfree.
  unfold Effect, EffectWithCleanup.
  destruct (EffectWithOptions (wrappedFn fn) {| EffectOnPanic := None |} deps w0)
    as [[e w1]|p]; [|exact Hcon].
  destruct (Hfree e w1 eq_refl (wrappedFn_returns_no_cleanup fn)) as [Hcf Hext].
  destruct (apply_ops_cleanup_free rank chain_depth e os w1 Hcf) as [Hcf2 Hext2].
  pose proof (effect_Stop_cleanup_free e _ Hcf2) as Hext3.
  cbv zeta. split; [|split].
  - apply cleanups_none, (since_extends (not_cleanup e)). by etrans.
  - apply cleanups_none, (since_extends (not_cleanup e)). etrans; [exact Hext|]. by etrans.
  - destruct Hcf2 as (ef & He & Hc & _). by rewrite He; simpl; rewrite Hc.
Qed.

Lemma plain_Effect_never_cleans_up_witness :
  match immediate_execution with
  | Returned (e, w1) =>
      let w2 := apply_ops by_id 0 [OpMutate (MSet 0%nat (VInt 1))] w1 in
      bodies e (trace w2) = 2%nat ∧ cleanups e (since empty_world w2) = 0%nat
  | Panicked _ => False
  end.
Proof.
  pose proof (plain_Effect_never_cleans_up by_id 0
                (λ _, ([("executed"%string, VBool true)], Returned ()))
                [signal_AsReadonly 0%nat] (New TInt (VInt 0) empty_world).2
                [OpMutate (MSet 0%nat (VInt 1))]) as H.
  change (Effect _ _ _) with immediate_execution in H.
  destruct immediate_execution as [[e w1]|p] eqn:Hie; [|by vm_compute in Hie].
  destruct H as (H & _). split; [|exact H].
  vm_compute in Hie. injection Hie as <- <-. by vm_compute.
Defined.

(** ** Effects that a mutation re-runs (signal.go, notifySubscribers; effect.go, run) *)

Lemma effect_run_bodies e e' w ef :
  effects w !! e = Some ef →
  (∃ ef', effects (effect_run e' w) !! e = Some ef' ∧ e_stopped ef' = e_stopped ef)
  ∧ ∃ evs, trace (effect_run e' w) = trace w ++ evs
      ∧ bodies e evs = if bool_decide (e' = e) && negb (e_stopped ef) then 1%nat else 0%nat.
Proof.
  intros He. unfold effect_run.
  assert (∀ {A} items onPanic msg (o : outcome A),
            bodies e (user_events items ++ recovered onPanic msg o) = 0%nat) as Hben.
  { intros. apply bodies_none. eapply Forall_impl; [apply benign_callback_events|].
    by intros []. }
  destruct (decide (e' = e)) as [->|Hne].
  - rewrite He, bool_decide_eq_true_2 by done. destruct (e_stopped ef) eqn:Hs; simpl.
    { split; [by exists ef|]. exists []. by rewrite app_nil_r. }
    destruct (e_fn ef (view_of w)) as [items o]. split.
    { eexists. simpl. rewrite lookup_insert_eq. split; [done|]. done. }
    eexists. split; [reflexivity|]. rewrite bodies_app.
    change (EvBody e :: ?l) with ([EvBody e] ++ l). rewrite bodies_app, Hben.
    assert (bodies e [EvBody e] = 1%nat) as ->.
    { unfold bodies. by rewrite filter_cons_True. }
    destruct (e_cleanup ef) as [old|]; [|done].
    destruct (old (view_of w)) as [items' o'].
    change (EvCleanup e :: ?l) with ([EvCleanup e] ++ l). rewrite bodies_app, Hben.
    unfold bodies. by rewrite filter_cons_False.
  - rewrite bool_decide_eq_false_2 by done. simpl.
    destruct (effects w !! e') as [ef'|]; [|split; [by exists ef|]; exists []; by rewrite app_nil_r].
    destruct (e_stopped ef'); [split; [by exists ef|]; exists []; by rewrite app_nil_r|].
    destruct (e_fn ef' (view_of w)) as [items o]. split.
    { exists ef. simpl. by rewrite lookup_insert_ne. }
    eexists. split; [reflexivity|]. rewrite bodies_app.
    change (EvBody e' :: ?l) with ([EvBody e'] ++ l). rewrite bodies_app, Hben.
    assert (bodies e [EvBody e'] = 0%nat) as ->.
    { unfold bodies. rewrite filter_cons_False; [done|]. congruence. }
    destruct (e_cleanup ef') as [old|]; [|done].
    destruct (old (view_of w)) as [items' o'].
    change (EvCleanup e' :: ?l) with ([EvCleanup e'] ++ l). rewrite bodies_app, Hben.
    unfold bodies. by rewrite filter_cons_False.
Qed.

Lemma notify_round_bodies rank depth r onPanic msg callbacks v e :
  Forall (λ entry : N * callback, leaf entry.2) callbacks →
  ∀ w ef, effects w !! e = Some ef →
  let w' := notify_round (onChange_call rank depth) r onPanic msg callbacks v w in
  ∃ evs, trace w' = trace w ++ evs
    ∧ bodies e evs
      = if e_stopped ef then 0%nat
        else length (filter (λ kv : N * callback, runs e kv.2) callbacks).
Proof.
  unfold notify_round.
  induction 1 as [|[id fn] callbacks Hfn _ IH]; intros w ef He; cbn [foldl].
  { exists []. rewrite app_nil_r. split; [done|]. by destruct (e_stopped ef). }
  set (wa := call_callback (onChange_call rank depth) r onPanic msg v w (id, fn)).
  assert ((∃ ef', effects wa !! e = Some ef' ∧ e_stopped ef' = e_stopped ef)
          ∧ ∃ evs, trace wa = trace w ++ evs
              ∧ bodies e evs = if runs e fn && negb (e_stopped ef) then 1%nat else 0%nat)
    as ((ef' & He' & Hs') & evs & Htr & Hb).
  { subst wa. unfold call_callback. simpl fst. simpl snd. destruct fn as [f|[c|e']]; [|done|].
    - destruct (f (view_of w) v) as [items o]. split; [by exists ef|].
      eexists. split; [reflexivity|]. simpl.
      apply bodies_none. constructor; [done|].
      eapply Forall_impl; [apply benign_callback_events|]. by intros [].
    - assert (onChange_call rank depth (Run e') (emit [EvNotify r id v] w)
              = effect_run e' (emit [EvNotify r id v] w)) as -> by (by destruct depth).
      destruct (effect_run_bodies e e' (emit [EvNotify r id v] w) ef He)
        as (Hef & evs & Htr & Hb).
      split; [done|]. exists (EvNotify r id v :: evs). split.
      + rewrite Htr. simpl. by rewrite <- app_assoc.
      + change (EvNotify r id v :: evs) with ([EvNotify r id v] ++ evs).
        by rewrite bodies_app, Hb. }
  destruct (IH wa ef' He') as (evs' & Htr' & Hb').
  exists (evs ++ evs'). split; [by rewrite Htr', Htr, <- app_assoc|].
  rewrite bodies_app, Hb, Hb', Hs'. destruct (e_stopped ef); simpl.
  { by rewrite andb_false_r. }
  rewrite andb_true_r. destruct (runs e fn) eqn:Hr.
  - rewrite filter_cons_True; [done|]. cbn [snd]. by rewrite Hr.
  - rewrite filter_cons_False; [done|]. cbn [snd]. rewrite Hr. by intros [].
Qed.

(** X11. A mutation that takes effect runs an Effect once per
    subscription the Effect holds on the cell, so an Effect that lists the
    cell twice among its dependencies runs twice, and a stopped Effect that
    is still subscribed does not run.  (For a cell whose subscribers are
    user callbacks and Effects.) *)
Theorem Set_runs_subscribed_effects rank chain_depth s sg v w e ef :
  signals w !! s = Some sg →
  unchanged sg v = false →
  map_Forall (λ _ fn, leaf fn) (subscribers (s_reg sg)) →
  effects w !! e = Some ef →
  let w' := signal_Set rank chain_depth s v w in
  bodies e (since w w')
  = if e_stopped ef then 0%nat
    else length (filter (λ kv : N * callback, runs e kv.2)
                   (map_to_list (subscribers (s_reg sg)))).
Proof.
  intros Hs Hu Hleaf He w'. subst w'. unfold signal_Set. rewrite Hs, Hu.
  unfold signal_notifySubscribers. cbn zeta.
  change (signals (set_signals ?f w)) with (f (signals w)). rewrite lookup_insert_eq.
  simpl s_onPanic.
  destruct (notify_round_bodies rank (S chain_depth) (RSignal s) (s_onPanic sg)
              "signals: panic in subscriber"
              (range_subscribers rank (subscribers (s_reg sg))) v e) with
    (w := set_signals (insert s (s_with_value v sg)) w) (ef := ef)
    as (evs & Htr & Hb); [|done|].
  { apply Forall_forall. intros [id fn] Hin. apply elem_of_range_subscribers in Hin.
    by apply (Hleaf id fn). }
  rewrite (since_app w _ evs) by exact Htr. rewrite Hb.
  destruct (e_stopped ef); [done|]. by rewrite range_subscribers_perm.
Qed.

Lemma Set_runs_subscribed_effects_witness :
  let w' := signal_Set by_id 0 0%nat (VInt 1) listed_twice_world in
  bodies 0%nat (since listed_twice_world w') = 2%nat.
Proof.
  intros w'.
  assert (∃ sg ef, signals listed_twice_world !! 0%nat = Some sg
            ∧ effects listed_twice_world !! 0%nat = Some ef
            ∧ unchanged sg (VInt 1) = false
            ∧ e_stopped ef = false
            ∧ map_to_list (subscribers (s_reg sg))
              = [(1, CbOnChange (Run 0)); (0, CbOnChange (Run 0))])
    as (sg & ef & Hs & He & Hu & Hst & Hsubs).
  { vm_compute. eexists _, _. repeat split. }
  pose proof (Set_runs_subscribed_effects by_id 0 0%nat sg (VInt 1) listed_twice_world
                0%nat ef Hs Hu) as H.
  fold w' in H. rewrite H; [|
    intros id fn Hid; apply elem_of_map_to_list in Hid; rewrite Hsubs in Hid;
    apply elem_of_cons in Hid as [[= _ ->]|Hid]; [done|];
    apply elem_of_cons in Hid as [[= _ ->]|Hid]; [done | by apply elem_of_nil in Hid]
    | exact He].
  by rewrite Hst, Hsubs.
Defined.

(** ** Derived Cells that nothing marks dirty (computed.go) *)

Lemma leaves_alone_refl c w : leaves_alone c w w.
Proof. split; [done | reflexivity]. Qed.

Lemma leaves_alone_trans c w1 w2 w3 :
  leaves_alone c w1 w2 → leaves_alone c w2 w3 → leaves_alone c w1 w3.
Proof. intros [H1 E1] [H2 E2]. split; [by rewrite H2 | by etrans]. Qed.

Lemma unwatched_registry c w w' :
  (∀ r, registry_of r w' = registry_of r w) → unwatched c w → unwatched c w'.
Proof. intros H Hu r id fn. unfold subs_of. rewrite H. apply Hu. Qed.

Lemma benign_not_compute c ev : benign ev → not_compute c ev.
Proof. by destruct ev. Qed.

Lemma notify_round_unwatched rank d c r onPanic msg callbacks v :
  (∀ k w, marks c (CbOnChange k) = false → unwatched c w →
          leaves_alone c w (onChange_call rank d k w)) →
  Forall (λ entry : N * callback, marks c entry.2 = false) callbacks →
  ∀ w, unwatched c w →
    leaves_alone c w (notify_round (onChange_call rank d) r onPanic msg callbacks v w).
Proof.
  intros Hnested. unfold notify_round.
  induction 1 as [|[id fn] callbacks Hfn _ IH]; intros w Hu; cbn [foldl].
  { apply leaves_alone_refl. }
  set (wa := call_callback (onChange_call rank d) r onPanic msg v w (id, fn)).
  assert (leaves_alone c w wa ∧ unwatched c wa) as [Hla Hua].
  { subst wa. unfold call_callback. simpl fst. simpl snd in *. destruct fn as [f|k].
    - destruct (f (view_of w) v) as [items o]. split.
      + split; [done|]. apply extends_emit. constructor; [done|].
        eapply Forall_impl; [apply benign_callback_events | apply benign_not_compute].
      + eapply unwatched_registry; [|exact Hu]. intros r'. apply registry_of_emit.
    - assert (unwatched c (emit [EvNotify r id v] w)) as Hu'.
      { eapply unwatched_registry; [|exact Hu]. intros r'. apply registry_of_emit. }
      split.
      + eapply leaves_alone_trans; [|by apply Hnested].
        split; [done|]. apply extends_emit. by constructor.
      + eapply unwatched_registry; [|exact Hu']. intros r'.
        apply (rtc_prim_registry is_computed), onChange_call_prims. }
  eapply leaves_alone_trans; [exact Hla | by apply IH].
Qed.

Lemma onChange_call_unwatched rank c depth k w :
  marks c (CbOnChange k) = false → unwatched c w →
  leaves_alone c w (onChange_call rank depth k w).
Proof.
  revert k w. induction depth as [|d IH]; intros [c'|e] w Hk Hu; simpl.
  - apply leaves_alone_refl.
  - destruct (effect_run_cycle e w) as (Hc & _ & evs & Htr & Hevs).
    split; [by rewrite Hc|]. exists evs. split; [done|].
    eapply Forall_impl; [exact Hevs|]. by intros [].
  - simpl in Hk. apply bool_decide_eq_false in Hk.
    unfold computed_markDirty.
    set (w1 := set_computeds (alter (c_with_dirty true) c') w).
    assert (leaves_alone c w w1) as H1.
    { split; [simpl; by rewrite lookup_alter_ne|]. exists []. by rewrite app_nil_r. }
    destruct (computed_Get c' w1) as [[nv w2]|] eqn:HG; [|done].
    assert (∀ r, registry_of r w2 = registry_of r w) as Hreg.
    { intros r. rewrite (prim_registry any_cell w1 w2 r) by (by eapply prim_get).
      apply (prim_registry any_cell w w1 r), prim_dirty. }
    assert (unwatched c w2) as Hu2 by (by eapply unwatched_registry).
    pose proof HG as HG'.
    apply computed_Get_inv in HG' as (cp & cp' & evs & Hc1 & HGc & Hw2).
    apply computed_Get_cell_inv in HGc as (_ & _ & _ & _ & _ & _ & Hevs & _).
    assert (leaves_alone c w1 w2) as H2.
    { rewrite Hw2. split; [simpl; by rewrite lookup_insert_ne|].
      exists evs. split; [done|]. eapply Forall_impl; [exact Hevs|].
      intros ev [->|Hb]; [unfold not_compute; congruence | by apply benign_not_compute]. }
    eapply leaves_alone_trans; [exact H1|]. eapply leaves_alone_trans; [exact H2|].
    unfold computed_notifySubscribers.
    destruct (computeds w2 !! c') as [cp2|] eqn:Hc2; [|apply leaves_alone_refl].
    apply notify_round_unwatched; [exact IH| |exact Hu2].
    apply Forall_forall. intros [id fn] Hin. apply elem_of_range_subscribers in Hin.
    apply (Hu2 (RComputed c') id fn). unfold subs_of. simpl. by rewrite Hc2.
  - destruct (effect_run_cycle e w) as (Hc & _ & evs & Htr & Hevs).
    split; [by rewrite Hc|]. exists evs. split; [done|].
    eapply Forall_impl; [exact Hevs|]. by intros [].
Qed.

Lemma mutate_unwatched rank chain_depth c m w :
  unwatched c w →
  leaves_alone c w (mutate rank chain_depth m w)
  ∧ unwatched c (mutate rank chain_depth m w).
Proof.
  intros Hu. split.
  2: { eapply unwatched_registry; [|exact Hu]. intros r. apply mutate_registry. }
  destruct (mutate_inv rank chain_depth m w) as [->|(sg & Hs & _ & ->)];
    [apply leaves_alone_refl|].
  set (s := mutation_target m) in *. set (v := mutation_value sg m).
  set (w1 := set_signals (insert s (s_with_value v sg)) w).
  assert (unwatched c w1) as Hu1.
  { eapply unwatched_registry; [|exact Hu]. intros [s'|c']; simpl; [|done].
    destruct (decide (s' = s)) as [->|Hne].
    - by rewrite lookup_insert_eq, Hs.
    - by rewrite lookup_insert_ne. }
  unfold signal_notifySubscribers.
  assert (signals w1 !! s = Some (s_with_value v sg)) as -> by (simpl; by rewrite lookup_insert_eq).
  assert (leaves_alone c w1
            (notify_round (onChange_call rank (S chain_depth)) (RSignal s)
               (s_onPanic (s_with_value v sg)) "signals: panic in subscriber"
               (range_subscribers rank (subscribers (s_reg sg))) v w1)) as [H1 H2].
  { apply notify_round_unwatched; [intros; by apply onChange_call_unwatched| |exact Hu1].
    apply Forall_forall. intros [id fn] Hin. apply elem_of_range_subscribers in Hin.
    apply (Hu (RSignal s) id fn). unfold subs_of. simpl. by rewrite Hs. }
  split; [exact H1 | exact H2].
Qed.

Lemma apply_op_unwatched rank chain_depth c cp o w :
  reads_or_writes o →
  computeds w !! c = Some cp → c_dirty cp = false → unwatched c w →
  leaves_alone c w (apply_op rank chain_depth o w)
  ∧ unwatched c (apply_op rank chain_depth o w).
Proof.
  intros Ho Hc Hd Hu. destruct o as [m|c'| | |]; try done; simpl.
  { by apply mutate_unwatched. }
  destruct (computed_Get c' w) as [[v w']|] eqn:HG; [|split; [apply leaves_alone_refl|done]].
  split.
  - destruct (decide (c' = c)) as [->|Hne].
    + rewrite (computed_Get_clean c w cp Hc Hd) in HG. injection HG as _ <-.
      apply leaves_alone_refl.
    + apply computed_Get_inv in HG as (cp0 & cp' & evs & _ & HGc & ->).
      apply computed_Get_cell_inv in HGc as (_ & _ & _ & _ & _ & _ & Hevs & _).
      split; [simpl; by rewrite lookup_insert_ne|].
      exists evs. split; [done|]. eapply Forall_impl; [exact Hevs|].
      intros ev [->|Hb]; [unfold not_compute; congruence | by apply benign_not_compute].
  - eapply unwatched_registry; [|exact Hu]. intros r.
    apply (prim_registry any_cell). by eapply prim_get.
Qed.

Lemma apply_ops_unwatched rank chain_depth c cp os w :
  Forall reads_or_writes os →
  computeds w !! c = Some cp → c_dirty cp = false → unwatched c w →
  leaves_alone c w (apply_ops rank chain_depth os w).
Proof.
  intros Hos. unfold apply_ops. revert w.
  induction Hos as [|o os Ho _ IH]; intros w Hc Hd Hu; simpl.
  { apply leaves_alone_refl. }
  destruct (apply_op_unwatched rank chain_depth c cp o w Ho Hc Hd Hu) as [H1 Hu1].
  eapply leaves_alone_trans; [exact H1|]. apply IH; [|done..].
  destruct H1 as [H1 _]. by rewrite H1.
Qed.

Lemma unwatched_intro c w :
  map_Forall (λ _ sg, map_Forall (λ _ fn, marks c fn = false) (subscribers (s_reg sg)))
    (signals w) →
  map_Forall (λ _ cp, map_Forall (λ _ fn, marks c fn = false) (subscribers (c_reg cp)))
    (computeds w) →
  unwatched c w.
Proof.
  intros Hs Hc [s|c'] id fn; unfold subs_of; simpl.
  - destruct (signals w !! s) as [sg|] eqn:Hsg; simpl; [|by rewrite lookup_empty].
    apply (Hs s sg Hsg).
  - destruct (computeds w !! c') as [cp|] eqn:Hcp; simpl; [|by rewrite lookup_empty].
    apply (Hc c' cp Hcp).
Qed.

(** X12. A Derived Cell that has been read is recomputed only through the
    subscriptions its constructor made: when the cell is clean and no
    subscriber map of a cell of the package holds the wrapper of its
    [markDirty] (it was given no dependency, or none that can be
    subscribed to), no history of [Set], [Update] and [Get] calls writes
    its struct or calls its compute function, and [Get()] keeps returning
    the cached value, whatever the compute function would return. *)
Theorem unwatched_cell_is_frozen rank chain_depth c cp w os :
  computeds w !! c = Some cp →
  c_dirty cp = false →
  unwatched c w →
  Forall reads_or_writes os →
  let w' := apply_ops rank chain_depth os w in
  computeds w' !! c = Some cp
  ∧ recomputes c (since w w') = 0%nat
  ∧ computed_Get c w' = Some (c_cached cp, w').
Proof.
  intros Hc Hd Hu Hos w'.
  destruct (apply_ops_unwatched rank chain_depth c cp os w Hos Hc Hd Hu) as [Hc' Hext].
  fold w' in Hc', Hext. rewrite Hc in Hc'. split; [done|]. split.
  - apply recomputes_none, (since_extends (not_compute c)), Hext.
  - by apply computed_Get_clean.
Qed.

Lemma unwatched_cell_is_frozen_witness :
  let b := undeclared.1 in
  let w' := apply_ops by_id 0 [OpGet b; OpMutate (MSet 0%nat (VInt 7)); OpGet b]
              undeclared.2 in
  signal_Get 0%nat w' = Some (VInt 7)
  ∧ (∀ cp, computeds w' !! b = Some cp → c_compute cp (view_of w') = Returned (VInt 14))
  ∧ computed_Get b w' = Some (VInt 10, w').
Proof.
  intros b w'.
  assert (∃ cp, computeds undeclared.2 !! b = Some cp
            ∧ c_dirty cp = false ∧ c_cached cp = VInt 10) as (cp & Hc & Hd & Hv).
  { vm_compute. eexists. repeat split. }
  assert (unwatched b undeclared.2) as Hu.
  { apply unwatched_intro; refine (bool_decide_unpack _ _); by vm_compute. }
  destruct (unwatched_cell_is_frozen by_id 0 b cp undeclared.2
              [OpGet b; OpMutate (MSet 0%nat (VInt 7)); OpGet b] Hc Hd Hu)
    as (Hc' & _ & HG); [by repeat constructor|].
  fold w' in Hc', HG. split; [by vm_compute|]. split.
  - intros cp' Hcp'. rewrite Hc' in Hcp'. injection Hcp' as <-.
    vm_compute in Hc. injection Hc as <-. by vm_compute.
  - by rewrite <- Hv.
Defined.

Lemma computed_Cleanup_inv c w cp :
  computeds w !! c = Some cp →
  trace (computed_Cleanup c w) = trace w ++ map EvUnsubscribe (c_unsubscribes cp)
  ∧ (∃ rg, computeds (computed_Cleanup c w) !! c
           = Some (c_with_unsubscribes [] (c_with_reg rg cp)))
  ∧ ∀ r id, subs_of r (computed_Cleanup c w) !! id
            = if decide (UnsubCell r id ∈ c_unsubscribes cp) then None
              else subs_of r w !! id.
Proof.
  intros Hc. unfold computed_Cleanup. rewrite Hc.
  set (w0 := foldl (λ w u, call_unsubscribe u w) w (c_unsubscribes cp)).
  destruct (unsubscribe_all (c_unsubscribes cp) w) as (Ht & _ & _). fold w0 in Ht.
  destruct (unsubscribe_all_computed (c_unsubscribes cp) c cp w Hc) as (rg & Hc0).
  fold w0 in Hc0. split; [done|]. split.
  - exists rg. simpl. by rewrite lookup_alter_eq, Hc0.
  - intros r id. rewrite <- (unsubscribe_all_subs (c_unsubscribes cp) r id w). fold w0.
    unfold subs_of. destruct r as [s|c']; simpl; [done|].
    destruct (decide (c' = c)) as [->|Hne].
    + by rewrite lookup_alter_eq, Hc0.
    + by rewrite lookup_alter_ne.
Qed.

Lemma tracked_intro c w cp :
  computeds w !! c = Some cp →
  map_Forall (λ s sg, map_Forall (λ id fn, marks c fn = true →
                                    UnsubCell (RSignal s) id ∈ c_unsubscribes cp)
                        (subscribers (s_reg sg))) (signals w) →
  map_Forall (λ c' cp', map_Forall (λ id fn, marks c fn = true →
                                      UnsubCell (RComputed c') id ∈ c_unsubscribes cp)
                          (subscribers (c_reg cp'))) (computeds w) →
  tracked c w.
Proof.
  intros Hcp Hs Hc. exists cp. split; [done|].
  intros [s|c'] id fn; unfold subs_of; simpl.
  - destruct (signals w !! s) as [sg|] eqn:Hsg; simpl; [|by rewrite lookup_empty].
    apply (Hs s sg Hsg).
  - destruct (computeds w !! c') as [cp'|] eqn:Hcp'; simpl; [|by rewrite lookup_empty].
    apply (Hc c' cp' Hcp').
Qed.

(** X13. [Cleanup] detaches a Derived Cell that has been read for good:
    when the cell is clean and every subscription that holds the wrapper
    of its [markDirty] was recorded in [unsubscribes], after [Cleanup] no
    subscriber map of a cell of the package holds that wrapper, so no
    history of [Set], [Update] and [Get] calls writes the struct or calls
    the compute function again, and [Get()] keeps returning the value the
    cell had cached. *)
Theorem Cleanup_detaches rank chain_depth c cp w os :
  computeds w !! c = Some cp →
  c_dirty cp = false →
  tracked c w →
  Forall reads_or_writes os →
  let w1 := computed_Cleanup c w in
  let w2 := apply_ops rank chain_depth os w1 in
  unwatched c w1
  ∧ computeds w2 !! c = computeds w1 !! c
  ∧ recomputes c (since w w2) = 0%nat
  ∧ computed_Get c w2 = Some (c_cached cp, w2).
Proof.
  intros Hc Hd (cp' & Hc' & Htr) Hos w1 w2. rewrite Hc in Hc'. injection Hc' as <-.
  destruct (computed_Cleanup_inv c w cp Hc) as (Ht1 & (rg & Hc1) & Hsubs).
  fold w1 in Ht1, Hc1, Hsubs.
  assert (unwatched c w1) as Hu.
  { intros r id fn Hid. rewrite Hsubs in Hid.
    destruct (decide (UnsubCell r id ∈ c_unsubscribes cp)) as [|Hnin]; [done|].
    destruct (marks c fn) eqn:Hm; [|done]. destruct Hnin. by apply (Htr r id fn). }
  destruct (apply_ops_unwatched rank chain_depth c _ os w1 Hos Hc1 Hd Hu) as [Hc2 Hext].
  fold w2 in Hc2, Hext. split; [done|]. split; [done|]. split.
  - apply recomputes_none, (since_extends (not_compute c)).
    etrans; [|exact Hext]. eexists. split; [exact Ht1|].
    apply Forall_forall. intros ev Hin. apply list_elem_of_fmap in Hin as (u & -> & _). done.
  - rewrite Hc1 in Hc2.
    by rewrite (computed_Get_clean c w2 _ Hc2 Hd).
Qed.

Lemma Cleanup_detaches_witness :
  let b := doubled.1 in
  let os := [OpGet b; OpMutate (MSet 0%nat (VInt 7)); OpGet b] in
  let attached := apply_ops by_id 0 os doubled.2 in
  let detached := apply_ops by_id 0 os (computed_Cleanup b doubled.2) in
  fst <$> computed_Get b attached = Some (VInt 14)
  ∧ computed_Get b detached = Some (VInt 10, detached).
Proof.
  intros b os attached detached.
  assert (tracked b doubled.2) as Ht.
  { eapply tracked_intro; [vm_compute; reflexivity|..];
      refine (bool_decide_unpack _ _); by vm_compute. }
  assert (∃ cp, computeds doubled.2 !! b = Some cp
            ∧ c_dirty cp = false ∧ c_cached cp = VInt 10) as (cp & Hc & Hd & Hv).
  { vm_compute. eexists. repeat split. }
  destruct (Cleanup_detaches by_id 0 b cp doubled.2 os Hc Hd Ht) as (_ & _ & _ & H);
    [by repeat constructor|].
  fold detached in H. split; [by vm_compute|]. by rewrite <- Hv.
Defined.

(** ** The constructors record what they subscribe (computed.go, effect.go, internal.go) *)

Lemma marks_true c fn : marks c fn = true ↔ fn = CbOnChange (MarkDirty c).
Proof.
  destruct fn as [f|[c'|e]]; simpl; try (split; [done | by intros [=]]).
  rewrite bool_decide_eq_true. split; [by intros -> | by intros [= ->]].
Qed.

Lemma trackDependencyHelper_registry d k w u w' :
  trackDependencyHelper d k w = Returned (u, w') →
  (∀ r, registry_of r w' = registry_of r w)
  ∨ ∃ r rg, registry_of r w = Some rg
      ∧ u = UnsubCell r (nextID rg)
      ∧ registry_of r w' = Some (registry_Subscribe Background (CbOnChange k) rg).2
      ∧ ∀ r', r' ≠ r → registry_of r' w' = registry_of r' w.
Proof.
  intros Ht. destruct (dep_cell w d) as [r|] eqn:Hd.
  - right. destruct (dep_cell_inv w d r Hd) as (T & Hm & Hi & Hcall & [rg Hrg]).
    assert (∃ uw, cell_Subscribe r Background (CbOnChange k) w = Some uw) as [[u0 w0] HS].
    { destruct r as [s|c]; simpl in *.
      - unfold signal_Subscribe. destruct (signals w !! s); [by eexists | done].
      - unfold computed_Subscribe. destruct (computeds w !! c); [by eexists | done]. }
    pose proof (cell_Subscribe_inv r _ _ w u0 w0 HS) as (rg0 & Hrg0 & -> & Hr' & Hother & _).
    rewrite Hrg in Hrg0. injection Hrg0 as <-.
    assert (trackDependencyHelper d k w = Returned (UnsubCell r (nextID rg), w0)) as Ht'.
    { unfold trackDependencyHelper. rewrite Hm, Hi, Hcall, HS.
      destruct (decide _); [done|]. destruct T; try done;
        unfold subscribeAnyType; rewrite Hm, Hcall, HS; simpl; by destruct d. }
    rewrite Ht' in Ht. injection Ht as <- <-. by exists r, rg.
  - left. destruct (trackDependencyHelper_world d k w u w' Ht) as [->|(u' & HS)]; [done|].
    destruct d as [|s|s|c|f]; simpl in HS, Hd; try done.
    + unfold signal_SubscribeForever, signal_Subscribe in HS. by destruct (signals w !! s).
    + unfold signal_SubscribeForever, signal_Subscribe in HS. by destruct (signals w !! s).
    + unfold computed_SubscribeForever, computed_Subscribe in HS.
      by destruct (computeds w !! c).
    + injection HS as _ <-. intros r. apply registry_of_emit.
Qed.

Lemma trackDependencyHelper_recorded d k w u w' us :
  trackDependencyHelper d k w = Returned (u, w') →
  recorded k us w → recorded k (us ++ [u]) w'.
Proof.
  intros Ht Hrec r id Hid. apply elem_of_app.
  destruct (trackDependencyHelper_registry d k w u w' Ht)
    as [Hsame|(r0 & rg & Hrg & -> & Hrg' & Hother)].
  - left. apply Hrec. unfold subs_of in *. by rewrite <- Hsame.
  - destruct (decide (r = r0)) as [->|Hne].
    + unfold subs_of in Hid. rewrite Hrg' in Hid. simpl in Hid.
      destruct (decide (id = nextID rg)) as [->|Hid'].
      * right. apply elem_of_cons. by left.
      * left. apply Hrec. unfold subs_of. rewrite Hrg. simpl.
        by rewrite lookup_insert_ne in Hid.
    + left. apply Hrec. unfold subs_of in *. by rewrite <- (Hother r Hne).
Qed.

Lemma subs_of_alter_unsubscribes r f c w :
  subs_of r (set_computeds (alter (λ cp, c_with_unsubscribes (f cp) cp) c) w) = subs_of r w.
Proof.
  unfold subs_of. destruct r as [s|c']; simpl; [done|].
  destruct (decide (c' = c)) as [->|Hne].
  - rewrite lookup_alter_eq. by destruct (computeds w !! c).
  - by rewrite lookup_alter_ne.
Qed.

Lemma track_all_computed_recorded c deps w cp :
  computeds w !! c = Some cp →
  recorded (MarkDirty c) (c_unsubscribes cp) w →
  ∀ w', track_all (computed_trackDependency c) deps w = Returned w' →
    ∃ cp', computeds w' !! c = Some cp'
      ∧ recorded (MarkDirty c) (c_unsubscribes cp') w'.
Proof.
  revert w cp. induction deps as [|d deps IH]; intros w cp Hc Hrec w'; simpl.
  { intros [= <-]. by exists cp. }
  unfold computed_trackDependency at 1.
  destruct (trackDependencyHelper d (MarkDirty c) w) as [[u w1]|p] eqn:Ht; [|done].
  assert (∃ rg, computeds w1 !! c = Some (c_with_reg rg cp)) as [rg Hc1].
  { destruct (trackDependencyHelper_world d _ w u w1 Ht) as [->|(u' & HS)].
    - exists (c_reg cp). rewrite Hc. by destruct cp.
    - by eapply dep_SubscribeForever_computed. }
  apply (IH _ (c_with_unsubscribes (c_unsubscribes cp ++ [u]) (c_with_reg rg cp))).
  - simpl. by rewrite lookup_alter_eq, Hc1.
  - intros r id. rewrite (subs_of_alter_unsubscribes r (λ cp, c_unsubscribes cp ++ [u])).
    by apply (trackDependencyHelper_recorded d _ w u w1).
Qed.

(** X14. The constructor of a Derived Cell records every subscription it
    makes: when no subscriber map refers to the cell before it exists,
    each subscription that holds the wrapper of its [markDirty] afterwards
    has its Unsubscribe closure in [unsubscribes], so [Cleanup] right after
    construction leaves no such subscription behind. *)
Theorem Computed_records_subscriptions T compute opts deps w0 c w1 :
  ComputedWithOptions T compute opts deps w0 = Returned (c, w1) →
  unwatched c w0 →
  tracked c w1 ∧ unwatched c (computed_Cleanup c w1).
Proof.
  unfold ComputedWithOptions.
  set (c0 := fresh (dom (computeds w0))).
  set (cp0 := {| c_elem := T; c_compute := compute; c_cached := zero_value T;
                 c_dirty := true; c_unsubscribes := []; c_reg := empty_registry;
                 c_onPanic := OnPanic opts |}).
  set (wa := set_computeds (insert c0 cp0) w0).
  destruct (track_all (computed_trackDependency c0) deps wa) as [w'|p] eqn:Htrack; [|done].
  intros [= <- <-] Hu.
  destruct (track_all_computed_recorded c0 deps wa cp0) with (w' := w')
    as (cp & Hc & Hrec); [by subst wa; simpl; rewrite lookup_insert_eq| |done|].
  { intros r id Hid. exfalso.
    assert (subs_of r wa !! id = Some (CbOnChange (MarkDirty c0)) → False) as Hno; [|auto].
    unfold subs_of. destruct r as [s|c']; simpl.
    - intros H. specialize (Hu (RSignal s) id _ H). simpl in Hu.
      by rewrite bool_decide_eq_true_2 in Hu.
    - destruct (decide (c' = c0)) as [->|Hne].
      + rewrite lookup_insert_eq. simpl. by rewrite lookup_empty.
      + rewrite lookup_insert_ne by done. intros H.
        specialize (Hu (RComputed c') id _ H). simpl in Hu.
        by rewrite bool_decide_eq_true_2 in Hu. }
  assert (tracked c0 w') as Ht.
  { exists cp. split; [done|]. intros r id fn Hid Hm. apply marks_true in Hm as ->.
    by apply Hrec. }
  split; [done|].
  destruct (computed_Cleanup_inv c0 w' cp Hc) as (_ & _ & Hsubs).
  intros r id fn Hid. rewrite Hsubs in Hid.
  destruct (decide (UnsubCell r id ∈ c_unsubscribes cp)) as [|Hnin]; [done|].
  destruct (marks c0 fn) eqn:Hm; [|done]. destruct Hnin.
  apply marks_true in Hm as ->. by apply Hrec.
Qed.

Lemma Computed_records_subscriptions_witness :
  let w0 := (New TInt (VInt 5) empty_world).2 in
  ∃ w1, Computed TInt (λ vw, Returned (twice 0%nat vw)) [signal_AsReadonly 0%nat] w0
        = Returned (0%nat, w1)
    ∧ subs_of (RSignal 0%nat) w1 !! 0 = Some (CbOnChange (MarkDirty 0))
    ∧ tracked 0%nat w1
    ∧ unwatched 0%nat (computed_Cleanup 0%nat w1).
Proof.
  intros w0. eexists. split; [vm_compute; reflexivity|]. split; [by vm_compute|].
  apply (Computed_records_subscriptions TInt (λ vw, Returned (twice 0%nat vw))
           {| Equal := None; OnPanic := None |} [signal_AsReadonly 0%nat] w0).
  - vm_compute. reflexivity.
  - apply unwatched_intro; refine (bool_decide_unpack _ _); by vm_compute.
Defined.

Lemma track_all_effect_recorded e deps w ef :
  effects w !! e = Some ef →
  recorded (Run e) (e_unsubscribes ef) w →
  ∀ w', track_all (effect_trackDependency e) deps w = Returned w' →
    ∃ us, effects w' !! e = Some (e_with_unsubscribes us ef) ∧ recorded (Run e) us w'.
Proof.
  revert w ef. induction deps as [|d deps IH]; intros w ef He Hrec w'; simpl.
  { intros [= <-]. exists (e_unsubscribes ef). split; [|done]. rewrite He. by destruct ef. }
  unfold effect_trackDependency at 1.
  pose proof (trackDependencyHelper_spec d (Run e) w) as Hd.
  destruct (trackDependencyHelper d (Run e) w) as [[u w1]|p] eqn:Ht; [|done].
  destruct Hd as (Heff & _). intros Htrack.
  apply IH with (ef := e_with_unsubscribes (e_unsubscribes ef ++ [u]) ef) in Htrack
    as (us & He' & Hrec').
  - by exists us.
  - simpl. by rewrite lookup_alter_eq, Heff, He.
  - intros r id. rewrite subs_of_set_effects.
    by apply (trackDependencyHelper_recorded d _ w u w1).
Qed.

(** The Effect [e] is live with [us] as its stored Unsubscribe closures. *)
Lemma prim_unsubscribes allowed e us w w' :
  prim allowed w w' →
  (∃ ef, effects w !! e = Some ef ∧ e_unsubscribes ef = us ∧ e_stopped ef = false) →
  ∃ ef, effects w' !! e = Some ef ∧ e_unsubscribes ef = us ∧ e_stopped ef = false.
Proof.
  intros [r id v evs w0 _ _|e' w0|c w0|c w0 v w0' HG] (ef & He & Hus & Hs);
    try (by exists ef).
  - destruct (effect_run_inv e' w0) as [->|(ef' & k & evs & He' & Hs' & -> & _)];
      [by exists ef|].
    destruct (decide (e' = e)) as [->|Hne].
    + rewrite He in He'. injection He' as <-. eexists. simpl. rewrite lookup_insert_eq.
      by split.
    + exists ef. simpl. by rewrite lookup_insert_ne.
  - apply computed_Get_inv in HG as (cp & cp' & evs & _ & _ & ->). by exists ef.
Qed.

Lemma mutate_all_unsubscribes rank chain_depth e us ms w :
  (∃ ef, effects w !! e = Some ef ∧ e_unsubscribes ef = us ∧ e_stopped ef = false) →
  (∃ ef, effects (mutate_all rank chain_depth ms w) !! e = Some ef
     ∧ e_unsubscribes ef = us ∧ e_stopped ef = false)
  ∧ ∀ r, registry_of r (mutate_all rank chain_depth ms w) = registry_of r w.
Proof.
  unfold mutate_all. revert w. induction ms as [|m ms IH]; intros w H; simpl; [done|].
  assert (∃ ef, effects (mutate rank chain_depth m w) !! e = Some ef
            ∧ e_unsubscribes ef = us ∧ e_stopped ef = false) as H1.
  { destruct (mutate_inv rank chain_depth m w) as [->|(sg & Hs & _ & ->)]; [done|].
    eapply (rtc_lift (prim any_cell)
              (λ a b, (∃ ef, effects a !! e = Some ef ∧ e_unsubscribes ef = us
                         ∧ e_stopped ef = false) →
                      ∃ ef, effects b !! e = Some ef ∧ e_unsubscribes ef = us
                        ∧ e_stopped ef = false));
      [by intros ? | intros ??? Hab Hbc Ha; by apply Hbc, Hab
      | intros a b; apply prim_unsubscribes
      | apply signal_notifySubscribers_prims | exact H]. }
  destruct (IH _ H1) as [H2 Hreg]. split; [done|].
  intros r. by rewrite Hreg, mutate_registry.
Qed.

(** X15. [Stop] leaves no subscription of the Effect behind: the
    constructor records every subscription it makes, mutations in between
    change neither the subscriber maps nor the record, and [Stop] cancels
    all of them, so afterwards no subscriber map holds the wrapper of the
    Effect's [run]. *)
Theorem Stop_leaves_no_subscription rank chain_depth fn opts deps w0 e w1 ms :
  EffectWithOptions fn opts deps w0 = Returned (e, w1) →
  (∀ r id, subs_of r w0 !! id ≠ Some (CbOnChange (Run e))) →
  let w2 := mutate_all rank chain_depth ms w1 in
  (∀ r, subs_of r w2 = subs_of r w1)
  ∧ ∀ r id, subs_of r (effect_Stop e w2) !! id ≠ Some (CbOnChange (Run e)).
Proof.
  unfold EffectWithOptions.
  set (e0 := fresh (dom (effects w0))).
  set (ef0 := {| e_fn := fn; e_cleanup := None; e_unsubscribes := [];
                 e_stopped := false; e_onPanic := EffectOnPanic opts |}).
  set (wa := set_effects (insert e0 ef0) w0).
  destruct (track_all (effect_trackDependency e0) deps wa) as [w'|p] eqn:Htrack; [|done].
  intros [= <- <-] Hnone.
  set (w2 := mutate_all rank chain_depth ms (effect_run e0 w')).
  destruct (track_all_effect_recorded e0 deps wa ef0) with (w' := w')
    as (us & He & Hrec); [by subst wa; simpl; rewrite lookup_insert_eq| |done|].
  { intros r id Hid. subst wa. rewrite subs_of_set_effects in Hid. by destruct (Hnone r id). }
  assert ((∃ ef, effects (effect_run e0 w') !! e0 = Some ef
             ∧ e_unsubscribes ef = us ∧ e_stopped ef = false)
          ∧ ∀ r, registry_of r (effect_run e0 w') = registry_of r w') as [Hlive Hreg1].
  { split.
    - apply (prim_unsubscribes any_cell e0 us w'); [apply prim_run|]. by eexists.
    - intros r. apply (prim_registry any_cell), prim_run. }
  destruct (mutate_all_unsubscribes rank chain_depth e0 us ms _ Hlive)
    as [(ef2 & He2 & Hus2 & Hs2) Hreg2].
  fold w2 in He2, Hreg2. split.
  { intros r. unfold subs_of. by rewrite Hreg2. }
  intros r id. unfold effect_Stop. rewrite He2, Hs2.
  rewrite subs_of_set_effects, unsubscribe_all_subs, subs_of_emit, subs_of_set_effects, Hus2.
  destruct (decide (UnsubCell r id ∈ us)) as [|Hnin]; [done|].
  intros Hid. destruct Hnin. apply Hrec. unfold subs_of in *.
  by rewrite <- Hreg1, <- Hreg2.
Qed.

Lemma Stop_leaves_no_subscription_witness :
  let w0 := (New TInt (VInt 0) empty_world).2 in
  let body : effect_fn := wrappedFn (λ _, ([("executed"%string, VBool true)], Returned ())) in
  ∃ w1, EffectWithOptions body {| EffectOnPanic := None |} [DepSignal 0%nat; DepSignal 0%nat] w0
        = Returned (0%nat, w1)
    ∧ subs_of (RSignal 0%nat) w1
      = {[ 0 := CbOnChange (Run 0); 1 := CbOnChange (Run 0) ]}
    ∧ ∀ r id, subs_of r (effect_Stop 0%nat (mutate_all by_id 0 [MSet 0%nat (VInt 1)] w1)) !! id
              ≠ Some (CbOnChange (Run 0)).
Proof.
  intros w0 body. eexists. split; [vm_compute; reflexivity|]. split; [by vm_compute|].
  apply (Stop_leaves_no_subscription by_id 0 body {| EffectOnPanic := None |}
           [DepSignal 0%nat; DepSignal 0%nat] w0 0%nat _ [MSet 0%nat (VInt 1)]).
  - vm_compute. reflexivity.
  - intros [s|c] id; unfold subs_of; simpl; [|by rewrite lookup_empty].
    destruct (decide (s = 0%nat)) as [->|Hne].
    + rewrite lookup_insert_eq. simpl. by rewrite lookup_empty.
    + rewrite lookup_insert_ne by done. rewrite lookup_empty. simpl. by rewrite lookup_empty.
Defined.

(** * Derived Cell: Get is current *)

(** ** Paths of subscriptions *)

Lemma feeds_mono n w r c : feeds n w r c → feeds (S n) w r c.
Proof.
  revert r. induction n as [|n IH]; intros r; [done|].
  intros (id & d & Hid & Hd). exists id, d. split; [done|].
  destruct Hd as [->|Hd]; [by left|]. right. by apply IH.
Qed.

Lemma feeds_one n w r c : feeds 1 w r c → feeds (S n) w r c.
Proof. intros H. induction n as [|n IH]; [done | by apply feeds_mono]. Qed.

Lemma feeds_subs n w w' r c :
  (∀ r, subs_of r w' = subs_of r w) → feeds n w r c → feeds n w' r c.
Proof.
  intros Hsubs. revert r. induction n as [|n IH]; intros r; [done|].
  intros (id & d & Hid & Hd). exists id, d. rewrite Hsubs. split; [done|].
  destruct Hd as [->|Hd]; [by left|]. right. by apply IH.
Qed.

Lemma feeds_prims allowed n w w' r c :
  rtc (prim allowed) w w' → feeds n w r c → feeds n w' r c.
Proof.
  intros Hp. apply feeds_subs. intros r0. unfold subs_of.
  by rewrite (rtc_prim_registry _ _ _ r0 Hp).
Qed.

Lemma adds_edge_feeds r0 c w w' : adds_edge r0 c w w' → feeds 1 w' r0 c.
Proof. intros [(id0 & H) _]. exists id0, c. rewrite H, lookup_insert_eq. by split; [|left]. Qed.

(** A new subscription of [c.markDirty] may take the place of another
    wrapper only where [nextID] has wrapped around; a path that went
    through the wrapper it replaced then ends in [c] instead. *)
Lemma feeds_divert r0 c w w' n r c' :
  adds_edge r0 c w w' → feeds n w r c' → feeds n w' r c' ∨ feeds n w' r c.
Proof.
  intros Hadd. revert r. induction n as [|n IH]; intros r; [done|].
  intros (id & d & Hid & Hd).
  assert (subs_of r w' !! id = Some (CbOnChange (MarkDirty d))
          ∨ subs_of r w' !! id = Some (CbOnChange (MarkDirty c))) as [Hid'|Hid'].
  { destruct Hadd as [(id0 & H0) Hother]. destruct (decide (r = r0)) as [->|Hne].
    - rewrite H0. destruct (decide (id0 = id)) as [->|Hne'].
      + right. by rewrite lookup_insert_eq.
      + left. by rewrite lookup_insert_ne.
    - left. by rewrite Hother. }
  - destruct Hd as [->|Hd].
    + left. exists id, c'. split; [done|]. by left.
    + destruct (IH _ Hd) as [H|H]; [left|right]; exists id, d; (split; [done|]); by right.
  - right. exists id, c. split; [done|]. by left.
Qed.

Lemma feeds_keep r0 c w w' n r :
  adds_edge r0 c w w' → feeds n w r c → feeds n w' r c.
Proof. intros Hadd H. by destruct (feeds_divert r0 c w w' n r c Hadd H). Qed.

Lemma feeds_extend c' c w w' n r :
  adds_edge (RComputed c') c w w' → feeds n w r c' → feeds (S n) w' r c.
Proof.
  intros Hadd. revert r. induction n as [|n IH]; intros r; [done|].
  intros (id & d & Hid & Hd).
  destruct (decide (r = RComputed c')) as [->|Hne].
  { apply feeds_mono, feeds_one. by apply (adds_edge_feeds _ _ w). }
  assert (subs_of r w' !! id = Some (CbOnChange (MarkDirty d))) as Hid'.
  { destruct Hadd as [_ Hother]. by rewrite Hother. }
  exists id, d. split; [done|]. right. destruct Hd as [->|Hd]; [|by apply IH].
  apply feeds_one. by apply (adds_edge_feeds _ _ w).
Qed.

(** ** What tracking a cell of the package adds *)

Lemma trackDependencyHelper_cell d k w r :
  dep_cell w d = Some r →
  ∃ rg w', registry_of r w = Some rg
    ∧ trackDependencyHelper d k w = Returned (UnsubCell r (nextID rg), w')
    ∧ registry_of r w' = Some (registry_Subscribe Background (CbOnChange k) rg).2
    ∧ (∀ r', r' ≠ r → registry_of r' w' = registry_of r' w)
    ∧ view_of w' = view_of w.
Proof.
  intros Hd. destruct (dep_cell_inv w d r Hd) as (T & Hm & Hi & Hcall & [rg Hrg]).
  assert (∃ uw, cell_Subscribe r Background (CbOnChange k) w = Some uw) as [[u0 w0] HS].
  { destruct r as [s|c]; simpl in *.
    - unfold signal_Subscribe. destruct (signals w !! s); [by eexists | done].
    - unfold computed_Subscribe. destruct (computeds w !! c); [by eexists | done]. }
  pose proof (cell_Subscribe_inv r _ _ w u0 w0 HS)
    as (rg0 & Hrg0 & -> & Hr' & Hother & _ & _ & Hv).
  rewrite Hrg in Hrg0. injection Hrg0 as <-.
  exists rg, w0. split; [done|]. split; [|done].
  unfold trackDependencyHelper. rewrite Hm, Hi, Hcall, HS.
  destruct (decide _); [done|]. destruct T; try done;
    unfold subscribeAnyType; rewrite Hm, Hcall, HS; simpl; by destruct d.
Qed.

Lemma dep_cell_persists d r w w' :
  dep_cell w d = Some r →
  (∀ r', is_Some (registry_of r' w) → is_Some (registry_of r' w')) →
  dep_cell w' d = Some r.
Proof.
  intros Hd Hreg. destruct d as [|s|s|c|f]; simpl in *; try done.
  - destruct (signals w !! s) as [sg|] eqn:Hs; [|done].
    destruct (Hreg (RSignal s)) as [rg Hrg]; [simpl; rewrite Hs; by eexists|].
    simpl in Hrg. by destruct (signals w' !! s).
  - destruct (signals w !! s) as [sg|] eqn:Hs; [|done].
    destruct (Hreg (RSignal s)) as [rg Hrg]; [simpl; rewrite Hs; by eexists|].
    simpl in Hrg. by destruct (signals w' !! s).
  - destruct (computeds w !! c) as [cp|] eqn:Hc; [|done].
    destruct (Hreg (RComputed c)) as [rg Hrg]; [simpl; rewrite Hc; by eexists|].
    simpl in Hrg. by destruct (computeds w' !! c).
Qed.

Lemma computed_trackDependency_cell c d r w :
  dep_cell w d = Some r →
  ∃ w', computed_trackDependency c d w = Returned w'
    ∧ adds_edge r c w w'
    ∧ (∀ r', is_Some (registry_of r' w) → is_Some (registry_of r' w')).
Proof.
  intros Hd.
  destruct (trackDependencyHelper_cell d (MarkDirty c) w r Hd)
    as (rg & w1 & Hrg & Ht & Hrg1 & Hother & _).
  unfold computed_trackDependency. rewrite Ht. eexists. split; [reflexivity|].
  assert (∀ r', registry_of r'
            (set_computeds
               (alter (λ cp, c_with_unsubscribes (c_unsubscribes cp ++ [UnsubCell r (nextID rg)]) cp)
                  c) w1) = registry_of r' w1) as Halter.
  { intros [s'|c']; simpl; [done|]. destruct (decide (c' = c)) as [->|Hne].
    - rewrite lookup_alter_eq. by destruct (computeds w1 !! c).
    - by rewrite lookup_alter_ne. }
  split; [split|].
  - exists (nextID rg). unfold subs_of. by rewrite Halter, Hrg1, Hrg.
  - intros r' Hne. unfold subs_of. by rewrite Halter, Hother.
  - intros r' Hr'. rewrite Halter. destruct (decide (r' = r)) as [->|Hne].
    + rewrite Hrg1. by eexists.
    + by rewrite Hother.
Qed.

Lemma track_all_feeds n c deps :
  ∀ w w', Forall (λ d, is_Some (dep_cell w d)) deps →
    track_all (computed_trackDependency c) deps w = Returned w' →
    ∀ s, feeds (S n) w (RSignal s) c ∨ (∃ d, d ∈ deps ∧ dep_feeds n w d s) →
      feeds (S n) w' (RSignal s) c.
Proof.
  induction deps as [|d deps IH]; intros w w' Hcells Ht s Hs; simpl in Ht.
  { injection Ht as <-. destruct Hs as [H|(d & Hd & _)]; [done|].
    by apply elem_of_nil in Hd. }
  apply Forall_cons in Hcells as [[r Hr] Hcells].
  destruct (computed_trackDependency_cell c d r w Hr) as (w1 & Ht1 & Hadd & Hreg).
  rewrite Ht1 in Ht. apply (IH w1 w'); [|exact Ht|].
  { eapply Forall_impl; [exact Hcells|]. intros d' [r' Hr']. exists r'.
    by apply (dep_cell_persists d' r' w w1). }
  destruct Hs as [H|(d' & Hin & Hd')]; [left; by apply (feeds_keep r c w)|].
  assert (dep_feeds n w d s → feeds (S n) w1 (RSignal s) c) as Hhere.
  { intros [[Hds Hsome]|(c' & -> & Hf)].
    - assert (r = RSignal s) as ->.
      { destruct Hsome as [sg Hsg].
        destruct Hds as [-> | ->]; simpl in Hr; rewrite Hsg in Hr; by injection Hr. }
      apply feeds_one. by apply (adds_edge_feeds _ _ w).
    - assert (r = RComputed c') as ->.
      { simpl in Hr. destruct (computeds w !! c'); [by injection Hr | done]. }
      by apply (feeds_extend c' c w). }
  apply elem_of_cons in Hin as [->|Hin]; [left; by apply Hhere|].
  destruct Hd' as [[Hds Hsome]|(c' & -> & Hf)].
  - right. exists d'. split; [done|]. left. split; [done|].
    destruct (Hreg (RSignal s)) as [rg Hrg].
    { simpl. destruct Hsome as [sg ->]. by eexists. }
    simpl in Hrg. by destruct (signals w1 !! s).
  - destruct (feeds_divert r c w w1 n (RSignal s) c' Hadd Hf) as [H|H].
    + right. exists (DepComputed c'). split; [done|]. right. by exists c'.
    + left. by apply feeds_mono.
Qed.

(** ** A notification that gets to [c] brings it up to date *)

Lemma subs_of_computed d w id fn :
  subs_of (RComputed d) w !! id = Some fn →
  ∃ cp, computeds w !! d = Some cp ∧ subscribers (c_reg cp) !! id = Some fn.
Proof.
  unfold subs_of. simpl. destruct (computeds w !! d) as [cp|]; [|done].
  intros H. by exists cp.
Qed.

Section Refresh.
Variable rank : N → N.

Lemma round_prims depth r onPanic msg callbacks v w :
  rtc (prim any_cell) w
    (notify_round (onChange_call rank depth) r onPanic msg callbacks v w).
Proof.
  apply (notify_round_prims any_cell); [|done].
  intros k w'. eapply rtc_prim_mono; [|apply onChange_call_prims]. done.
Qed.

Lemma markDirty_self c f depth w :
  computes c f w →
  up_to_date c f (computed_markDirty rank (onChange_call rank depth) c w).
Proof.
  intros (cp & Hc & Hf). unfold computed_markDirty.
  set (wd := set_computeds (alter (c_with_dirty true) c) w).
  assert (up_to_date c f wd) as Hwd.
  { exists (c_with_dirty true cp). subst wd. simpl. rewrite lookup_alter_eq, Hc.
    by repeat split. }
  destruct (computed_Get c wd) as [[nv w2]|] eqn:HG; [|done].
  assert (up_to_date c f w2) as Hw2.
  { eapply (prim_up_to_date any_cell); [|exact Hwd]. by eapply prim_get. }
  unfold computed_notifySubscribers. destruct (computeds w2 !! c) as [cp2|]; [|done].
  eapply rtc_prim_up_to_date; [apply round_prims | exact Hw2].
Qed.

Lemma notify_round_feeds m c f r onPanic msg v callbacks :
  (∀ d w, computes c f w → d = c ∨ feeds m w (RComputed d) c →
          up_to_date c f (onChange_call rank (S m) (MarkDirty d) w)) →
  ∀ w, computes c f w →
    (∃ id d, (id, CbOnChange (MarkDirty d)) ∈ callbacks
       ∧ (d = c ∨ feeds m w (RComputed d) c)) →
    up_to_date c f
      (notify_round (onChange_call rank (S m)) r onPanic msg callbacks v w).
Proof.
  intros Hnested. unfold notify_round.
  induction callbacks as [|entry callbacks IH]; intros w Hc (id & d & Hin & Hd);
    cbn [foldl].
  { by apply elem_of_nil in Hin. }
  set (wa := call_callback (onChange_call rank (S m)) r onPanic msg v w entry).
  assert (rtc (prim any_cell) w wa) as Hprims
    by apply (round_prims (S m) r onPanic msg [entry] v w).
  apply elem_of_cons in Hin as [<-|Hin].
  - eapply rtc_prim_up_to_date;
      [apply (round_prims (S m) r onPanic msg callbacks v wa)|].
    subst wa. unfold call_callback. cbn [fst snd]. apply Hnested; [done|].
    destruct Hd as [->|Hd]; [by left|]. right.
    eapply feeds_subs; [|exact Hd]. intros r0. unfold subs_of.
    by rewrite registry_of_emit.
  - apply IH; [by eapply rtc_prim_computes|].
    exists id, d. split; [done|]. destruct Hd as [->|Hd]; [by left|]. right.
    by eapply feeds_prims.
Qed.

Lemma markDirty_feeds c f m :
  ∀ d w, computes c f w → d = c ∨ feeds m w (RComputed d) c →
    up_to_date c f (onChange_call rank (S m) (MarkDirty d) w).
Proof.
  induction m as [|m IH]; intros d w Hc Hd.
  { destruct Hd as [->|[]].
    change (onChange_call rank 1 (MarkDirty c) w)
      with (computed_markDirty rank (onChange_call rank 0) c w).
    by apply markDirty_self. }
  destruct Hd as [->|(id & d' & Hid & Hd')].
  { change (onChange_call rank (S (S m)) (MarkDirty c) w)
      with (computed_markDirty rank (onChange_call rank (S m)) c w).
    by apply markDirty_self. }
  change (onChange_call rank (S (S m)) (MarkDirty d) w)
    with (computed_markDirty rank (onChange_call rank (S m)) d w).
  unfold computed_markDirty.
  set (wd := set_computeds (alter (c_with_dirty true) d) w).
  assert (rtc (prim any_cell) w wd) as Hp1 by apply rtc_once, prim_dirty.
  destruct (computed_Get d wd) as [[nv w2]|] eqn:HG.
  2: { exfalso. unfold computed_Get in HG.
       assert (subs_of (RComputed d) wd !! id = Some (CbOnChange (MarkDirty d'))) as H.
       { unfold subs_of. by rewrite (rtc_prim_registry _ _ _ _ Hp1). }
       apply subs_of_computed in H as (cpd & Hcpd & _).
       rewrite Hcpd in HG. by destruct (computed_Get_cell d (view_of wd) cpd) as [[? ?] ?]. }
  assert (rtc (prim any_cell) w w2) as Hp2.
  { etrans; [exact Hp1|]. apply rtc_once. by eapply prim_get. }
  assert (subs_of (RComputed d) w2 !! id = Some (CbOnChange (MarkDirty d'))) as Hid2.
  { unfold subs_of. by rewrite (rtc_prim_registry _ _ _ _ Hp2). }
  unfold computed_notifySubscribers.
  apply subs_of_computed in Hid2 as (cp2 & Hc2 & Hid2). rewrite Hc2.
  apply (notify_round_feeds m c f); [exact IH | by eapply rtc_prim_computes |].
  exists id, d'. split.
  - by apply elem_of_range_subscribers.
  - destruct Hd' as [->|Hd']; [by left|]. right. by eapply feeds_prims.
Qed.

End Refresh.

(** ** Writes and reads keep the cache current *)

Section Current.
Variable rank : N → N.
Variable chain_depth : nat.

Lemma store_current c f ds s sg v w :
  reads_only ds f →
  (∀ s', s' ∈ ds → feeds (S chain_depth) w (RSignal s') c) →
  signals w !! s = Some sg → up_to_date c f w →
  up_to_date c f
    (signal_notifySubscribers rank chain_depth s
       (range_subscribers rank (subscribers (s_reg sg))) v
       (set_signals (insert s (s_with_value v sg)) w)).
Proof.
  intros Hreads Hfeeds Hs Hup.
  set (w1 := set_signals (insert s (s_with_value v sg)) w).
  assert (computes c f w1) as Hc1 by (by apply up_to_date_computes in Hup).
  assert (∀ r, subs_of r w1 = subs_of r w) as Hsubs.
  { intros r. unfold subs_of. subst w1. by rewrite registry_of_store. }
  destruct (decide (s ∈ ds)) as [Hin|Hnin].
  - destruct (Hfeeds s Hin) as (id & d & Hid & Hd).
    unfold signal_notifySubscribers.
    assert (signals w1 !! s = Some (s_with_value v sg)) as ->
      by (subst w1; simpl; by rewrite lookup_insert_eq).
    apply (notify_round_feeds rank chain_depth c f);
      [apply markDirty_feeds | exact Hc1 |].
    exists id, d. split.
    + apply elem_of_range_subscribers. unfold subs_of in Hid. simpl in Hid.
      by rewrite Hs in Hid.
    + destruct Hd as [->|Hd]; [by left|]. right. by apply (feeds_subs _ w).
  - eapply rtc_prim_up_to_date; [apply signal_notifySubscribers_prims|].
    destruct Hup as (cp & Hc & Hf & Hcache). exists cp. split; [done|]. split; [done|].
    intros Hd. rewrite (Hcache Hd). apply Hreads. intros s' Hs'.
    subst w1. unfold view_of. simpl. rewrite fmap_insert, lookup_insert_ne; [done|].
    by intros ->.
Qed.

Lemma apply_op_current c f ds o w :
  reads_only ds f → reads_or_writes o →
  (∀ s', s' ∈ ds → feeds (S chain_depth) w (RSignal s') c) →
  up_to_date c f w →
  up_to_date c f (apply_op rank chain_depth o w)
  ∧ ∀ s', s' ∈ ds → feeds (S chain_depth) (apply_op rank chain_depth o w) (RSignal s') c.
Proof.
  intros Hreads Ho Hfeeds Hup.
  assert (∀ r, subs_of r (apply_op rank chain_depth o w) = subs_of r w) as Hsubs.
  { intros r. unfold subs_of. destruct o as [m|c'| | |]; try done; simpl.
    - by rewrite mutate_registry.
    - destruct (computed_Get c' w) as [[v w']|] eqn:HG; [|done].
      rewrite (prim_registry any_cell w w' r); [done|]. by eapply prim_get. }
  split; [|intros s' Hs'; by apply (feeds_subs _ w), Hfeeds].
  destruct o as [m|c'| | |]; try done; simpl.
  - destruct (mutate_inv rank chain_depth m w) as [->|(sg & Hs & _ & ->)]; [done|].
    by eapply store_current.
  - destruct (computed_Get c' w) as [[v w']|] eqn:HG; [|done].
    eapply (prim_up_to_date any_cell); [|exact Hup]. by eapply prim_get.
Qed.

Lemma apply_ops_current c f ds os w :
  reads_only ds f → Forall reads_or_writes os →
  (∀ s', s' ∈ ds → feeds (S chain_depth) w (RSignal s') c) →
  up_to_date c f w →
  up_to_date c f (apply_ops rank chain_depth os w).
Proof.
  intros Hreads Hos. unfold apply_ops. revert w.
  induction Hos as [|o os Ho _ IH]; intros w Hfeeds Hup; simpl; [done|].
  destruct (apply_op_current c f ds o w Hreads Ho Hfeeds Hup) as [Hup' Hfeeds'].
  by apply IH.
Qed.

End Current.

(** C4. A Derived Cell constructed over cells of the package, with a
    compute function that does not panic and reads Reactive Cells each of
    which is a dependency itself (directly or through [AsReadonly]) or
    feeds a dependency that is a Derived Cell: after any history of [Set]
    and [Update] calls on any cells and [Get()] calls on any Derived
    Cells, this one included, [Get()] returns the compute function applied
    to the values the cells hold at that moment.  Nothing is subscribed
    again in between. *)
Theorem computed_Get_current rank chain_depth T f deps ds w0 :
  Forall (λ d, is_Some (dep_cell w0 d)) deps →
  reads_only ds f →
  (∀ s, s ∈ ds → ∃ d, d ∈ deps ∧ dep_feeds chain_depth w0 d s) →
  ∃ c w1,
    Computed T (λ vw, Returned (f vw)) deps w0 = Returned (c, w1)
    ∧ ∀ os, Forall reads_or_writes os →
        let w2 := apply_ops rank chain_depth os w1 in
        ∃ w3, computed_Get c w2 = Some (f (view_of w2), w3).
Proof.
  intros Hcells Hreads Hcover. unfold Computed, ComputedWithOptions.
  set (c := fresh (dom (computeds w0))).
  set (cp := {| c_elem := T; c_compute := λ vw, Returned (f vw);
                c_cached := zero_value T; c_dirty := true; c_unsubscribes := [];
                c_reg := empty_registry; c_onPanic := None |}).
  set (w0' := set_computeds (insert c cp) w0).
  assert (computeds w0 !! c = None) as Hfresh.
  { apply not_elem_of_dom. subst c. apply is_fresh. }
  assert (∀ r, subs_of r w0' = subs_of r w0) as Hsubs.
  { intros [s|c']; unfold subs_of; simpl; [done|]. destruct (decide (c' = c)) as [->|Hne].
    - by rewrite lookup_insert_eq, Hfresh.
    - by rewrite lookup_insert_ne. }
  assert (Forall (λ d, is_Some (dep_cell w0' d)) deps) as Hcells'.
  { eapply Forall_impl; [exact Hcells|]. intros d [r Hr]. exists r.
    apply (dep_cell_persists d r w0 w0' Hr). intros [s|c']; simpl; [done|].
    destruct (decide (c' = c)) as [->|Hne].
    - rewrite lookup_insert_eq. by eexists.
    - by rewrite lookup_insert_ne. }
  pose proof (track_all_computed c deps w0' cp) as Htrack.
  destruct (track_all (computed_trackDependency c) deps w0') as [w1|p] eqn:Ht.
  2: { exfalso. apply Exists_exists in Htrack as (d & Hin & (fo & ? & ? & -> & _)).
       - apply Forall_forall with (x := DepForeign fo) in Hcells; [|done].
         by destruct Hcells.
       - subst w0'. simpl. by rewrite lookup_insert_eq. }
  destruct Htrack as ((us & rg & Hc1) & _ & _).
  { subst w0'. simpl. by rewrite lookup_insert_eq. }
  exists c, w1. split.
  { change (match track_all (computed_trackDependency c) deps w0' with
            | Returned w => Returned (c, w)
            | Panicked p => Panicked p
            end = Returned (c, w1)). by rewrite Ht. }
  intros os Hos.
  apply up_to_date_Get. apply (apply_ops_current rank chain_depth c f ds); [done..| |].
  - intros s Hs. apply (track_all_feeds chain_depth c deps w0' w1 Hcells' Ht).
    right. destruct (Hcover s Hs) as (d & Hin & Hd). exists d. split; [done|].
    destruct Hd as [[Hds Hsome]|(c' & -> & Hf)]; [by left|].
    right. exists c'. split; [done|]. by apply (feeds_subs _ w0).
  - eexists. split; [exact Hc1|]. split; [done|]. done.
Qed.

(** C4 at the scenario of the specification, one call after the other:
    [A = 5], [B = Computed(() => A.Get() * 2, A)], [B.Get() == 10], which
    leaves [B] clean, [A.Set(10)], [B.Get() == 20]; and at a Derived Cell
    over a Derived Cell, where the notification of [count] gets to
    [quadrupled] through [doubled]. *)
Lemma computed_Get_current_witness :
  let w0 := (New TInt (VInt 5) empty_world).2 in
  (∃ b w1,
     Computed TInt (λ vw, Returned (twice 0%nat vw)) [signal_AsReadonly 0%nat] w0
     = Returned (b, w1)
     ∧ fst <$> computed_Get b w1 = Some (VInt 10)
     ∧ let w2 := apply_ops by_id 0 [OpGet b] w1 in
       let w3 := apply_ops by_id 0 [OpMutate (MSet 0%nat (VInt 10))] w2 in
       c_dirty <$> computeds w2 !! b = Some false
       ∧ fst <$> computed_Get b w3 = Some (VInt 20))
  ∧ ∃ q w1,
      Computed TInt (λ vw, Returned (four_times 0%nat vw)) [DepComputed 0%nat] chained_base
      = Returned (q, w1)
      ∧ let w2 := apply_ops by_id 1 [OpGet q] w1 in
        let w3 := apply_ops by_id 1 [OpMutate (MSet 0%nat (VInt 10))] w2 in
        fst <$> computed_Get q w1 = Some (VInt 20)
        ∧ c_dirty <$> computeds w2 !! q = Some false
        ∧ fst <$> computed_Get q w3 = Some (VInt 40).
Proof.
  intros w0. split.
  - destruct (computed_Get_current by_id 0 TInt (twice 0%nat) [signal_AsReadonly 0%nat]
                [0%nat] w0) as (b & w1 & HC & Hget).
    { constructor; [by eexists | constructor]. }
    { intros vw vw' H. unfold twice. by rewrite (H 0%nat) by (by left). }
    { intros s Hs. apply elem_of_cons in Hs as [->|Hs]; [|by apply elem_of_nil in Hs].
      exists (signal_AsReadonly 0%nat). split; [by left|]. left. split; [by right|].
      by eexists. }
    exists b, w1. split; [exact HC|].
    destruct (Hget []) as (w3 & H0); [constructor|].
    destruct (Hget [OpGet b; OpMutate (MSet 0%nat (VInt 10))]) as (w4 & H1);
      [by repeat constructor|].
    change (apply_ops by_id 0 [] w1) with w1 in H0.
    assert (view_of w1 !! 0%nat = Some (VInt 5)
            ∧ view_of (apply_ops by_id 0 [OpGet b; OpMutate (MSet 0%nat (VInt 10))] w1)
              !! 0%nat = Some (VInt 10)
            ∧ c_dirty <$> computeds (apply_ops by_id 0 [OpGet b] w1) !! b = Some false)
      as (Hv1 & Hv2 & Hclean).
    { clear Hget H0 H1. vm_compute in HC. injection HC as <- <-. by vm_compute. }
    split; [rewrite H0; unfold twice; by rewrite Hv1|]. cbv zeta.
    split; [exact Hclean|].
    change (apply_ops by_id 0 [OpMutate (MSet 0%nat (VInt 10))]
              (apply_ops by_id 0 [OpGet b] w1))
      with (apply_ops by_id 0 [OpGet b; OpMutate (MSet 0%nat (VInt 10))] w1).
    rewrite H1. unfold twice. by rewrite Hv2.
  - destruct (computed_Get_current by_id 1 TInt (four_times 0%nat) [DepComputed 0%nat]
                [0%nat] chained_base) as (q & w1 & HC & Hget).
    { constructor; [by eexists | constructor]. }
    { intros vw vw' H. unfold four_times. by rewrite (H 0%nat) by (by left). }
    { intros s Hs. apply elem_of_cons in Hs as [->|Hs]; [|by apply elem_of_nil in Hs].
      exists (DepComputed 0%nat). split; [by left|]. right. exists 0%nat. split; [done|].
      exists 0, 0%nat. split; [by vm_compute | by left]. }
    exists q, w1. split; [exact HC|].
    destruct (Hget []) as (w3 & H0); [constructor|].
    destruct (Hget [OpGet q; OpMutate (MSet 0%nat (VInt 10))]) as (w4 & H1);
      [by repeat constructor|].
    change (apply_ops by_id 1 [] w1) with w1 in H0.
    assert (view_of w1 !! 0%nat = Some (VInt 5)
            ∧ view_of (apply_ops by_id 1 [OpGet q; OpMutate (MSet 0%nat (VInt 10))] w1)
              !! 0%nat = Some (VInt 10)
            ∧ c_dirty <$> computeds (apply_ops by_id 1 [OpGet q] w1) !! q = Some false)
      as (Hv1 & Hv2 & Hclean).
    { clear Hget H0 H1. vm_compute in HC. injection HC as <- <-. by vm_compute. }
    cbv zeta. split; [rewrite H0; unfold four_times; by rewrite Hv1|].
    split; [exact Hclean|].
    change (apply_ops by_id 1 [OpMutate (MSet 0%nat (VInt 10))]
              (apply_ops by_id 1 [OpGet q] w1))
      with (apply_ops by_id 1 [OpGet q; OpMutate (MSet 0%nat (VInt 10))] w1).
    rewrite H1. unfold four_times. by rewrite Hv2.
Defined.
